(** * Paint-by-numbers segmentation pipeline (services/processor.ts)

    A shallow embedding of the image pipeline of [processor.ts]: the k-means
    palette quantizer, the pixel labeler, the connected-component scan with
    its breadth-first flood fill, the boundary (edge soup) builder and the
    label placer, followed by the properties proved about them.

    Conventions.
    - JS numbers that hold integers are [Z]; array reads go through [aget],
      which answers [None] where JS answers [undefined].
    - A property access on [undefined] throws: the model answers
      [TypeError] ([sums[clusterIdx].r] when [k = 0], [palette[colorIdx].id]
      when the label is no index of the palette).
    - [Math.random()] is a call on a generator state that the model threads
      explicitly ([random : G -> Q * G]); the draw is a rational and the
      product with the pixel count is exact.
    - [colorDistance] takes a square root of an integer below 2^18; the
      code only ever compares two such roots with [<], which is the
      comparison of the integers themselves, so the model keeps the squared
      distance.
    - [Math.round] and [Math.floor] of quotients of integers are integer
      divisions; the label point is kept as a pair of exact rationals.
    - The flood fill is a [while] loop; the model gives it fuel and reports
      [OutOfFuel] when the fuel is spent ([bfs_fuel_enough] and
      [extractRegions_fuel] show that the fuel handed out by the scan
      always suffices).
    - The model of the pipeline starts from the decoded RGBA buffer
      ([imgData.data] with the canvas width and height); image loading,
      the drawing on the canvas and the blur are not part of it.  Of the
      down-scaling the arithmetic of the canvas size is modelled
      ([canvasSize]).
    - [processImage] fixes the speckle threshold to [minRegionArea];
      [processWith] is the same pipeline with the threshold as argument.
    - Of the editor ([App.tsx] and the canvas it renders) the model keeps
      the state that decides what is painted: the artwork, the selected
      colour and [filledRegions], with the click handler, the effect that
      recomputes the completed colours and the lookup of a region's paint.
      Of [gemini.ts] it keeps the stripping of the data-URL header. *)

From Stdlib Require Import ZArith QArith Qround List String Ascii Lia Bool.
From stdpp Require Import base list gmap pretty.

Open Scope Z_scope.

(** ** Outcomes: a result, a JS [TypeError], or exhausted fuel *)

Inductive outcome (A : Type) : Type :=
| Ok (a : A)
| TypeError
| OutOfFuel.
Arguments Ok {A} a.
Arguments TypeError {A}.
Arguments OutOfFuel {A}.

Definition obind {A B} (m : outcome A) (f : A -> outcome B) : outcome B :=
  match m with
  | Ok a => f a
  | TypeError => TypeError
  | OutOfFuel => OutOfFuel
  end.

Notation "x <-- m ;; k" := (obind m (fun x => k))
  (at level 100, m at next level, right associativity).

(** A [for] loop whose body may throw. *)
Fixpoint foldM {S A} (f : S -> A -> outcome S) (l : list A) (s : S) : outcome S :=
  match l with
  | [] => Ok s
  | a :: l' => s' <-- f s a ;; foldM f l' s'
  end.

(** ** Arrays *)

(** [a[i]] for an integer [i]: [None] is JS's [undefined]. *)
Definition aget {A} (a : list A) (i : Z) : option A :=
  if i <? 0 then None else a !! Z.to_nat i.

(** [a[i] = v] on a typed array: a write outside the array is ignored. *)
Definition aset {A} (a : list A) (i : Z) (v : A) : list A :=
  if i <? 0 then a else <[Z.to_nat i := v]> a.

(** Truthiness of an entry of the [visited] bitmap. *)
Definition truthy (o : option bool) : bool :=
  match o with Some true => true | _ => false end.

(** A channel read from the RGBA buffer.  Reads are in range whenever the
    buffer is a non-empty [ImageData] (length [4 * width * height]); the
    model reads 0 elsewhere. *)
Definition byteAt (data : list Z) (i : Z) : Z := default 0 (aget data i).

(** ** The data model (types.ts) *)

Record RGB := mkRGB { c_r : Z; c_g : Z; c_b : Z }.

(** [PaletteColor extends RGB]. *)
Record PaletteColor := mkPaletteColor {
  pc_rgb : RGB;
  pc_id : Z;
  pc_hex : string;
  pc_count : Z
}.

Record Region := mkRegion {
  reg_path : string;
  reg_colorId : Z;
  reg_labelPoint : Q * Q;
  reg_area : Z
}.

Record ProcessedArt := mkProcessedArt {
  art_width : Z;
  art_height : Z;
  art_palette : list PaletteColor;
  art_regions : list Region;
  art_originalUrl : string
}.

(** ** Colour helpers *)

(** Digits of [n] in base 16, most significant first ([toString(16)]). *)
Definition hexDigit (d : Z) : ascii :=
  match d with
  | 0 => "0" | 1 => "1" | 2 => "2" | 3 => "3" | 4 => "4" | 5 => "5"
  | 6 => "6" | 7 => "7" | 8 => "8" | 9 => "9" | 10 => "a" | 11 => "b"
  | 12 => "c" | 13 => "d" | 14 => "e" | _ => "f"
  end%char.

Fixpoint toHexFrom (fuel : nat) (n : Z) (acc : string) : string :=
  match fuel with
  | O => acc
  | S fuel' =>
      let acc' := String (hexDigit (n mod 16)) acc in
      if n / 16 =? 0 then acc' else toHexFrom fuel' (n / 16) acc'
  end.

Definition toString16 (n : Z) : string :=
  toHexFrom (S (Z.to_nat (Z.log2 n))) n EmptyString.

(** [str.slice(1)] *)
Definition slice1 (s : string) : string :=
  match s with EmptyString => EmptyString | String _ s' => s' end.

Definition rgbToHex (r g b : Z) : string :=
  String "#" (slice1 (toString16
    (Z.shiftl 1 24 + Z.shiftl r 16 + Z.shiftl g 8 + b))).

(** The square of [colorDistance c1 c2]. *)
Definition colorDistance2 (c1 c2 : RGB) : Z :=
  (c_r c1 - c_r c2) ^ 2 + (c_g c1 - c_g c2) ^ 2 + (c_b c1 - c_b c2) ^ 2.

(** [dist < minDist], where [None] is [Infinity]. *)
Definition distLt (dist : Z) (minDist : option Z) : bool :=
  match minDist with
  | None => true
  | Some m => dist <? m
  end.

(** The loop [for (j = 0; j < k; j++) if (dist < minDist) ...], entered at
    index [j] with the running [minDist] and [clusterIdx]. *)
Fixpoint nearestFrom (p : RGB) (cs : list RGB) (j : nat)
    (minDist : option Z) (clusterIdx : nat) : nat :=
  match cs with
  | [] => clusterIdx
  | c :: cs' =>
      let dist := colorDistance2 p c in
      if distLt dist minDist
      then nearestFrom p cs' (S j) (Some dist) j
      else nearestFrom p cs' (S j) minDist clusterIdx
  end.

(** [minDist = Infinity; clusterIdx = 0; for ...] *)
Definition nearest (p : RGB) (cs : list RGB) : nat :=
  nearestFrom p cs 0 None 0.

(** The pixel at byte offset [i]. *)
Definition pixelAt (data : list Z) (i : Z) : RGB :=
  mkRGB (byteAt data i) (byteAt data (i + 1)) (byteAt data (i + 2)).

(** [data[i + 3] < 128]; the comparison is false on [undefined]. *)
Definition transparentAt (data : list Z) (i : Z) : bool :=
  match aget data (i + 3) with
  | Some a => a <? 128
  | None => false
  end.

(** The offsets visited by [for (i = 0; i < data.length; i += 4)]. *)
Definition pixelOffsets (data : list Z) : list Z :=
  (fun n => 4 * n) <$> seqZ 0 ((Z.of_nat (length data) + 3) / 4).

(** ** ColorQuantizer: [getQuantizedPalette] *)

Record Sum := mkSum { s_r : Z; s_g : Z; s_b : Z; s_count : Z }.

(** One iteration of the assignment loop.  [sums[clusterIdx].r += ...]
    throws when [sums] is empty (k = 0). *)
Definition accumulate (data : list Z) (centroids : list RGB)
    (sums : list Sum) (i : Z) : outcome (list Sum) :=
  if transparentAt data i then Ok sums
  else
    let p := pixelAt data i in
    let clusterIdx := nearest p centroids in
    match sums !! clusterIdx with
    | None => TypeError
    | Some s =>
        Ok (<[clusterIdx := mkSum (s_r s + c_r p) (s_g s + c_g p)
                                  (s_b s + c_b p) (s_count s + 1)]> sums)
    end.

(** [Math.round(s / c)] for [c > 0]: halves round up. *)
Definition roundDiv (s c : Z) : Z := (2 * s + c) / (2 * c).

Definition updateCentroid (c : RGB) (s : Sum) : RGB :=
  if 0 <? s_count s
  then mkRGB (roundDiv (s_r s) (s_count s)) (roundDiv (s_g s) (s_count s))
             (roundDiv (s_b s) (s_count s))
  else c.

(** The sums of one pass: [centroids.map(() => zero)] then the pixel loop. *)
Definition passSums (data : list Z) (centroids : list RGB) : outcome (list Sum) :=
  foldM (accumulate data centroids) (pixelOffsets data)
        ((fun _ => mkSum 0 0 0 0) <$> centroids).

(** The body of [for (iter ...)]: assignment, then the centroid update. *)
Definition kmeansPass (data : list Z) (centroids : list RGB) : outcome (list RGB) :=
  sums <-- passSums data centroids ;;
  Ok (zip_with updateCentroid centroids sums).

Definition iterations : nat := 5.

Fixpoint refine (n : nat) (data : list Z) (centroids : list RGB) : outcome (list RGB) :=
  match n with
  | O => Ok centroids
  | S n' => cs <-- kmeansPass data centroids ;; refine n' data cs
  end.

(** [centroids.map((c, idx) => ({...c, id: idx + 1, hex, count: 0}))] *)
Definition toPalette (centroids : list RGB) : list PaletteColor :=
  imap (fun idx c =>
          mkPaletteColor c (Z.of_nat idx + 1) (rgbToHex (c_r c) (c_g c) (c_b c)) 0)
       centroids.

(** [Math.floor(u * (data.length / 4)) * 4] for a draw [u]. *)
Definition pickIdx (u : Q) (data : list Z) : Z :=
  Qfloor (Qmult u (Qmake (Z.of_nat (length data)) 4)) * 4.

Section Quantizer.
(** The generator behind [Math.random()]: a draw and the next state. *)
Context {G : Type} (random : G -> Q * G).

Fixpoint initCentroids (k : nat) (data : list Z) (gen : G)
    (centroids : list RGB) : list RGB * G :=
  match k with
  | O => (centroids, gen)
  | S k' =>
      let '(u, gen') := random gen in
      initCentroids k' data gen' (centroids ++ [pixelAt data (pickIdx u data)])
  end.

Definition getQuantizedPalette (data : list Z) (k : nat) (gen : G)
    : outcome (list PaletteColor) * G :=
  let '(centroids, gen') := initCentroids k data gen [] in
  (cs <-- refine iterations data centroids ;; Ok (toPalette cs), gen').
End Quantizer.

(** ** PixelLabeler: step 3 of [processImage] *)

Definition labelPixel (data : list Z) (palette : list PaletteColor)
    (pixelLabels : list Z) (i : Z) : list Z :=
  if transparentAt data i then aset pixelLabels (i / 4) (-1)
  else aset pixelLabels (i / 4)
            (Z.of_nat (nearest (pixelAt data i) (pc_rgb <$> palette))).

(** [new Int32Array(width * height)] is zero-filled. *)
Definition labelPixels (data : list Z) (palette : list PaletteColor)
    (width height : Z) : list Z :=
  fold_left (labelPixel data palette) (pixelOffsets data)
            (replicate (Z.to_nat (width * height)) 0).

(** ** ContourBuilder: [traceRegionBoundary] *)

(** One [M x1,y1 L x2,y2] segment of the path. *)
Record Edge := mkEdge { e_x1 : Z; e_y1 : Z; e_x2 : Z; e_y2 : Z }.

Global Instance Edge_eq_dec : EqDecision Edge.
Proof. solve_decision. Defined.

(** [pixelSet.has(idx)] *)
Definition has (pixelSet : gset Z) (idx : Z) : bool := bool_decide (idx ∈ pixelSet).

(** The bounding box loop: [(minBx, maxBx, minBy, maxBy)]. *)
Definition growBox (width : Z) (box : Z * Z * Z * Z) (p : Z) : Z * Z * Z * Z :=
  let '(minBx, maxBx, minBy, maxBy) := box in
  let x := Z.rem p width in
  let y := p / width in
  (if x <? minBx then x else minBx,
   if maxBx <? x then x else maxBx,
   if y <? minBy then y else minBy,
   if maxBy <? y then y else maxBy).

Definition boundingBox (pixels : list Z) (width height : Z) : Z * Z * Z * Z :=
  fold_left (growBox width) pixels (width, 0, height, 0).

(** The four tests made for the cell [(x, y)] of the bounding box. *)
Definition cellEdges (pixelSet : gset Z) (width height x y : Z) : list Edge :=
  if negb (has pixelSet (y * width + x)) then []
  else
    (if (y =? 0) || negb (has pixelSet ((y - 1) * width + x))
     then [mkEdge x y (x + 1) y] else []) ++
    (if (y =? height - 1) || negb (has pixelSet ((y + 1) * width + x))
     then [mkEdge x (y + 1) (x + 1) (y + 1)] else []) ++
    (if (x =? 0) || negb (has pixelSet (y * width + x - 1))
     then [mkEdge x y x (y + 1)] else []) ++
    (if (x =? width - 1) || negb (has pixelSet (y * width + x + 1))
     then [mkEdge (x + 1) y (x + 1) (y + 1)] else []).

(** The edges in the order the scanline loop appends them. *)
Definition boundaryEdges (pixels : list Z) (width height : Z) : list Edge :=
  let pixelSet : gset Z := list_to_set pixels in
  let '(minBx, maxBx, minBy, maxBy) := boundingBox pixels width height in
  y ← seqZ minBy (maxBy - minBy + 1);
  x ← seqZ minBx (maxBx - minBx + 1);
  cellEdges pixelSet width height x y.

(** [`M${x1},${y1}L${x2},${y2} `] *)
Definition renderEdge (e : Edge) : string :=
  ("M" ++ pretty (e_x1 e) ++ "," ++ pretty (e_y1 e) ++
   "L" ++ pretty (e_x2 e) ++ "," ++ pretty (e_y2 e) ++ " ")%string.

(** The string built in [pathBuilder].  The earlier loops of the function
    (run detection, [pathData], [boundaryPoints]) compute nothing that
    reaches the result; [startX] and [startY] are not read. *)
Definition traceRegionBoundary (pixels : list Z) (width height startX startY : Z)
    : string :=
  foldr (fun e acc => (renderEdge e ++ acc)%string) EmptyString
        (boundaryEdges pixels width height).

(** ** LabelPlacer: [calculateLabelPoint] *)

(** The mean of the pixel coordinates plus one half, as exact rationals. *)
Definition calculateLabelPoint (pixels : list Z) (width : Z) : Q * Q :=
  let sx := fold_left (fun s p => s + Z.rem p width) pixels 0 in
  let sy := fold_left (fun s p => s + p / width) pixels 0 in
  let n := inject_Z (Z.of_nat (length pixels)) in
  (Qplus (Qdiv (inject_Z sx) n) (Qmake 1 2),
   Qplus (Qdiv (inject_Z sy) n) (Qmake 1 2)).

(** ** RegionExtractor: step 4 of [processImage] *)

Definition minRegionArea : Z := 10.

(** [dx = [1, -1, 0, 0]], [dy = [0, 0, 1, -1]], paired by [d]. *)
Definition directions : list (Z * Z) := [(1, 0); (-1, 0); (0, 1); (0, -1)].

(** The mutable state of one flood fill. *)
Record Fill := mkFill {
  f_visited : list bool;
  f_queue : list Z;
  f_pixels : list Z     (* currentRegionPixels *)
}.

Section Extraction.
Variables (width height : Z) (pixelLabels : list Z).

(** The body of [for (d = 0; d < 4; d++)] around the cell [(cx, cy)]. *)
Definition visitNeighbour (colorIdx : option Z) (cx cy : Z)
    (st : Fill) (d : Z * Z) : Fill :=
  let nx := cx + fst d in
  let ny := cy + snd d in
  if (0 <=? nx) && (nx <? width) && (0 <=? ny) && (ny <? height) then
    let nIdx := ny * width + nx in
    if negb (truthy (aget (f_visited st) nIdx))
       && bool_decide (aget pixelLabels nIdx = colorIdx)
    then mkFill (aset (f_visited st) nIdx true)
                (f_queue st ++ [nIdx])
                (f_pixels st ++ [nIdx])
    else st
  else st.

(** [while (head < queue.length)]: the test is the lookup of
    [queue[head]]. *)
Fixpoint bfs (fuel : nat) (colorIdx : option Z) (head : nat) (st : Fill)
    : outcome Fill :=
  match f_queue st !! head with
  | None => Ok st
  | Some currIdx =>
      match fuel with
      | O => OutOfFuel
      | S fuel' =>
          let cx := Z.rem currIdx width in
          let cy := currIdx / width in
          bfs fuel' colorIdx (S head)
              (fold_left (visitNeighbour colorIdx cx cy) directions st)
      end
  end.

(** The scan's state: the bitmap, the regions pushed so far (each with
    the [currentRegionPixels] it was built from) and the palette. *)
Record Scan := mkScan {
  sc_visited : list bool;
  sc_regions : list (list Z * Region);
  sc_palette : list PaletteColor
}.

Definition bumpCount (p : PaletteColor) : PaletteColor :=
  mkPaletteColor (pc_rgb p) (pc_id p) (pc_hex p) (pc_count p + 1).

(** The body of the two scan loops at the cell [(x, y)]. *)
Definition scanPixel (minArea : Z) (y : Z) (st : Scan) (x : Z) : outcome Scan :=
  let idx := y * width + x in
  if truthy (aget (sc_visited st) idx)
     || bool_decide (aget pixelLabels idx = Some (-1))
  then Ok st
  else
    let colorIdx := aget pixelLabels idx in
    fl <-- bfs (Z.to_nat (width * height)) colorIdx 0
               (mkFill (aset (sc_visited st) idx true) [idx] [idx]) ;;
    let currentRegionPixels := f_pixels fl in
    if Z.of_nat (length currentRegionPixels) <? minArea
    then Ok (mkScan (f_visited fl) (sc_regions st) (sc_palette st))
    else
      let path := traceRegionBoundary currentRegionPixels width height x y in
      let labelPoint := calculateLabelPoint currentRegionPixels width in
      (* [palette[colorIdx].id] throws when [palette[colorIdx]] is
         [undefined] *)
      match colorIdx ≫= aget (sc_palette st), colorIdx with
      | Some pc, Some ci =>
          Ok (mkScan (f_visited fl)
                (sc_regions st ++
                 [(currentRegionPixels,
                   mkRegion path (pc_id pc) labelPoint
                            (Z.of_nat (length currentRegionPixels)))])
                (aset (sc_palette st) ci (bumpCount pc)))
      | _, _ => TypeError
      end.

Definition scanRow (minArea : Z) (st : Scan) (y : Z) : outcome Scan :=
  foldM (scanPixel minArea y) (seqZ 0 width) st.

(** The two nested [for] loops over [y] and [x]. *)
Definition extractRegions (minArea : Z) (palette : list PaletteColor)
    : outcome Scan :=
  foldM (scanRow minArea) (seqZ 0 height)
        (mkScan (replicate (Z.to_nat (width * height)) false) [] palette).
End Extraction.

(** ** Pipeline orchestrator: [processImage] from the decoded buffer on *)

Section Pipeline.
Context {G : Type} (random : G -> Q * G).

(** [processImage] with the speckle threshold as a parameter. *)
Definition processWith (minArea : Z) (imageUrl : string) (data : list Z)
    (width height : Z) (numColors : nat) (gen : G) : outcome ProcessedArt :=
  palette <-- fst (getQuantizedPalette random data numColors gen) ;;
  let pixelLabels := labelPixels data palette width height in
  sc <-- extractRegions width height pixelLabels minArea palette ;;
  Ok (mkProcessedArt width height
        (filter (fun p => 0 < pc_count p) (sc_palette sc))
        (snd <$> sc_regions sc)
        imageUrl).

Definition processImage : string -> list Z -> Z -> Z -> nat -> G -> outcome ProcessedArt :=
  processWith minRegionArea.
End Pipeline.

(** ** Vocabulary of the statements *)

(** [p] is a linear index of the [width * height] grid. *)
Definition inGrid (width height p : Z) : Prop := 0 <= p < width * height.

(** [visited[p]] is set. *)
Definition vis (v : list bool) (p : Z) : Prop := truthy (aget v p) = true.

(** The index reached from [p] in direction [d], when it is in the image. *)
Definition neighbour (width height p : Z) (d : Z * Z) : option Z :=
  let nx := Z.rem p width + fst d in
  let ny := p / width + snd d in
  if (0 <=? nx) && (nx <? width) && (0 <=? ny) && (ny <? height)
  then Some (ny * width + nx) else None.

(** [q] is a 4-neighbour of [p] carrying the same label. *)
Definition adjacent (width height : Z) (pixelLabels : list Z) (p q : Z) : Prop :=
  exists d, d ∈ directions /\ neighbour width height p d = Some q /\
            aget pixelLabels q = aget pixelLabels p.

(** [q] lies in the connected component of [p]. *)
Definition connected (width height : Z) (pixelLabels : list Z) : Z -> Z -> Prop :=
  rtc (adjacent width height pixelLabels).

(** The number of clear entries of the bitmap. *)
Definition unvisited (v : list bool) : nat := length (filter (fun b => b = false) v).

(** What a flood fill does to its state when it enqueues [n]. *)
Definition push (st : Fill) (n : Z) : Fill :=
  mkFill (aset (f_visited st) n true) (f_queue st ++ [n]) (f_pixels st ++ [n]).

(** All in-image neighbours of [c] that carry [colorIdx] are marked. *)
Definition closedAt (width height : Z) (pixelLabels : list Z)
    (colorIdx : option Z) (v : list bool) (c : Z) : Prop :=
  forall d n, d ∈ directions -> neighbour width height c d = Some n ->
              aget pixelLabels n = colorIdx -> vis v n.

(** What holds of a fill started at seed [s] on the bitmap [v0],
    wherever [head] stands. *)
Record fillSafe (width height : Z) (pixelLabels : list Z)
    (v0 : list bool) (s : Z) (colorIdx : option Z) (st : Fill) : Prop := {
  fs_len : length (f_visited st) = length v0;
  fs_queue : f_queue st = f_pixels st;
  fs_seed : exists rest, f_pixels st = s :: rest;
  fs_nodup : NoDup (f_pixels st);
  fs_vis : forall p, vis (f_visited st) p <-> vis v0 p \/ p ∈ f_pixels st;
  fs_new : forall p, p ∈ f_pixels st ->
      inGrid width height p /\ ~ vis v0 p /\ aget pixelLabels p = colorIdx /\
      connected width height pixelLabels s p
}.

(** The same, with the entries before [head] fully expanded. *)
Definition fillInv (width height : Z) (pixelLabels : list Z)
    (v0 : list bool) (s : Z) (colorIdx : option Z) (head : nat) (st : Fill) : Prop :=
  fillSafe width height pixelLabels v0 s colorIdx st /\
  (head <= length (f_queue st))%nat /\
  forall i c, (i < head)%nat -> f_queue st !! i = Some c ->
              closedAt width height pixelLabels colorIdx (f_visited st) c.

(** How a later state of a fill relates to an earlier one. *)
Definition extends (st st' : Fill) : Prop :=
  (forall p, vis (f_visited st) p -> vis (f_visited st') p) /\
  (f_queue st `prefix_of` f_queue st') /\
  (length (f_queue st') + unvisited (f_visited st')
   = length (f_queue st) + unvisited (f_visited st))%nat.

(** All pixels of the regions pushed so far, in order. *)
Definition regionPixels (regions : list (list Z * Region)) : list Z :=
  mjoin (fst <$> regions).

(** An emitted region: its pixel list starts at a seed [s] inside the
    grid whose label is not the sentinel, has no repetition, is the
    connected component of [s] and holds no index below [s]; its [area]
    is the length of the list and reaches the threshold. *)
Definition regionOk (width height : Z) (pixelLabels : list Z) (minArea : Z)
    (e : list Z * Region) : Prop :=
  exists s, head e.1 = Some s /\ inGrid width height s /\
    aget pixelLabels s <> Some (-1) /\ NoDup e.1 /\
    (forall p, p ∈ e.1 <-> connected width height pixelLabels s p) /\
    reg_area e.2 = Z.of_nat (length e.1) /\ minArea <= reg_area e.2 /\
    (forall p, p ∈ e.1 -> s <= p).

(** The state of the scan when every index below [n] has been passed. *)
Record scanInv (width height : Z) (pixelLabels : list Z) (minArea : Z)
    (n : Z) (st : Scan) : Prop := {
  si_len : length (sc_visited st) = Z.to_nat (width * height);
  si_closed : forall p q, vis (sc_visited st) p ->
      adjacent width height pixelLabels p q -> vis (sc_visited st) q;
  si_done : forall p, 0 <= p < n ->
      vis (sc_visited st) p \/ aget pixelLabels p = Some (-1);
  si_nosent : forall p, vis (sc_visited st) p -> aget pixelLabels p <> Some (-1);
  si_regions : Forall (regionOk width height pixelLabels minArea) (sc_regions st);
  si_nodup : NoDup (regionPixels (sc_regions st));
  si_regvis : forall p, p ∈ regionPixels (sc_regions st) -> vis (sc_visited st) p;
  si_seeds : forall e s, e ∈ sc_regions st -> head e.1 = Some s -> s < n;
  si_sorted : forall i j ei ej si sj, (i < j)%nat ->
      sc_regions st !! i = Some ei -> sc_regions st !! j = Some ej ->
      head ei.1 = Some si -> head ej.1 = Some sj -> si < sj
}.

(** The region pushed for the pixel list [px] found from the cell
    [(x, y)], with the id of the palette entry [pc]. *)
Definition regionOf (width height x y : Z) (px : list Z) (pc : PaletteColor)
    : list Z * Region :=
  (px, mkRegion (traceRegionBoundary px width height x y) (pc_id pc)
                (calculateLabelPoint px width) (Z.of_nat (length px))).

(** The number of regions that reference the palette id [id]. *)
Definition usageCount (id : Z) (regions : list Region) : Z :=
  Z.of_nat (length (filter (fun r => reg_colorId r = id) regions)).

(** No two entries of the palette share an id. *)
Definition uniqueIds (palette : list PaletteColor) : Prop :=
  forall i j p q, palette !! i = Some p -> palette !! j = Some q ->
                  pc_id p = pc_id q -> i = j.

(** The palette held by the scan against the palette [palette0] it
    started from: the same entries, each count raised by the number of
    regions pushed with that entry's id. *)
Definition paletteInv (palette0 : list PaletteColor) (st : Scan) : Prop :=
  length (sc_palette st) = length palette0 /\
  (forall i p0, palette0 !! i = Some p0 ->
     sc_palette st !! i =
     Some (mkPaletteColor (pc_rgb p0) (pc_id p0) (pc_hex p0)
             (pc_count p0 + usageCount (pc_id p0) (snd <$> sc_regions st)))) /\
  (forall e, e ∈ sc_regions st ->
     exists i p0, palette0 !! i = Some p0 /\ reg_colorId e.2 = pc_id p0).

(** Every label of the grid is the sentinel or an index of the palette. *)
Definition validLabels (width height : Z) (pixelLabels : list Z) (n : nat) : Prop :=
  forall p, inGrid width height p ->
    aget pixelLabels p = Some (-1) \/
    exists ci, aget pixelLabels p = Some ci /\ 0 <= ci < Z.of_nat n.

(** An edge of length one along a grid line. *)
Definition unitEdge (e : Edge) : Prop :=
  (e_x2 e = e_x1 e + 1 /\ e_y2 e = e_y1 e) \/
  (e_x2 e = e_x1 e /\ e_y2 e = e_y1 e + 1).

(** ** Vocabulary of the quantizer *)

(** [j] indexes a centroid at minimal distance from [p], and every
    centroid before [j] is strictly farther. *)
Definition isNearest (p : RGB) (cs : list RGB) (j : nat) : Prop :=
  exists c, cs !! j = Some c /\
    forall i ci, cs !! i = Some ci ->
      colorDistance2 p c <= colorDistance2 p ci /\
      ((i < j)%nat -> colorDistance2 p c < colorDistance2 p ci).

(** The state of the search loop after the centroids [pre]. *)
Definition searchState (p : RGB) (pre : list RGB) (minDist : option Z)
    (clusterIdx : nat) : Prop :=
  match minDist with
  | None => pre = []
  | Some d =>
      exists c, pre !! clusterIdx = Some c /\ d = colorDistance2 p c /\
        forall i ci, pre !! i = Some ci ->
          d <= colorDistance2 p ci /\ ((i < clusterIdx)%nat -> d < colorDistance2 p ci)
  end.

(** The opaque pixels found at the offsets [offs] that a pass assigns to
    centroid [j], in buffer order. *)
Definition assignedIn (data : list Z) (cs : list RGB) (offs : list Z) (j : nat)
    : list RGB :=
  filter (fun p => nearest p cs = j)
         (pixelAt data <$> filter (fun i => transparentAt data i = false) offs).

Definition assigned (data : list Z) (cs : list RGB) (j : nat) : list RGB :=
  assignedIn data cs (pixelOffsets data) j.

Definition sumZ (l : list Z) : Z := foldr Z.add 0 l.

(** [s] with the channels of the pixels [l] added and [l] counted. *)
Definition addAll (s : Sum) (l : list RGB) : Sum :=
  mkSum (s_r s + sumZ (c_r <$> l)) (s_g s + sumZ (c_g <$> l))
        (s_b s + sumZ (c_b <$> l)) (s_count s + Z.of_nat (length l)).

(** The per-channel mean of [l], rounded to the nearest integer. *)
Definition meanColor (l : list RGB) : RGB :=
  mkRGB (roundDiv (sumZ (c_r <$> l)) (Z.of_nat (length l)))
        (roundDiv (sumZ (c_g <$> l)) (Z.of_nat (length l)))
        (roundDiv (sumZ (c_b <$> l)) (Z.of_nat (length l))).

(** ** Vocabulary of the random source *)

(** The first [k] results of [Math.random()] from the state [gen]. *)
Fixpoint draws {G : Type} (random : G -> Q * G) (k : nat) (gen : G) : list Q :=
  match k with
  | O => []
  | S k' => let '(u, gen') := random gen in u :: draws random k' gen'
  end.

(** [Math.random()] answers in the interval [0, 1). *)
Definition validDraws {G : Type} (random : G -> Q * G) : Prop :=
  forall gen, Qle 0 (fst (random gen)) /\ Qlt (fst (random gen)) 1.

(** The quantizer from its initial centroids on. *)
Definition quantizeFrom (data : list Z) (centroids : list RGB)
    : outcome (list PaletteColor) :=
  cs <-- refine iterations data centroids ;; Ok (toPalette cs).

(** The pipeline from the quantizer's result on. *)
Definition processFrom (minArea : Z) (imageUrl : string) (data : list Z)
    (width height : Z) (quantized : outcome (list PaletteColor))
    : outcome ProcessedArt :=
  palette <-- quantized ;;
  let pixelLabels := labelPixels data palette width height in
  sc <-- extractRegions width height pixelLabels minArea palette ;;
  Ok (mkProcessedArt width height
        (filter (fun p => 0 < pc_count p) (sc_palette sc))
        (snd <$> sc_regions sc)
        imageUrl).

(** ** Sample inputs *)

(** A 3 x 3 label map with two labels and one excluded pixel:
<<
     0  0  1
     0  1  1
    -1  0  0
>> *)
Definition sampleLabels : list Z := [0; 0; 1; 0; 1; 1; -1; 0; 0].

Definition samplePalette : list PaletteColor :=
  toPalette [mkRGB 0 0 0; mkRGB 255 255 255].

(** The state in which the scan of [sampleLabels] ends with threshold 3:
    the components {0, 1, 3} and {2, 5, 4} are pushed, {7, 8} is dropped. *)
Definition sampleScan : Scan :=
  Eval vm_compute in
    match extractRegions 3 3 sampleLabels 3 samplePalette with
    | Ok sc => sc
    | _ => mkScan [] [] []
    end.

(** A 3 x 2 block of pixels inside a 5 x 4 image, with corner (1, 1). *)
Definition sampleRectangle : list Z := [6; 7; 8; 11; 12; 13].

(** The 4 x 1 image red, red, blue, blue, all opaque. *)
Definition stripeImage : list Z :=
  [255; 0; 0; 255;  255; 0; 0; 255;  0; 0; 255; 255;  0; 0; 255; 255].

Definition red : RGB := mkRGB 255 0 0.
Definition blue : RGB := mkRGB 0 0 255.

(** A transparent pixel (10, 20, 30, 0) followed by an opaque one. *)
Definition mixedBuffer : list Z := [10; 20; 30; 0;  200; 200; 200; 255].

(** A 2 x 1 buffer whose two pixels are transparent (alpha 0 and 127). *)
Definition clearBuffer : list Z := [1; 2; 3; 0;  4; 5; 6; 127].

(** A generator that always answers 0. *)
Definition zeroGen (gen : unit) : Q * unit := (Qmake 0 1, gen).

(** A generator that steps through 0, 1/4, 2/4, 3/4, 0, ... *)
Definition cycleGen (gen : nat) : Q * nat :=
  (Qmake (Z.of_nat (gen mod 4)) 4, S gen).

(** A generator that answers 0, 1/4 and then 0 for ever. *)
Definition fadingGen (gen : nat) : Q * nat :=
  (Qmake (if (gen <? 2)%nat then Z.of_nat gen else 0) 4, S gen).

(** The artwork of [stripeImage] for three colours and threshold 1 when
    the centroids are seeded red, red, blue: the second centroid attracts
    no pixel and the palette keeps the ids 1 and 3. *)
Definition sparseArt : ProcessedArt :=
  Eval vm_compute in
    match processWith cycleGen 1 "img" stripeImage 4 1 3 0%nat with
    | Ok art => art
    | _ => mkProcessedArt 0 0 [] [] EmptyString
    end.

(** A 20 x 1 image: ten red pixels followed by ten blue ones, all opaque. *)
Definition longStripe : list Z :=
  mjoin (replicate 10 [255; 0; 0; 255]) ++ mjoin (replicate 10 [0; 0; 255; 255]).




(** ** More of the program *)

(** *** processor.ts: the canvas size (step 1 of [img.onload]) *)

Definition maxSize : Z := 600.

(** The [width] and [height] given to the canvas for an image of
    [width] x [height] pixels: the longer side is cut down to [maxSize]
    and the other side is scaled with [Math.round].  The quotient is a
    double below 600; for sides below 2^40 it is too close to the exact
    quotient to round differently. *)
Definition canvasSize (width height : Z) : Z * Z :=
  if height <? width then
    if maxSize <? width
    then (maxSize, roundDiv (height * maxSize) width)
    else (width, height)
  else
    if maxSize <? height
    then (roundDiv (width * maxSize) height, maxSize)
    else (width, height).

(** ** The editor: [App] (App.tsx) *)

(** The editor state kept by [App]: the artwork, the selected colour
    ([null] is [None]) and the object [filledRegions], keyed by region
    index. *)
Record Editor := mkEditor {
  ed_art : option ProcessedArt;
  ed_activeColorId : option Z;
  ed_filledRegions : gmap Z bool
}.

(** [filledRegions[idx]] used as a condition. *)
Definition isFilled (filledRegions : gmap Z bool) (idx : Z) : bool :=
  match filledRegions !! idx with
  | Some true => true
  | _ => false
  end.

(** [regions.map((r, idx) => r.colorId === id ? idx : -1)
            .filter(idx => idx !== -1)] *)
Definition colorRegionsIndices (regions : list Region) (id : Z) : list Z :=
  filter (fun idx => idx <> -1)
    (imap (fun idx r => if reg_colorId r =? id then Z.of_nat idx else -1) regions).

(** The body of [art.palette.forEach] in the effect. *)
Definition checkColor (art : ProcessedArt) (filledRegions : gmap Z bool)
    (newCompletedColors : list Z) (color : PaletteColor) : list Z :=
  let indices := colorRegionsIndices (art_regions art) (pc_id color) in
  let allFilled := forallb (isFilled filledRegions) indices in
  if allFilled && (0 <? Z.of_nat (length indices))
  then newCompletedColors ++ [pc_id color]
  else newCompletedColors.

(** The effect that recomputes [completedColors]; without an artwork it
    returns early and the state keeps its value. *)
Definition completedColorsEffect (art : option ProcessedArt)
    (filledRegions : gmap Z bool) (completedColors : list Z) : list Z :=
  match art with
  | None => completedColors
  | Some art => fold_left (checkColor art filledRegions) (art_palette art) []
  end.

(** [handleRegionClick]: nothing happens without an artwork or with no
    colour selected (0 is falsy, as [null] is); reading [colorId] of a
    region that does not exist throws. *)
Definition handleRegionClick (ed : Editor) (regionIndex : Z) : outcome Editor :=
  match ed_art ed, ed_activeColorId ed with
  | Some art, Some activeColorId =>
      if activeColorId =? 0 then Ok ed
      else
        match aget (art_regions art) regionIndex with
        | None => TypeError
        | Some region =>
            if reg_colorId region =? activeColorId
            then Ok (mkEditor (Some art) (Some activeColorId)
                       (<[regionIndex := true]> (ed_filledRegions ed)))
            else Ok (mkEditor (Some art) (Some (reg_colorId region))
                       (ed_filledRegions ed))
        end
  | _, _ => Ok ed
  end.

(** [onColorSelect={setActiveColorId}], called by a palette button. *)
Definition selectColor (ed : Editor) (id : Z) : Editor :=
  mkEditor (ed_art ed) (Some id) (ed_filledRegions ed).

(** What the user does in the editor. *)
Inductive Event :=
  | SelectColor (id : Z)
  | ClickRegion (regionIndex : Z).

Definition handle (ed : Editor) (ev : Event) : outcome Editor :=
  match ev with
  | SelectColor id => Ok (selectColor ed id)
  | ClickRegion regionIndex => handleRegionClick ed regionIndex
  end.

(** [Object.keys(filledRegions).length], the numerator of the progress. *)
Definition filledCount (ed : Editor) : nat := size (ed_filledRegions ed).

(** [art.palette.find(p => p.id === region.colorId)] in [DrawingCanvas]. *)
Definition paintColor (art : ProcessedArt) (region : Region) : option PaletteColor :=
  find (fun p => pc_id p =? reg_colorId region) (art_palette art).

(** ** The analysis request (gemini.ts) *)

(** [s.split(sep)] for a separator of one character. *)
Fixpoint split (sep : ascii) (s : string) : list string :=
  match s with
  | EmptyString => [EmptyString]
  | String c s' =>
      if Ascii.eqb c sep then EmptyString :: split sep s'
      else
        match split sep s' with
        | piece :: pieces => String c piece :: pieces
        | [] => [String c EmptyString]
        end
  end.

(** [base64Image.split(',')[1] || base64Image]: [undefined] and the empty
    string are falsy. *)
Definition cleanBase64 (base64Image : string) : string :=
  match split "," base64Image !! 1%nat with
  | Some (String c piece) => String c piece
  | _ => base64Image
  end.

(** ** More vocabulary *)

(** A value of a [Uint8ClampedArray]. *)
Definition isByte (v : Z) : Prop := 0 <= v < 256.

(** The two hexadecimal digits of a byte. *)
Definition hexByte (v : Z) (rest : string) : string :=
  String (hexDigit (v / 16)) (String (hexDigit (v mod 16)) rest).

(** The connected component of [p] has fewer than [minArea] pixels. *)
Definition smallComponent (width height : Z) (pixelLabels : list Z) (minArea p : Z)
    : Prop :=
  exists l, NoDup l /\
    (forall q, q ∈ l <-> connected width height pixelLabels p q) /\
    Z.of_nat (length l) < minArea.

(** Every marked pixel lies in a pushed region or in a component that is
    too small to be pushed. *)
Definition scanCover (width height : Z) (pixelLabels : list Z) (minArea : Z)
    (st : Scan) : Prop :=
  forall p, vis (sc_visited st) p ->
    p ∈ regionPixels (sc_regions st) \/
    smallComponent width height pixelLabels minArea p.

(** The pixels of the region all carry one label [ci]; the region has the
    id of the palette entry at [ci], and the path, label point and area of
    its own pixel list, which starts at the cell [(x, y)]. *)
Definition regionColoured (width height : Z) (pixelLabels : list Z)
    (palette0 : list PaletteColor) (e : list Z * Region) : Prop :=
  exists ci pc0 x y,
    aget palette0 ci = Some pc0 /\
    (forall p, p ∈ e.1 -> aget pixelLabels p = Some ci) /\
    head e.1 = Some (y * width + x) /\
    e.2 = mkRegion (traceRegionBoundary e.1 width height x y) (pc_id pc0)
                   (calculateLabelPoint e.1 width) (Z.of_nat (length e.1)).

(** The scan keeps the ids of the palette and pushes coloured regions. *)
Definition scanColours (width height : Z) (pixelLabels : list Z)
    (palette0 : list PaletteColor) (st : Scan) : Prop :=
  (forall i, pc_id <$> sc_palette st !! i = pc_id <$> palette0 !! i) /\
  Forall (regionColoured width height pixelLabels palette0) (sc_regions st).

(** The pixels of the grid that carry a label other than the sentinel. *)
Definition labelledPixels (width height : Z) (pixelLabels : list Z) : list Z :=
  filter (fun p => aget pixelLabels p <> Some (-1)) (seqZ 0 (width * height)).

(** The sum of the areas of the regions. *)
Definition totalArea (regions : list Region) : Z :=
  foldr (fun r a => reg_area r + a) 0 regions.

(** The cell [(x, y)] of the image is a pixel of the region. *)
Definition inRegion (pixels : list Z) (width height x y : Z) : Prop :=
  0 <= x < width /\ 0 <= y < height /\ y * width + x ∈ pixels.

(** [e] is the top, bottom, left or right side of the cell [(x, y)], and
    the cell across that side is not a pixel of the region. *)
Definition exposedSide (pixels : list Z) (width height x y : Z) (e : Edge) : Prop :=
  (e = mkEdge x y (x + 1) y /\ ~ inRegion pixels width height x (y - 1)) \/
  (e = mkEdge x (y + 1) (x + 1) (y + 1) /\ ~ inRegion pixels width height x (y + 1)) \/
  (e = mkEdge x y x (y + 1) /\ ~ inRegion pixels width height (x - 1) y) \/
  (e = mkEdge (x + 1) y (x + 1) (y + 1) /\ ~ inRegion pixels width height (x + 1) y).

(** The three channels of [c] are bytes. *)
Definition byteColor (c : RGB) : Prop :=
  isByte (c_r c) /\ isByte (c_g c) /\ isByte (c_b c).

(** A 5 x 2 buffer of ten opaque pixels of the colour (7, 8, 9). *)
Definition plainBuffer : list Z := mjoin (replicate 10 [7; 8; 9; 255]).

(** Some region has the colour [id], and every region of that colour is
    filled. *)
Definition colourDone (art : ProcessedArt) (filledRegions : gmap Z bool) (id : Z)
    : Prop :=
  (exists idx r, art_regions art !! idx = Some r /\ reg_colorId r = id) /\
  (forall idx r, art_regions art !! idx = Some r -> reg_colorId r = id ->
     filledRegions !! Z.of_nat idx = Some true).

(** The condition [allFilled && colorRegionsIndices.length > 0] for the
    colour [id]. *)
Definition colourTest (art : ProcessedArt) (filledRegions : gmap Z bool) (id : Z)
    : bool :=
  forallb (isFilled filledRegions) (colorRegionsIndices (art_regions art) id)
  && (0 <? Z.of_nat (length (colorRegionsIndices (art_regions art) id))).

(** The editor shows [art], and [filledRegions] maps indices of regions
    that were clicked in [evs] to [true]. *)
Definition editorInv (art : ProcessedArt) (evs : list Event) (ed : Editor) : Prop :=
  ed_art ed = Some art /\
  forall idx v, ed_filledRegions ed !! idx = Some v ->
    v = true /\ 0 <= idx < Z.of_nat (length (art_regions art)) /\
    ClickRegion idx ∈ evs.

(** The character [sep] occurs in [s]. *)
Fixpoint mentions (sep : ascii) (s : string) : bool :=
  match s with
  | EmptyString => false
  | String c s' => Ascii.eqb c sep || mentions sep s'
  end.

(** * Properties *)

(** ** Loops and arrays *)

Lemma obind_Ok {A B} (m : outcome A) (f : A -> outcome B) (b : B) :
  obind m f = Ok b -> exists a, m = Ok a /\ f a = Ok b.
Proof. destruct m; simpl; intros H; try discriminate. eauto. Qed.

Lemma foldM_app {S A} (f : S -> A -> outcome S) l1 l2 s :
  foldM f (l1 ++ l2) s = (s' <-- foldM f l1 s ;; foldM f l2 s').
Proof.
  revert s. induction l1 as [|a l1 IH]; intros s; simpl; [done|].
  destruct (f s a); simpl; auto.
Qed.

(** An invariant indexed by the loop counter holds when the loop ends. *)
Lemma foldM_seqZ_from {S} (f : S -> Z -> outcome S) (I : Z -> S -> Prop) m n s0 s :
  0 <= n ->
  I m s0 ->
  (forall i t t', m <= i < m + n -> I i t -> f t i = Ok t' -> I (i + 1) t') ->
  foldM f (seqZ m n) s0 = Ok s -> I (m + n) s.
Proof.
  intros Hn. revert m s0.
  pattern n. apply natlike_ind; [..|exact Hn].
  - intros m s0 H0 _. rewrite seqZ_nil by lia. simpl. intros [= <-].
    by rewrite Z.add_0_r.
  - clear n Hn. intros n Hn IH m s0 H0 Hstep.
    rewrite seqZ_cons by lia. simpl. intros Hf.
    apply obind_Ok in Hf as (s1 & H1 & Hf).
    replace (Z.pred (Z.succ n)) with n in Hf by lia.
    replace (m + Z.succ n) with (Z.succ m + n) by lia.
    apply (IH (Z.succ m) s1); [|intros i t t' ?; apply Hstep; lia|done].
    replace (Z.succ m) with (m + 1) by lia. apply (Hstep m s0); [lia|done..].
Qed.

Lemma foldM_seqZ_inv {S} (f : S -> Z -> outcome S) (I : Z -> S -> Prop) n s0 s :
  I 0 s0 ->
  (forall i t t', 0 <= i < n -> I i t -> f t i = Ok t' -> I (i + 1) t') ->
  foldM f (seqZ 0 n) s0 = Ok s -> I (Z.max 0 n) s.
Proof.
  intros H0 Hstep Hf. destruct (Z.le_gt_cases 0 n) as [Hn|Hn].
  - rewrite Z.max_r by lia. by apply (foldM_seqZ_from f I 0 n s0 s).
  - rewrite seqZ_nil in Hf by lia. simpl in Hf. injection Hf as <-.
    by rewrite Z.max_l by lia.
Qed.

(** A loop whose body never fails and preserves [I] returns. *)
Lemma foldM_total {S A} (f : S -> A -> outcome S) (I : S -> Prop) l s0 :
  I s0 ->
  (forall a t, a ∈ l -> I t -> exists t', f t a = Ok t' /\ I t') ->
  exists s, foldM f l s0 = Ok s /\ I s.
Proof.
  revert s0. induction l as [|a l IH]; intros s0 H0 Hstep; simpl; [eauto|].
  destruct (Hstep a s0) as (t' & -> & Ht'); [left|done|]. simpl.
  apply IH; [done|]. intros b t Hb. apply Hstep. by right.
Qed.

(** A loop whose body never exhausts its fuel does not either. *)
Lemma foldM_no_fuel {S A} (f : S -> A -> outcome S) (I : S -> Prop) l s0 :
  I s0 ->
  (forall a t, a ∈ l -> I t ->
     f t a <> OutOfFuel /\ forall t', f t a = Ok t' -> I t') ->
  foldM f l s0 <> OutOfFuel /\ forall s, foldM f l s0 = Ok s -> I s.
Proof.
  revert s0. induction l as [|a l IH]; intros s0 H0 Hstep; simpl.
  { split; [done|]. by intros s [= <-]. }
  destruct (Hstep a s0) as (Hnf & Hok); [left|done|].
  destruct (f s0 a) as [t| |] eqn:E; simpl; [|done|done].
  apply IH; [by apply Hok|]. intros b u Hb. apply Hstep. by right.
Qed.

Lemma foldM_inv {S A} (f : S -> A -> outcome S) (I : S -> Prop) l s0 s :
  I s0 ->
  (forall a t t', a ∈ l -> I t -> f t a = Ok t' -> I t') ->
  foldM f l s0 = Ok s -> I s.
Proof.
  revert s0. induction l as [|a l IH]; intros s0 H0 Hstep; simpl.
  { by intros [= <-]. }
  intros (t & Ht & Hf)%obind_Ok.
  apply (IH t); [by apply (Hstep a s0 t); [left|..]| |done].
  intros b u u' Hb. apply Hstep. by right.
Qed.

Lemma aget_Some_range {A} (a : list A) i x :
  aget a i = Some x -> 0 <= i < Z.of_nat (length a).
Proof.
  unfold aget. destruct (Z.ltb_spec i 0); [done|]. intros Hl%lookup_lt_Some. lia.
Qed.

Lemma aget_in_range {A} (a : list A) i :
  0 <= i < Z.of_nat (length a) -> is_Some (aget a i).
Proof.
  intros Hi. unfold aget. destruct (Z.ltb_spec i 0); [lia|].
  apply lookup_lt_is_Some. lia.
Qed.

Lemma length_aset {A} (a : list A) i v : length (aset a i v) = length a.
Proof. unfold aset. destruct (i <? 0); [done|]. apply length_insert. Qed.

Lemma aget_aset_eq {A} (a : list A) i v :
  0 <= i < Z.of_nat (length a) -> aget (aset a i v) i = Some v.
Proof.
  intros Hi. unfold aget, aset. destruct (Z.ltb_spec i 0); [lia|].
  apply list_lookup_insert_eq. lia.
Qed.

Lemma aget_aset_ne {A} (a : list A) i j v :
  i <> j -> aget (aset a i v) j = aget a j.
Proof.
  intros Hij. unfold aget, aset.
  destruct (Z.ltb_spec j 0); [done|]. destruct (Z.ltb_spec i 0); [done|].
  apply list_lookup_insert_ne. lia.
Qed.

Lemma vis_aset v n p :
  0 <= n < Z.of_nat (length v) -> vis (aset v n true) p <-> p = n \/ vis v p.
Proof.
  intros Hn. unfold vis. destruct (decide (p = n)) as [->|Hne].
  - rewrite aget_aset_eq by done. simpl. tauto.
  - rewrite aget_aset_ne by done. intuition.
Qed.

Lemma vis_range v p : vis v p -> 0 <= p < Z.of_nat (length v).
Proof.
  unfold vis. destruct (aget v p) eqn:E; [|done]. intros _.
  by apply aget_Some_range in E.
Qed.

Lemma vis_replicate n p : ~ vis (replicate n false) p.
Proof.
  unfold vis, aget. destruct (p <? 0); [done|].
  destruct (replicate n false !! Z.to_nat p) eqn:E; [|done].
  apply lookup_replicate in E as [-> _]. done.
Qed.

Lemma unvisited_aset v n :
  0 <= n < Z.of_nat (length v) -> ~ vis v n ->
  S (unvisited (aset v n true)) = unvisited v.
Proof.
  intros Hn Hv. unfold vis, aget, aset, unvisited in *.
  destruct (Z.ltb_spec n 0); [lia|].
  assert (Z.to_nat n < length v)%nat as Hlt by lia.
  revert Hv Hlt. generalize (Z.to_nat n) as k. clear.
  induction v as [|b v IH]; intros k Hv Hlt; [simpl in Hlt; lia|].
  destruct k as [|k].
  - destruct b; [by destruct Hv|].
    change (<[0%nat:=true]> (false :: v)) with (true :: v).
    rewrite filter_cons_False by done. rewrite filter_cons_True by done. done.
  - simpl in Hv, Hlt. change (<[S k:=true]> (b :: v)) with (b :: <[k:=true]> v).
    destruct b.
    + rewrite !filter_cons_False by done. apply IH; [done|lia].
    + rewrite !filter_cons_True by done. simpl. f_equal. apply IH; [done|lia].
Qed.

Lemma unvisited_le v : (unvisited v <= length v)%nat.
Proof. apply length_filter. Qed.

(** ** The flood fill *)

Lemma directions_cases d :
  d ∈ directions -> d = (1, 0) \/ d = (-1, 0) \/ d = (0, 1) \/ d = (0, -1).
Proof.
  unfold directions. intros H.
  repeat (apply elem_of_cons in H as [-> | H]; [tauto|]).
  by apply elem_of_nil in H.
Qed.

Section FloodFill.
Variables (width height : Z) (pixelLabels : list Z).

Local Abbreviation visit := (visitNeighbour width height pixelLabels).
Local Abbreviation nb := (neighbour width height).
Local Abbreviation grid := (inGrid width height).
Local Abbreviation closedAt := (closedAt width height pixelLabels).
Local Abbreviation fillSafe := (fillSafe width height pixelLabels).
Local Abbreviation fillInv := (fillInv width height pixelLabels).

(** [visitNeighbour] either leaves the state alone or pushes the
    neighbour, and pushes exactly a clear, equally labelled one. *)
Lemma visitNeighbour_neighbour colorIdx p st d :
  visit colorIdx (Z.rem p width) (p / width) st d =
  match nb p d with
  | Some n =>
      if negb (truthy (aget (f_visited st) n))
         && bool_decide (aget pixelLabels n = colorIdx)
      then push st n else st
  | None => st
  end.
Proof.
  unfold visitNeighbour, neighbour.
  destruct ((0 <=? Z.rem p width + d.1) && (Z.rem p width + d.1 <? width)
            && (0 <=? p / width + d.2) && (p / width + d.2 <? height)); done.
Qed.

Lemma neighbour_coords p d n :
  nb p d = Some n ->
  0 < width /\ grid n /\
  Z.rem n width = Z.rem p width + d.1 /\ n / width = p / width + d.2.
Proof.
  unfold neighbour, inGrid.
  set (nx := Z.rem p width + d.1). set (ny := p / width + d.2).
  destruct (Z.leb_spec 0 nx), (Z.ltb_spec nx width),
    (Z.leb_spec 0 ny), (Z.ltb_spec ny height); simpl; try done.
  intros [= <-].
  assert (0 < width) by lia.
  assert ((ny * width + nx) / width = ny) as Hq.
  { rewrite Z.add_comm, Z.div_add by lia. rewrite Z.div_small by lia. lia. }
  assert (Z.rem (ny * width + nx) width = nx) as Hr.
  { rewrite Z.rem_mod_nonneg by nia.
    rewrite Z.add_comm, Z.mod_add by lia. apply Z.mod_small. lia. }
  repeat split; [done|nia|nia|done|done].
Qed.

Lemma grid_coords p :
  0 < width -> grid p ->
  0 <= Z.rem p width < width /\ 0 <= p / width < height /\
  p = p / width * width + Z.rem p width.
Proof.
  unfold inGrid. intros Hw [Hp0 Hp].
  rewrite Z.rem_mod_nonneg by lia.
  pose proof (Z.mod_pos_bound p width Hw).
  pose proof (Z.div_mod p width ltac:(lia)).
  assert (0 <= p / width) by (apply Z.div_pos; lia).
  assert (p / width < height) by (apply Z.div_lt_upper_bound; nia).
  repeat split; lia.
Qed.

(** Stepping back along the opposite direction returns to [p]. *)
Lemma neighbour_sym p d n :
  grid p -> d ∈ directions -> nb p d = Some n ->
  exists d', d' ∈ directions /\ nb n d' = Some p.
Proof.
  intros Hp Hd Hn.
  destruct (neighbour_coords _ _ _ Hn) as (Hw & Hg & Hx & Hy).
  destruct (grid_coords p Hw Hp) as (Hpx & Hpy & Hpeq).
  exists (- d.1, - d.2). split.
  - destruct (directions_cases d Hd) as [-> | [-> | [-> | ->]]];
      unfold directions; simpl; repeat constructor.
  - unfold neighbour. rewrite Hx, Hy. simpl.
    replace (Z.rem p width + d.1 + - d.1) with (Z.rem p width) by lia.
    replace (p / width + d.2 + - d.2) with (p / width) by lia.
    destruct (Z.leb_spec 0 (Z.rem p width)), (Z.ltb_spec (Z.rem p width) width),
      (Z.leb_spec 0 (p / width)), (Z.ltb_spec (p / width) height); simpl; try lia.
    by rewrite <- Hpeq.
Qed.

Lemma adjacent_sym p q :
  grid p -> adjacent width height pixelLabels p q ->
  adjacent width height pixelLabels q p.
Proof.
  intros Hp (d & Hd & Hn & Hl).
  destruct (neighbour_sym p d q Hp Hd Hn) as (d' & Hd' & Hn').
  exists d'. auto.
Qed.

Lemma adjacent_grid p q : adjacent width height pixelLabels p q -> grid q.
Proof. intros (d & _ & Hn & _). by apply neighbour_coords in Hn as (_ & ? & _). Qed.

Lemma extends_refl st : extends st st.
Proof. repeat split; auto. Qed.

Lemma extends_trans st1 st2 st3 : extends st1 st2 -> extends st2 st3 -> extends st1 st3.
Proof.
  intros (V1 & Q1 & M1) (V2 & Q2 & M2). repeat split; [auto| |lia].
  by etrans.
Qed.

Section Fill.
Variables (v0 : list bool) (s : Z) (colorIdx : option Z).
Hypothesis v0_len : length v0 = Z.to_nat (width * height).

Lemma push_safe st c d n :
  fillSafe v0 s colorIdx st -> c ∈ f_queue st -> d ∈ directions ->
  nb c d = Some n -> ~ vis (f_visited st) n -> aget pixelLabels n = colorIdx ->
  fillSafe v0 s colorIdx (push st n) /\ extends st (push st n) /\
  vis (f_visited (push st n)) n.
Proof.
  intros [Hlen Hq [rest Hseed] Hnd Hvis Hnew] Hc Hd Hn Hnv Hl.
  destruct (neighbour_coords _ _ _ Hn) as (Hw & Hg & _).
  assert (0 <= n < Z.of_nat (length (f_visited st))) as Hr.
  { rewrite Hlen, v0_len. unfold inGrid in Hg. lia. }
  assert ((n ∉ f_pixels st) /\ ~ vis v0 n) as [Hnin Hnv0].
  { split; intros ?; apply Hnv, Hvis; auto. }
  split; [|split].
  - split; simpl.
    + by rewrite length_aset.
    + by rewrite Hq.
    + exists (rest ++ [n]). by rewrite Hseed.
    + apply NoDup_app. split; [done|]. split; [|apply NoDup_singleton].
      intros x Hx ->%list_elem_of_singleton. done.
    + intros p. rewrite vis_aset by done. rewrite Hvis.
      rewrite elem_of_app, list_elem_of_singleton. tauto.
    + intros p [Hp| ->%list_elem_of_singleton]%elem_of_app; [by apply Hnew|].
      rewrite Hq in Hc. destruct (Hnew c Hc) as (_ & _ & Hlc & Hconn).
      repeat split; [apply Hg..|done|done|].
      eapply rtc_r; [exact Hconn|]. exists d. rewrite Hlc. auto.
  - repeat split; simpl.
    + intros p Hp. apply vis_aset; auto.
    + by apply prefix_app_r.
    + rewrite length_app. simpl. pose proof (unvisited_aset _ _ Hr Hnv). lia.
  - simpl. apply vis_aset; auto.
Qed.

Lemma visit_safe st c d :
  fillSafe v0 s colorIdx st -> c ∈ f_queue st -> d ∈ directions ->
  let st' := visit colorIdx (Z.rem c width) (c / width) st d in
  fillSafe v0 s colorIdx st' /\ extends st st' /\
  (forall n, nb c d = Some n -> aget pixelLabels n = colorIdx ->
             vis (f_visited st') n).
Proof.
  intros Hs Hc Hd. rewrite visitNeighbour_neighbour.
  destruct (nb c d) as [n|] eqn:Hn; simpl.
  - destruct (truthy (aget (f_visited st) n)) eqn:Hv; simpl.
    { split; [done|]. split; [apply extends_refl|]. by intros ? [= <-] _. }
    case_bool_decide as Hl.
    + assert (~ vis (f_visited st) n) as Hnv by (unfold vis; congruence).
      destruct (push_safe st c d n Hs Hc Hd Hn Hnv Hl) as (? & ? & ?).
      split; [done|]. split; [done|]. by intros ? [= <-] _.
    + split; [done|]. split; [apply extends_refl|]. by intros ? [= <-] ?.
  - split; [done|]. split; [apply extends_refl|]. done.
Qed.

Lemma visit_all_safe ds st c :
  ds ⊆ directions ->
  fillSafe v0 s colorIdx st -> c ∈ f_queue st ->
  let st' := fold_left (visit colorIdx (Z.rem c width) (c / width)) ds st in
  fillSafe v0 s colorIdx st' /\ extends st st' /\
  (forall d n, d ∈ ds -> nb c d = Some n -> aget pixelLabels n = colorIdx ->
               vis (f_visited st') n).
Proof.
  revert st. induction ds as [|d ds IH]; intros st Hds Hs Hc; simpl.
  { split; [done|]. split; [apply extends_refl|]. intros ? ? ?%elem_of_nil. done. }
  assert (d ∈ directions) as Hd by (apply Hds; left).
  destruct (visit_safe st c d Hs Hc Hd) as (Hs1 & He1 & Hcl1).
  set (st1 := visit colorIdx (Z.rem c width) (c / width) st d) in *.
  assert (c ∈ f_queue st1) as Hc1.
  { destruct He1 as (_ & Hpre & _). eapply elem_of_prefix; eauto. }
  destruct (IH st1) as (Hs2 & He2 & Hcl2);
    [intros e He; apply Hds; by right|done|done|].
  split; [done|]. split; [by eapply extends_trans|].
  intros d' n [->|Hd']%elem_of_cons Hn Hl.
  - destruct He2 as (Hmono & _). apply Hmono. by apply Hcl1.
  - by eapply Hcl2.
Qed.

Lemma closedAt_mono v v' c :
  (forall p, vis v p -> vis v' p) -> closedAt colorIdx v c -> closedAt colorIdx v' c.
Proof. intros Hm Hc d n Hd Hn Hl. apply Hm. by eapply Hc. Qed.

(** One turn of the [while] loop. *)
Lemma bfs_step_inv head st c :
  fillInv v0 s colorIdx head st -> f_queue st !! head = Some c ->
  let st' := fold_left (visit colorIdx (Z.rem c width) (c / width)) directions st in
  fillInv v0 s colorIdx (S head) st' /\ extends st st'.
Proof.
  intros (Hs & Hh & Hcl) Hc.
  assert (c ∈ f_queue st) as Hin by (by eapply list_elem_of_lookup_2).
  destruct (visit_all_safe directions st c) as (Hs' & He & Hcl'); [done..|].
  cbv zeta. split; [|done]. split; [done|].
  destruct He as (Hmono & Hpre & _).
  apply lookup_lt_Some in Hc as Hlt.
  pose proof (prefix_length _ _ Hpre) as Hle.
  split; [lia|]. intros i c' Hi Hc'.
  destruct (decide (i = head)) as [->|Hne].
  - rewrite (prefix_lookup_Some _ _ _ _ Hc Hpre) in Hc'. injection Hc' as <-.
    intros d n Hd Hn Hl. by eapply Hcl'.
  - assert (i < head)%nat as Hi' by lia.
    destruct (lookup_lt_is_Some_2 (f_queue st) i) as [c0 Hc0]; [lia|].
    rewrite (prefix_lookup_Some _ _ _ _ Hc0 Hpre) in Hc'. injection Hc' as <-.
    eapply closedAt_mono; [exact Hmono|]. by eapply Hcl.
Qed.

Lemma bfs_unfold fuel head st :
  bfs width height pixelLabels fuel colorIdx head st =
  match f_queue st !! head with
  | None => Ok st
  | Some c =>
      match fuel with
      | O => OutOfFuel
      | S fuel' =>
          bfs width height pixelLabels fuel' colorIdx (S head)
            (fold_left (visit colorIdx (Z.rem c width) (c / width)) directions st)
      end
  end.
Proof. by destruct fuel. Qed.

(** When the fill returns, every queued pixel has been expanded. *)
Lemma bfs_inv fuel head st st' :
  fillInv v0 s colorIdx head st ->
  bfs width height pixelLabels fuel colorIdx head st = Ok st' ->
  fillInv v0 s colorIdx (length (f_queue st')) st'.
Proof.
  revert head st. induction fuel as [|fuel IH]; intros head st Hinv;
    rewrite bfs_unfold.
  - destruct (f_queue st !! head) eqn:E; [done|]. intros [= <-].
    apply lookup_ge_None in E. destruct Hinv as (? & ? & ?).
    by replace (length (f_queue st)) with head by lia.
  - destruct (f_queue st !! head) as [c|] eqn:E.
    + intros Hb. eapply IH; [|exact Hb]. by apply bfs_step_inv.
    + intros [= <-]. apply lookup_ge_None in E. destruct Hinv as (? & ? & ?).
      by replace (length (f_queue st)) with head by lia.
Qed.

(** The fill returns as soon as the fuel covers the queued pixels and
    the clear entries of the bitmap. *)
Lemma bfs_total fuel head st :
  fillInv v0 s colorIdx head st ->
  (length (f_queue st) - head + unvisited (f_visited st) <= fuel)%nat ->
  exists st', bfs width height pixelLabels fuel colorIdx head st = Ok st'.
Proof.
  revert head st. induction fuel as [|fuel IH]; intros head st Hinv Hm;
    rewrite bfs_unfold.
  - destruct (f_queue st !! head) eqn:E; [|eauto].
    apply lookup_lt_Some in E. lia.
  - destruct (f_queue st !! head) as [c|] eqn:E; [|eauto].
    destruct (bfs_step_inv head st c Hinv E) as (Hinv' & _ & Hpre & Hsum).
    apply prefix_length in Hpre.
    apply IH; [done|]. apply lookup_lt_Some in E. lia.
Qed.
End Fill.

(** ** The scan *)

Lemma seed_fillInv v idx :
  length v = Z.to_nat (width * height) -> grid idx -> ~ vis v idx ->
  fillInv v idx (aget pixelLabels idx) 0 (mkFill (aset v idx true) [idx] [idx]).
Proof.
  intros Hlen Hg Hv.
  assert (0 <= idx < Z.of_nat (length v)) as Hr by (unfold inGrid in Hg; lia).
  split; [|split; [simpl; lia|intros i c Hi; lia]].
  split; simpl.
  - apply length_aset.
  - done.
  - by exists [].
  - apply NoDup_singleton.
  - intros p. rewrite vis_aset by done. rewrite list_elem_of_singleton. tauto.
  - intros p ->%list_elem_of_singleton. repeat split; try done; apply Hg.
Qed.

(** The fill of a clear in-grid seed returns within the scan's fuel. *)
Lemma bfs_fuel_enough v idx :
  length v = Z.to_nat (width * height) -> grid idx -> ~ vis v idx ->
  exists fl, bfs width height pixelLabels (Z.to_nat (width * height))
                 (aget pixelLabels idx) 0 (mkFill (aset v idx true) [idx] [idx])
             = Ok fl.
Proof.
  intros Hlen Hg Hv. eapply bfs_total; [done|by apply seed_fillInv|]. simpl.
  assert (0 <= idx < Z.of_nat (length v)) as Hr by (unfold inGrid in Hg; lia).
  pose proof (unvisited_aset v idx Hr Hv). pose proof (unvisited_le v). lia.
Qed.

Lemma seed_fill_result v idx fl :
  length v = Z.to_nat (width * height) -> grid idx -> ~ vis v idx ->
  bfs width height pixelLabels (Z.to_nat (width * height))
      (aget pixelLabels idx) 0 (mkFill (aset v idx true) [idx] [idx]) = Ok fl ->
  fillInv v idx (aget pixelLabels idx) (length (f_queue fl)) fl.
Proof. intros Hlen Hg Hv Hb. eapply bfs_inv; [done| |exact Hb]. by apply seed_fillInv. Qed.

Lemma connected_label p q :
  connected width height pixelLabels p q -> aget pixelLabels q = aget pixelLabels p.
Proof.
  induction 1 as [|x y z (d & _ & _ & Hl) _ IH]; [done|]. by rewrite IH.
Qed.

Lemma connected_grid p q :
  grid p -> connected width height pixelLabels p q -> grid q.
Proof.
  intros Hp. induction 1 as [|x y z Hxy _ IH]; [done|].
  apply IH. by eapply adjacent_grid.
Qed.

(** On a bitmap closed under adjacency, a finished fill has collected
    exactly the connected component of its seed. *)
Lemma fill_component v idx colorIdx fl :
  (forall p q, vis v p -> adjacent width height pixelLabels p q -> vis v q) ->
  fillInv v idx colorIdx (length (f_queue fl)) fl ->
  forall p, p ∈ f_pixels fl <-> connected width height pixelLabels idx p.
Proof.
  intros Hcl ([Hlen Hq [rest Hseed] Hnd Hvis Hnew] & _ & Hexp) p. split.
  { intros Hp. by apply Hnew. }
  revert p. apply (rtc_ind_r (fun p => p ∈ f_pixels fl)).
  { rewrite Hseed. left. }
  intros y z _ Hyz IH.
  destruct (Hnew y IH) as (Hgy & Hvy & Hly & _).
  destruct Hyz as (d & Hd & Hn & Hl).
  assert (vis (f_visited fl) z) as Hz.
  { rewrite <- Hq in IH. apply list_elem_of_lookup in IH as [i Hi].
    pose proof (Hexp i y ltac:(by eapply lookup_lt_Some) Hi) as Hy.
    apply (Hy d z); [done|done|congruence]. }
  apply Hvis in Hz as [Hz|Hz]; [|done].
  destruct Hvy. apply (Hcl z y); [done|].
  apply adjacent_sym; [done|]. exists d. auto.
Qed.

Lemma fill_closed v idx colorIdx fl :
  (forall p q, vis v p -> adjacent width height pixelLabels p q -> vis v q) ->
  fillInv v idx colorIdx (length (f_queue fl)) fl ->
  forall p q, vis (f_visited fl) p -> adjacent width height pixelLabels p q ->
              vis (f_visited fl) q.
Proof.
  intros Hcl ([Hlen Hq [rest Hseed] Hnd Hvis Hnew] & _ & Hexp) p q Hp Hpq.
  apply Hvis in Hp as [Hp|Hp].
  - apply Hvis. left. by eapply Hcl.
  - destruct (Hnew p Hp) as (_ & _ & Hlp & _).
    destruct Hpq as (d & Hd & Hn & Hl).
    rewrite <- Hq in Hp. apply list_elem_of_lookup in Hp as [i Hi].
    pose proof (Hexp i p ltac:(by eapply lookup_lt_Some) Hi) as Hy.
    apply (Hy d q); [done|done|congruence].
Qed.

(** The three ways through the body of the scan: the cell is skipped, its
    component is dropped, or its component is pushed. *)
Lemma scanPixel_cases minArea y st x st' :
  scanPixel width height pixelLabels minArea y st x = Ok st' ->
  let idx := y * width + x in
  (st' = st /\ (vis (sc_visited st) idx \/ aget pixelLabels idx = Some (-1)))
  \/ exists fl,
      ~ vis (sc_visited st) idx /\ aget pixelLabels idx <> Some (-1) /\
      bfs width height pixelLabels (Z.to_nat (width * height))
          (aget pixelLabels idx) 0
          (mkFill (aset (sc_visited st) idx true) [idx] [idx]) = Ok fl /\
      ((Z.of_nat (length (f_pixels fl)) < minArea /\
        st' = mkScan (f_visited fl) (sc_regions st) (sc_palette st))
       \/ (minArea <= Z.of_nat (length (f_pixels fl)) /\
           exists ci pc,
             aget pixelLabels idx = Some ci /\ aget (sc_palette st) ci = Some pc /\
             st' = mkScan (f_visited fl)
                     (sc_regions st ++ [regionOf width height x y (f_pixels fl) pc])
                     (aset (sc_palette st) ci (bumpCount pc)))).
Proof.
  intros H. cbv zeta. unfold scanPixel in H. set (idx := y * width + x) in *.
  destruct (truthy (aget (sc_visited st) idx)) eqn:Hv; simpl in H.
  { injection H as <-. left. split; [done|]. by left. }
  case_bool_decide as Hl; simpl in H.
  { injection H as <-. left. split; [done|]. by right. }
  right. apply obind_Ok in H as (fl & Hb & H). exists fl.
  split; [unfold vis; congruence|]. split; [done|]. split; [done|].
  destruct (Z.ltb_spec (Z.of_nat (length (f_pixels fl))) minArea) as [Hlt|Hge].
  { injection H as <-. left. done. }
  right. split; [done|].
  destruct (aget pixelLabels idx) as [ci|]; simpl in H; [|done].
  destruct (aget (sc_palette st) ci) as [pc|] eqn:Hpc; [|done].
  injection H as <-. by exists ci, pc.
Qed.

Lemma regionPixels_snoc rs e : regionPixels (rs ++ [e]) = regionPixels rs ++ e.1.
Proof.
  unfold regionPixels. rewrite fmap_app, join_app. simpl. by rewrite app_nil_r.
Qed.

Lemma cell_grid x y :
  0 <= x < width -> 0 <= y < height -> grid (y * width + x).
Proof. unfold inGrid. nia. Qed.

(** Passing one cell keeps the scan invariant. *)
Lemma scanInv_step minArea x y st st' :
  0 <= x < width -> 0 <= y < height ->
  scanInv width height pixelLabels minArea (y * width + x) st ->
  scanPixel width height pixelLabels minArea y st x = Ok st' ->
  scanInv width height pixelLabels minArea (y * width + x + 1) st'.
Proof.
  intros Hx Hy Hinv Hstep.
  pose proof (cell_grid x y Hx Hy) as Hg.
  apply scanPixel_cases in Hstep. cbv zeta in Hstep.
  set (idx := y * width + x) in *.
  destruct Hinv as [Hlen Hcl Hdone Hns Hregs Hnd Hrv Hseeds Hsort].
  destruct Hstep as [[-> Hskip]|(fl & Hv & Hl & Hb & Hcase)].
  { split; try done.
    - intros p Hp. destruct (decide (p = idx)) as [->|]; [done|]. apply Hdone. lia.
    - intros e s He Hs. specialize (Hseeds e s He Hs). lia. }
  pose proof (seed_fill_result _ _ _ Hlen Hg Hv Hb) as Hfi.
  pose proof (fill_component _ _ _ _ Hcl Hfi) as Hcomp.
  pose proof (fill_closed _ _ _ _ Hcl Hfi) as Hcl'.
  destruct Hfi as ([Hlen' Hq [rest Hseed] Hnd' Hvis Hnew] & _ & _).
  assert (forall p, vis (sc_visited st) p -> vis (f_visited fl) p) as Hmono.
  { intros p Hp. apply Hvis. by left. }
  assert (forall p, 0 <= p < idx + 1 ->
            vis (f_visited fl) p \/ aget pixelLabels p = Some (-1)) as Hdone'.
  { intros p Hp. destruct (decide (p = idx)) as [->|].
    - left. apply Hvis. right. rewrite Hseed. left.
    - destruct (Hdone p) as [?|?]; [lia|left; by apply Hmono|by right]. }
  assert (forall p, vis (f_visited fl) p -> aget pixelLabels p <> Some (-1)) as Hns'.
  { intros p [Hp|Hp]%Hvis; [by apply Hns|].
    destruct (Hnew p Hp) as (_ & _ & -> & _). done. }
  destruct Hcase as [[Hsmall ->]|(Hbig & ci & pc & Hci & Hpc & ->)].
  { split; simpl; try done.
    - congruence.
    - intros p Hp. by apply Hmono, Hrv.
    - intros e s He Hs. specialize (Hseeds e s He Hs). lia. }
  split; simpl.
  - congruence.
  - done.
  - done.
  - done.
  - apply Forall_app. split; [done|]. apply Forall_singleton.
    exists idx. simpl. split_and!; try done; [by rewrite Hseed|].
    intros p Hp. destruct (Hnew p Hp) as (Hgp & Hvp & Hlp & _).
    destruct (Z.le_gt_cases idx p) as [?|Hlt]; [done|].
    destruct (Hdone p) as [?|Hs]; [unfold inGrid in Hgp; lia|done|congruence].
  - rewrite regionPixels_snoc. simpl. apply NoDup_app. repeat split; [done| |done].
    intros p Hp Hp'. apply Hrv in Hp. by destruct (Hnew p Hp') as (_ & ? & _).
  - intros p. rewrite regionPixels_snoc, elem_of_app. simpl.
    intros [Hp|Hp]; [by apply Hmono, Hrv|]. apply Hvis. by right.
  - intros e s [He| ->%list_elem_of_singleton]%elem_of_app Hs.
    + specialize (Hseeds e s He Hs). lia.
    + simpl in Hs. rewrite Hseed in Hs. injection Hs as <-. lia.
  - intros i j ei ej si sj Hij Hi Hj Hsi Hsj.
    apply lookup_lt_Some in Hj as Hjlt. rewrite length_app in Hjlt. simpl in Hjlt.
    rewrite lookup_app_l in Hi by lia.
    destruct (decide (j < length (sc_regions st))%nat) as [Hjl|Hjl].
    + rewrite lookup_app_l in Hj by lia.
      exact (Hsort i j ei ej si sj Hij Hi Hj Hsi Hsj).
    + rewrite lookup_app_r in Hj by lia.
      replace (j - length (sc_regions st))%nat with 0%nat in Hj by lia.
      injection Hj as <-. simpl in Hsj. rewrite Hseed in Hsj. injection Hsj as <-.
      eapply Hseeds; [|exact Hsi]. by eapply list_elem_of_lookup_2.
Qed.

Lemma scanInv_init minArea palette :
  scanInv width height pixelLabels minArea 0
    (mkScan (replicate (Z.to_nat (width * height)) false) [] palette).
Proof.
  split; simpl.
  - apply length_replicate.
  - intros p q Hp. by apply vis_replicate in Hp.
  - intros p Hp. lia.
  - intros p Hp. by apply vis_replicate in Hp.
  - apply Forall_nil_2.
  - apply NoDup_nil_2.
  - intros p Hp. by apply elem_of_nil in Hp.
  - intros e s He. by apply elem_of_nil in He.
  - intros i j ei ej si sj _ Hi. done.
Qed.

Lemma scanRow_inv minArea y st st' :
  0 <= y < height ->
  scanInv width height pixelLabels minArea (y * Z.max 0 width) st ->
  scanRow width height pixelLabels minArea st y = Ok st' ->
  scanInv width height pixelLabels minArea ((y + 1) * Z.max 0 width) st'.
Proof.
  intros Hy Hinv Hrow. unfold scanRow in Hrow.
  replace ((y + 1) * Z.max 0 width) with (y * Z.max 0 width + Z.max 0 width) by lia.
  apply (foldM_seqZ_inv (scanPixel width height pixelLabels minArea y)
           (fun x t => scanInv width height pixelLabels minArea
                         (y * Z.max 0 width + x) t) width st st');
    [by rewrite Z.add_0_r| |done].
  intros x t t' Hx Ht Hstep. rewrite Z.max_r in * by lia.
  rewrite Z.add_assoc. by eapply scanInv_step.
Qed.

(** The invariant at the end of the scan. *)
Lemma extractRegions_inv minArea palette sc :
  extractRegions width height pixelLabels minArea palette = Ok sc ->
  scanInv width height pixelLabels minArea (Z.max 0 height * Z.max 0 width) sc.
Proof.
  intros Hex. unfold extractRegions in Hex.
  refine (foldM_seqZ_inv (scanRow width height pixelLabels minArea)
            (fun y t => scanInv width height pixelLabels minArea
                          (y * Z.max 0 width) t) height _ sc _ _ Hex);
    [apply scanInv_init|].
  intros y t t' Hy Ht Hrow. by eapply scanRow_inv.
Qed.

Lemma scanPixel_fuel minArea x y st :
  0 <= x < width -> 0 <= y < height ->
  length (sc_visited st) = Z.to_nat (width * height) ->
  scanPixel width height pixelLabels minArea y st x <> OutOfFuel /\
  forall st', scanPixel width height pixelLabels minArea y st x = Ok st' ->
              length (sc_visited st') = Z.to_nat (width * height).
Proof.
  intros Hx Hy Hlen. pose proof (cell_grid x y Hx Hy) as Hg. split.
  - unfold scanPixel.
    destruct (truthy (aget (sc_visited st) (y * width + x))) eqn:Hv; [done|].
    simpl. case_bool_decide; [done|].
    destruct (bfs_fuel_enough (sc_visited st) (y * width + x)) as [fl ->];
      [done|done|unfold vis; congruence|].
    simpl. destruct (_ <? _); [done|].
    destruct (aget pixelLabels _ ≫= _); [|done]. by destruct (aget pixelLabels _).
  - intros st' Hstep. apply scanPixel_cases in Hstep.
    destruct Hstep as [[-> _]|(fl & Hv & _ & Hb & Hcase)]; [done|].
    destruct (seed_fill_result _ _ _ Hlen Hg Hv Hb) as ([Hl' _ _ _ _ _] & _).
    destruct Hcase as [[_ ->]|(_ & ci & pc & _ & _ & ->)]; simpl; congruence.
Qed.

(** The scan never stops for lack of fuel. *)
Lemma extractRegions_fuel minArea palette :
  extractRegions width height pixelLabels minArea palette <> OutOfFuel.
Proof.
  unfold extractRegions.
  apply (foldM_no_fuel _ (fun t => length (sc_visited t) = Z.to_nat (width * height)));
    [apply length_replicate|].
  intros y t Hy%elem_of_seqZ Ht. unfold scanRow.
  apply (foldM_no_fuel _ (fun t => length (sc_visited t) = Z.to_nat (width * height)));
    [done|].
  intros x u Hx%elem_of_seqZ Hu. apply scanPixel_fuel; [lia|lia|done].
Qed.

(** Whatever every cell of the scan preserves holds at its end. *)
Lemma extractRegions_ind (I : Scan -> Prop) minArea palette sc :
  I (mkScan (replicate (Z.to_nat (width * height)) false) [] palette) ->
  (forall x y st st', 0 <= x < width -> 0 <= y < height -> I st ->
     scanPixel width height pixelLabels minArea y st x = Ok st' -> I st') ->
  extractRegions width height pixelLabels minArea palette = Ok sc -> I sc.
Proof.
  intros H0 Hstep. unfold extractRegions. apply foldM_inv; [done|].
  intros y t t' Hy%elem_of_seqZ Ht. unfold scanRow. apply foldM_inv; [done|].
  intros x u u' Hx%elem_of_seqZ Hu. apply Hstep; [lia|lia|done].
Qed.

Lemma usageCount_snoc id rs r :
  usageCount id (rs ++ [r]) =
  usageCount id rs + (if decide (reg_colorId r = id) then 1 else 0).
Proof.
  unfold usageCount. rewrite filter_app, length_app.
  destruct (decide (reg_colorId r = id)) as [E|E].
  - rewrite filter_cons_True by done. simpl. lia.
  - rewrite filter_cons_False by done. simpl. lia.
Qed.

Lemma paletteInv_step palette0 minArea x y st st' :
  uniqueIds palette0 -> paletteInv palette0 st ->
  scanPixel width height pixelLabels minArea y st x = Ok st' ->
  paletteInv palette0 st'.
Proof.
  intros Huniq (Hlen & Hent & Hreg) Hstep. apply scanPixel_cases in Hstep.
  destruct Hstep as [[-> _]|(fl & _ & _ & _ & Hcase)]; [done|].
  destruct Hcase as [[_ ->]|(_ & ci & pc & _ & Hpc & ->)]; [done|].
  pose proof (aget_Some_range _ _ _ Hpc) as Hr.
  assert (sc_palette st !! Z.to_nat ci = Some pc) as Hpc'.
  { unfold aget in Hpc. by destruct (Z.ltb_spec ci 0); [lia|]. }
  destruct (lookup_lt_is_Some_2 palette0 (Z.to_nat ci)) as [q0 Hq0]; [lia|].
  pose proof (Hent _ _ Hq0) as Hq. rewrite Hpc' in Hq. injection Hq as ->.
  split; [|split]; simpl.
  - by rewrite length_aset.
  - intros i p0 Hp0. rewrite fmap_app. simpl. rewrite usageCount_snoc. simpl.
    unfold aset. destruct (Z.ltb_spec ci 0); [lia|].
    destruct (decide (i = Z.to_nat ci)) as [->|Hne].
    + rewrite list_lookup_insert_eq by lia.
      rewrite Hq0 in Hp0. injection Hp0 as <-.
      rewrite decide_True by done. unfold bumpCount. simpl. f_equal. f_equal. lia.
    + rewrite list_lookup_insert_ne by done. rewrite (Hent _ _ Hp0).
      rewrite decide_False; [by rewrite Z.add_0_r|].
      intros E. apply Hne. symmetry. by eapply Huniq.
  - intros e [He| ->%list_elem_of_singleton]%elem_of_app; [by apply Hreg|].
    exists (Z.to_nat ci), q0. done.
Qed.

(** The palette at the end of the scan, entry by entry. *)
Lemma extractRegions_palette minArea palette sc :
  uniqueIds palette ->
  extractRegions width height pixelLabels minArea palette = Ok sc ->
  paletteInv palette sc.
Proof.
  intros Huniq. apply extractRegions_ind.
  - split; [done|]. split; simpl.
    + intros i p0 Hp0. rewrite Hp0. destruct p0. simpl. f_equal. f_equal.
      unfold usageCount. simpl. lia.
    + intros e He. by apply elem_of_nil in He.
  - intros x y st st' _ _. by apply paletteInv_step.
Qed.

Lemma scanPixel_total minArea n x y st :
  validLabels width height pixelLabels n ->
  0 <= x < width -> 0 <= y < height ->
  length (sc_visited st) = Z.to_nat (width * height) /\ length (sc_palette st) = n ->
  exists st', scanPixel width height pixelLabels minArea y st x = Ok st' /\
    (length (sc_visited st') = Z.to_nat (width * height) /\
     length (sc_palette st') = n).
Proof.
  intros Hval Hx Hy [Hlen Hpal]. pose proof (cell_grid x y Hx Hy) as Hg.
  destruct (scanPixel_fuel minArea x y st Hx Hy Hlen) as [_ Hlen'].
  assert (forall st', scanPixel width height pixelLabels minArea y st x = Ok st' ->
            length (sc_palette st') = n) as Hpal'.
  { intros st' Hs. apply scanPixel_cases in Hs.
    destruct Hs as [[-> _]|(fl & _ & _ & _ & [[_ ->]|(_ & ci & pc & _ & _ & ->)])];
      simpl; try done. by rewrite length_aset. }
  cut (exists st', scanPixel width height pixelLabels minArea y st x = Ok st').
  { intros [st' Hs]. exists st'. auto. }
  unfold scanPixel.
  destruct (truthy (aget (sc_visited st) (y * width + x))) eqn:Hv; [by eexists|].
  simpl. case_bool_decide as Hl; [by eexists|].
  destruct (bfs_fuel_enough (sc_visited st) (y * width + x)) as [fl ->];
    [done|done|unfold vis; congruence|].
  simpl. destruct (_ <? _); [by eexists|].
  destruct (Hval _ Hg) as [?|(ci & Hci & Hr)]; [done|]. rewrite Hci. simpl.
  destruct (aget_in_range (sc_palette st) ci) as [pc ->]; [lia|]. by eexists.
Qed.

(** With labels that index the palette, the scan returns. *)
Lemma extractRegions_total minArea palette :
  validLabels width height pixelLabels (length palette) ->
  exists sc, extractRegions width height pixelLabels minArea palette = Ok sc.
Proof.
  intros Hval. unfold extractRegions.
  destruct (foldM_total (scanRow width height pixelLabels minArea)
              (fun t => length (sc_visited t) = Z.to_nat (width * height) /\
                        length (sc_palette t) = length palette)
              (seqZ 0 height)
              (mkScan (replicate (Z.to_nat (width * height)) false) [] palette))
    as (sc & Hsc & _); [split; [apply length_replicate|done]| |by exists sc].
  intros y t Hy%elem_of_seqZ Ht. unfold scanRow. apply foldM_total; [done|].
  intros x u Hx%elem_of_seqZ Hu. apply scanPixel_total; [done|lia|lia|done].
Qed.
End FloodFill.

(** ** Region extraction: partition, areas and order *)

Lemma join_disjoint (ls : list (list Z)) i j a b p :
  NoDup (mjoin ls) -> i <> j -> ls !! i = Some a -> ls !! j = Some b ->
  p ∈ a -> p ∉ b.
Proof.
  revert i j. induction ls as [|l ls IH]; intros i j Hnd Hij Hi Hj Ha Hb; [done|].
  simpl in Hnd. apply NoDup_app in Hnd as (_ & Hdis & Hnd).
  destruct i as [|i], j as [|j]; simpl in *; [done| | |].
  - injection Hi as ->. apply (Hdis p Ha). apply list_elem_of_join.
    exists b. split; [done|]. by eapply list_elem_of_lookup_2.
  - injection Hj as ->. apply (Hdis p Hb). apply list_elem_of_join.
    exists a. split; [done|]. by eapply list_elem_of_lookup_2.
  - apply (IH i j); [done|congruence|done..].
Qed.

Lemma connected_sym width height pixelLabels p q :
  inGrid width height p ->
  connected width height pixelLabels p q -> connected width height pixelLabels q p.
Proof.
  intros Hp. revert q. apply rtc_ind_r; [apply rtc_refl|].
  intros y z Hpy Hyz IH. eapply rtc_l; [|exact IH].
  apply adjacent_sym; [|done]. by eapply connected_grid.
Qed.

Lemma uniqueIds_toPalette cs : uniqueIds (toPalette cs).
Proof.
  intros i j p q Hi Hj. unfold toPalette in *.
  rewrite list_lookup_imap in Hi, Hj.
  destruct (cs !! i); [|done]. destruct (cs !! j); [|done].
  simpl in *. injection Hi as <-. injection Hj as <-. simpl. lia.
Qed.

(** C1.  Whatever the label map, two distinct regions pushed by the scan
    share no pixel index, and no pixel of a pushed region carries the
    sentinel label -1. *)
Theorem extracted_regions_partition :
  forall width height pixelLabels minArea palette sc,
    extractRegions width height pixelLabels minArea palette = Ok sc ->
    (forall i j ei ej p, i <> j ->
       sc_regions sc !! i = Some ei -> sc_regions sc !! j = Some ej ->
       p ∈ ei.1 -> p ∉ ej.1) /\
    (forall e p, e ∈ sc_regions sc -> p ∈ e.1 -> aget pixelLabels p <> Some (-1)).
Proof.
  intros width height pixelLabels minArea palette sc Hex.
  destruct (extractRegions_inv _ _ _ _ _ _ Hex) as [_ _ _ _ Hregs Hnd _ _ _].
  split.
  - intros i j ei ej p Hij Hi Hj. unfold regionPixels in Hnd.
    apply (join_disjoint (fst <$> sc_regions sc) i j); [done|done|..].
    + by rewrite list_lookup_fmap, Hi.
    + by rewrite list_lookup_fmap, Hj.
  - intros e p He Hp. rewrite Forall_forall in Hregs.
    destruct (Hregs e He) as (s & _ & _ & Hs & _ & Hcomp & _).
    apply Hcomp in Hp. by rewrite (connected_label _ _ _ _ _ Hp).
Qed.

Lemma extracted_regions_partition_witness :
  extractRegions 3 3 sampleLabels 3 samplePalette = Ok sampleScan /\
  (forall i j ei ej p, i <> j ->
     sc_regions sampleScan !! i = Some ei -> sc_regions sampleScan !! j = Some ej ->
     p ∈ ei.1 -> p ∉ ej.1) /\
  (forall e p, e ∈ sc_regions sampleScan -> p ∈ e.1 ->
     aget sampleLabels p <> Some (-1)).
Proof.
  split; [vm_compute; reflexivity|].
  apply (extracted_regions_partition 3 3 sampleLabels 3 samplePalette).
  vm_compute; reflexivity.
Defined.


(** C4.  Every pushed region records as [area] the length of the pixel
    list its flood fill collected; that list has no repetition and is
    exactly the connected component of the seed, and the area reaches the
    threshold.  A pixel whose component has fewer pixels than the
    threshold lies in no region.  Each palette count ends as its start
    value plus the number of pushed regions carrying that entry's id, and
    a step of the scan changes the region list and the palette only by
    pushing one region of at least the threshold's size while raising one
    count by one: a dropped component raises no count. *)
Theorem region_area_threshold :
  forall width height pixelLabels minArea palette sc,
    extractRegions width height pixelLabels minArea palette = Ok sc ->
    uniqueIds palette ->
    (forall e, e ∈ sc_regions sc ->
       exists s, head e.1 = Some s /\ NoDup e.1 /\
         (forall p, p ∈ e.1 <-> connected width height pixelLabels s p) /\
         reg_area e.2 = Z.of_nat (length e.1) /\ minArea <= reg_area e.2) /\
    (forall p component, NoDup component ->
       (forall q, q ∈ component <-> connected width height pixelLabels p q) ->
       Z.of_nat (length component) < minArea ->
       forall e, e ∈ sc_regions sc -> p ∉ e.1) /\
    (forall i p0, palette !! i = Some p0 ->
       sc_palette sc !! i =
       Some (mkPaletteColor (pc_rgb p0) (pc_id p0) (pc_hex p0)
               (pc_count p0 + usageCount (pc_id p0) (snd <$> sc_regions sc)))) /\
    (forall st x y st',
       scanPixel width height pixelLabels minArea y st x = Ok st' ->
       (sc_regions st' = sc_regions st /\ sc_palette st' = sc_palette st) \/
       exists px r ci pc,
         minArea <= Z.of_nat (length px) /\ reg_area r = Z.of_nat (length px) /\
         sc_regions st' = sc_regions st ++ [(px, r)] /\
         aget (sc_palette st) ci = Some pc /\ reg_colorId r = pc_id pc /\
         sc_palette st' = aset (sc_palette st) ci (bumpCount pc)).
Proof.
  intros width height pixelLabels minArea palette sc Hex Huniq.
  destruct (extractRegions_inv _ _ _ _ _ _ Hex) as [_ _ _ _ Hregs _ _ _ _].
  rewrite Forall_forall in Hregs. split_and!.
  - intros e He. destruct (Hregs e He) as (s & Hs & _ & _ & Hnd & Hcomp & Ha & Hm & _).
    by exists s.
  - intros p component Hnd Hcomp Hsmall e He Hp.
    destruct (Hregs e He) as (s & Hs & Hg & _ & Hnd' & Hcomp' & Ha & Hm & _).
    assert (connected width height pixelLabels s p) as Hsp by by apply Hcomp'.
    assert (connected width height pixelLabels p s) as Hps by by apply connected_sym.
    assert (component ≡ₚ e.1) as Hperm.
    { apply NoDup_Permutation; [done|done|]. intros q.
      rewrite Hcomp, Hcomp'. split; intros Hq; by etrans. }
    apply Permutation_length in Hperm. lia.
  - by destruct (extractRegions_palette _ _ _ _ _ _ Huniq Hex) as (_ & Hent & _).
  - intros st x y st' Hstep. apply scanPixel_cases in Hstep.
    destruct Hstep as [[-> _]|(fl & _ & _ & _ & Hcase)]; [by left|].
    destruct Hcase as [[_ ->]|(Hbig & ci & pc & _ & Hpc & ->)]; [by left|].
    right. exists (f_pixels fl), (regionOf width height x y (f_pixels fl) pc).2, ci, pc.
    by simpl.
Qed.

Lemma region_area_threshold_witness :
  extractRegions 3 3 sampleLabels 3 samplePalette = Ok sampleScan /\
  uniqueIds samplePalette /\
  (forall e, e ∈ sc_regions sampleScan ->
     exists s, head e.1 = Some s /\ NoDup e.1 /\
       (forall p, p ∈ e.1 <-> connected 3 3 sampleLabels s p) /\
       reg_area e.2 = Z.of_nat (length e.1) /\ 3 <= reg_area e.2) /\
  (forall p component, NoDup component ->
     (forall q, q ∈ component <-> connected 3 3 sampleLabels p q) ->
     Z.of_nat (length component) < 3 ->
     forall e, e ∈ sc_regions sampleScan -> p ∉ e.1) /\
  (forall i p0, samplePalette !! i = Some p0 ->
     sc_palette sampleScan !! i =
     Some (mkPaletteColor (pc_rgb p0) (pc_id p0) (pc_hex p0)
             (pc_count p0 + usageCount (pc_id p0) (snd <$> sc_regions sampleScan)))) /\
  (forall st x y st',
     scanPixel 3 3 sampleLabels 3 y st x = Ok st' ->
     (sc_regions st' = sc_regions st /\ sc_palette st' = sc_palette st) \/
     exists px r ci pc,
       3 <= Z.of_nat (length px) /\ reg_area r = Z.of_nat (length px) /\
       sc_regions st' = sc_regions st ++ [(px, r)] /\
       aget (sc_palette st) ci = Some pc /\ reg_colorId r = pc_id pc /\
       sc_palette st' = aset (sc_palette st) ci (bumpCount pc)).
Proof.
  split; [vm_compute; reflexivity|]. split; [apply uniqueIds_toPalette|].
  apply (region_area_threshold 3 3 sampleLabels 3 samplePalette).
  - vm_compute; reflexivity.
  - apply uniqueIds_toPalette.
Defined.


(** C10.  Whatever the label map, the first element of each pushed
    region's pixel list is the smallest linear index of the connected
    component the region consists of, and these first elements strictly
    increase along the region list. *)
Theorem regions_ordered_by_seed :
  forall width height pixelLabels minArea palette sc,
    extractRegions width height pixelLabels minArea palette = Ok sc ->
    (forall e, e ∈ sc_regions sc ->
       exists s, head e.1 = Some s /\
         (forall p, p ∈ e.1 <-> connected width height pixelLabels s p) /\
         (forall p, connected width height pixelLabels s p -> s <= p)) /\
    (forall i j ei ej si sj, (i < j)%nat ->
       sc_regions sc !! i = Some ei -> sc_regions sc !! j = Some ej ->
       head ei.1 = Some si -> head ej.1 = Some sj -> si < sj).
Proof.
  intros width height pixelLabels minArea palette sc Hex.
  destruct (extractRegions_inv _ _ _ _ _ _ Hex) as [_ _ _ _ Hregs _ _ _ Hsort].
  rewrite Forall_forall in Hregs. split; [|exact Hsort].
  intros e He. destruct (Hregs e He) as (s & Hs & _ & _ & _ & Hcomp & _ & _ & Hmin).
  exists s. split_and!; [done|done|]. intros p Hp. by apply Hmin, Hcomp.
Qed.

Lemma regions_ordered_by_seed_witness :
  extractRegions 3 3 sampleLabels 3 samplePalette = Ok sampleScan /\
  (forall e, e ∈ sc_regions sampleScan ->
     exists s, head e.1 = Some s /\
       (forall p, p ∈ e.1 <-> connected 3 3 sampleLabels s p) /\
       (forall p, connected 3 3 sampleLabels s p -> s <= p)) /\
  (forall i j ei ej si sj, (i < j)%nat ->
     sc_regions sampleScan !! i = Some ei -> sc_regions sampleScan !! j = Some ej ->
     head ei.1 = Some si -> head ej.1 = Some sj -> si < sj).
Proof.
  split; [vm_compute; reflexivity|].
  apply (regions_ordered_by_seed 3 3 sampleLabels 3 samplePalette).
  vm_compute; reflexivity.
Defined.


(** ** The boundary builder *)

Lemma length_bind {A B} (f : A -> list B) (l : list A) :
  length (l ≫= f) = sum_list_with (fun a => length (f a)) l.
Proof.
  induction l as [|a l IH]; [done|].
  rewrite bind_cons, length_app, IH. done.
Qed.

Lemma sum_list_with_ext_in {A} (f g : A -> nat) l :
  (forall a, a ∈ l -> f a = g a) -> sum_list_with f l = sum_list_with g l.
Proof.
  induction l as [|a l IH]; intros H; simpl; [done|].
  rewrite H by left. rewrite IH; [done|]. intros b Hb. apply H. by right.
Qed.

Lemma sum_list_with_plus {A} (f g : A -> nat) l :
  sum_list_with (fun a => (f a + g a)%nat) l
  = (sum_list_with f l + sum_list_with g l)%nat.
Proof. induction l as [|a l IH]; simpl; lia. Qed.

Lemma sum_list_with_const {A} (c : nat) (l : list A) :
  sum_list_with (fun _ => c) l = (length l * c)%nat.
Proof. induction l as [|a l IH]; simpl; lia. Qed.

(** An index that occurs once in the list is counted once. *)
Lemma sum_list_with_indicator (a : Z) l :
  NoDup l -> a ∈ l ->
  sum_list_with (fun x => Nat.b2n (x =? a)) l = 1%nat.
Proof.
  induction l as [|b l IH]; intros Hnd Ha; [by apply elem_of_nil in Ha|].
  apply NoDup_cons in Hnd as [Hb Hnd]. simpl.
  apply elem_of_cons in Ha as [->|Ha].
  - rewrite Z.eqb_refl.
    rewrite (sum_list_with_ext_in _ (fun _ => 0%nat)).
    + rewrite sum_list_with_const. simpl. lia.
    + intros x Hx. destruct (Z.eqb_spec x b) as [->|]; done.
  - destruct (Z.eqb_spec b a) as [->|]; [done|]. by rewrite IH.
Qed.

Lemma fold_min_spec (f : Z -> Z) l a :
  let m := fold_left (fun m p => if f p <? m then f p else m) l a in
  m <= a /\ (forall p, p ∈ l -> m <= f p) /\ (m = a \/ exists p, p ∈ l /\ m = f p).
Proof.
  revert a. induction l as [|q l IH]; intros a; simpl.
  { split; [lia|]. split; [by intros p Hp%elem_of_nil|by left]. }
  destruct (IH (if f q <? a then f q else a)) as (H1 & H2 & H3).
  set (m := fold_left _ l _) in *.
  destruct (Z.ltb_spec (f q) a).
  - split; [lia|]. split.
    + intros p [->|Hp]%elem_of_cons; [done|by apply H2].
    + right. destruct H3 as [->|(p & Hp & ->)]; [exists q|exists p]; split; auto; by constructor.
  - split; [lia|]. split.
    + intros p [->|Hp]%elem_of_cons; [lia|by apply H2].
    + destruct H3 as [->|(p & Hp & ->)]; [by left|right; exists p]; split; auto; by constructor.
Qed.

Lemma fold_max_spec (f : Z -> Z) l a :
  let m := fold_left (fun m p => if m <? f p then f p else m) l a in
  a <= m /\ (forall p, p ∈ l -> f p <= m) /\ (m = a \/ exists p, p ∈ l /\ m = f p).
Proof.
  revert a. induction l as [|q l IH]; intros a; simpl.
  { split; [lia|]. split; [by intros p Hp%elem_of_nil|by left]. }
  destruct (IH (if a <? f q then f q else a)) as (H1 & H2 & H3).
  set (m := fold_left _ l _) in *.
  destruct (Z.ltb_spec a (f q)).
  - split; [lia|]. split.
    + intros p [->|Hp]%elem_of_cons; [done|by apply H2].
    + right. destruct H3 as [->|(p & Hp & ->)]; [exists q|exists p]; split; auto; by constructor.
  - split; [lia|]. split.
    + intros p [->|Hp]%elem_of_cons; [lia|by apply H2].
    + destruct H3 as [->|(p & Hp & ->)]; [by left|right; exists p]; split; auto; by constructor.
Qed.

(** The four components of the bounding box are folded independently. *)
Lemma boundingBox_components width pixels a b c d :
  fold_left (growBox width) pixels (a, b, c, d) =
  (fold_left (fun m p => if Z.rem p width <? m then Z.rem p width else m) pixels a,
   fold_left (fun m p => if m <? Z.rem p width then Z.rem p width else m) pixels b,
   fold_left (fun m p => if p / width <? m then p / width else m) pixels c,
   fold_left (fun m p => if m <? p / width then p / width else m) pixels d).
Proof.
  revert a b c d. induction pixels as [|p l IH]; intros a b c d; [done|].
  simpl. by rewrite IH.
Qed.

Lemma cell_coords width x y :
  0 <= x < width -> 0 <= y ->
  Z.rem (y * width + x) width = x /\ (y * width + x) / width = y.
Proof.
  intros Hx Hy. split.
  - rewrite Z.rem_mod_nonneg by nia.
    rewrite Z.add_comm, Z.mod_add by lia. apply Z.mod_small. lia.
  - rewrite Z.add_comm, Z.div_add by lia. rewrite Z.div_small by lia. lia.
Qed.

Lemma sum_list_with_scale {A} (c : nat) (f : A -> nat) l :
  sum_list_with (fun a => (c * f a)%nat) l = (c * sum_list_with f l)%nat.
Proof. induction l as [|a l IH]; simpl; lia. Qed.

Lemma has_list_to_set pixels idx :
  has (list_to_set pixels) idx = true <-> idx ∈ pixels.
Proof. unfold has. rewrite bool_decide_eq_true. apply elem_of_list_to_set. Qed.

Section Rectangle.
Variables (width height x0 y0 w h : Z) (pixels : list Z).
Hypothesis Hx0 : 0 <= x0.
Hypothesis Hy0 : 0 <= y0.
Hypothesis Hw : 0 < w.
Hypothesis Hh : 0 < h.
Hypothesis Hfx : x0 + w <= width.
Hypothesis Hfy : y0 + h <= height.
Hypothesis Hrect : forall p, p ∈ pixels <->
  exists x y, x0 <= x < x0 + w /\ y0 <= y < y0 + h /\ p = y * width + x.

Local Abbreviation inRect x y :=
  ((x0 <=? x) && (x <? x0 + w) && (y0 <=? y) && (y <? y0 + h)).

Lemma rect_has x y :
  0 <= x < width -> has (list_to_set pixels) (y * width + x) = inRect x y.
Proof.
  intros Hx. apply eq_true_iff_eq. rewrite has_list_to_set, Hrect.
  rewrite !andb_true_iff, !Z.leb_le, !Z.ltb_lt. split.
  - intros (x' & y' & Hx' & Hy' & Heq).
    assert (y = y') as -> by nia. assert (x = x') as -> by lia. lia.
  - intros Hin. exists x, y. lia.
Qed.

Lemma rect_box :
  boundingBox pixels width height = (x0, x0 + w - 1, y0, y0 + h - 1).
Proof.
  unfold boundingBox. rewrite boundingBox_components.
  assert (forall p, p ∈ pixels ->
            x0 <= Z.rem p width < x0 + w /\ y0 <= p / width < y0 + h) as Hin.
  { intros p (x & y & Hx & Hy & ->)%Hrect.
    destruct (cell_coords width x y) as [-> ->]; lia. }
  assert (forall x y, x0 <= x < x0 + w -> y0 <= y < y0 + h ->
            exists p, p ∈ pixels /\ Z.rem p width = x /\ p / width = y) as Hex.
  { intros x y Hx Hy. exists (y * width + x). split.
    - apply Hrect. by exists x, y.
    - apply cell_coords; lia. }
  destruct (Hex x0 y0) as (p00 & Hp00 & Hx00 & Hy00); [lia..|].
  destruct (Hex (x0 + w - 1) (y0 + h - 1)) as (p11 & Hp11 & Hx11 & Hy11); [lia..|].
  destruct (fold_min_spec (fun p => Z.rem p width) pixels width) as (A1 & A2 & A3).
  destruct (fold_max_spec (fun p => Z.rem p width) pixels 0) as (B1 & B2 & B3).
  destruct (fold_min_spec (fun p => p / width) pixels height) as (C1 & C2 & C3).
  destruct (fold_max_spec (fun p => p / width) pixels 0) as (D1 & D2 & D3).
  specialize (A2 _ Hp00). specialize (B2 _ Hp11).
  specialize (C2 _ Hp00). specialize (D2 _ Hp11). simpl in *.
  f_equal; [f_equal; [f_equal|]|].
  - destruct A3 as [A3|(p & Hp & A3)]; [lia|]. specialize (Hin p Hp). lia.
  - destruct B3 as [B3|(p & Hp & B3)]; [lia|]. specialize (Hin p Hp). lia.
  - destruct C3 as [C3|(p & Hp & C3)]; [lia|]. specialize (Hin p Hp). lia.
  - destruct D3 as [D3|(p & Hp & D3)]; [lia|]. specialize (Hin p Hp). lia.
Qed.

(** Which of its four sides a cell of the rectangle contributes. *)
Lemma rect_cell_edges x y :
  x0 <= x < x0 + w -> y0 <= y < y0 + h ->
  cellEdges (list_to_set pixels) width height x y =
  (if y =? y0 then [mkEdge x y (x + 1) y] else []) ++
  (if y =? y0 + h - 1 then [mkEdge x (y + 1) (x + 1) (y + 1)] else []) ++
  (if x =? x0 then [mkEdge x y x (y + 1)] else []) ++
  (if x =? x0 + w - 1 then [mkEdge (x + 1) y (x + 1) (y + 1)] else []).
Proof.
  intros Hx Hy. unfold cellEdges.
  assert (((y =? 0) || negb (has (list_to_set pixels) ((y - 1) * width + x)))
          = (y =? y0)) as ->.
  { rewrite rect_has by lia.
    destruct (Z.eqb_spec y 0), (Z.eqb_spec y y0), (Z.leb_spec x0 x),
      (Z.ltb_spec x (x0 + w)), (Z.leb_spec y0 (y - 1)),
      (Z.ltb_spec (y - 1) (y0 + h)); simpl; lia. }
  assert (((y =? height - 1) || negb (has (list_to_set pixels) ((y + 1) * width + x)))
          = (y =? y0 + h - 1)) as ->.
  { rewrite rect_has by lia.
    destruct (Z.eqb_spec y (height - 1)), (Z.eqb_spec y (y0 + h - 1)),
      (Z.leb_spec x0 x), (Z.ltb_spec x (x0 + w)), (Z.leb_spec y0 (y + 1)),
      (Z.ltb_spec (y + 1) (y0 + h)); simpl; lia. }
  assert (((x =? 0) || negb (has (list_to_set pixels) (y * width + x - 1)))
          = (x =? x0)) as ->.
  { destruct (Z.eqb_spec x 0) as [->|Hne]; cbn [orb].
    { destruct (Z.eqb_spec 0 x0); [done|lia]. }
    replace (y * width + x - 1) with (y * width + (x - 1)) by lia.
    rewrite rect_has by lia.
    destruct (Z.eqb_spec x x0), (Z.leb_spec x0 (x - 1)),
      (Z.ltb_spec (x - 1) (x0 + w)), (Z.leb_spec y0 y),
      (Z.ltb_spec y (y0 + h)); simpl; lia. }
  assert (((x =? width - 1) || negb (has (list_to_set pixels) (y * width + x + 1)))
          = (x =? x0 + w - 1)) as ->.
  { destruct (Z.eqb_spec x (width - 1)) as [->|Hne]; cbn [orb].
    { destruct (Z.eqb_spec (width - 1) (x0 + w - 1)); [done|lia]. }
    replace (y * width + x + 1) with (y * width + (x + 1)) by lia.
    rewrite rect_has by lia.
    destruct (Z.eqb_spec x (x0 + w - 1)), (Z.leb_spec x0 (x + 1)),
      (Z.ltb_spec (x + 1) (x0 + w)), (Z.leb_spec y0 y),
      (Z.ltb_spec y (y0 + h)); simpl; lia. }
  rewrite rect_has by lia.
  destruct (Z.leb_spec x0 x), (Z.ltb_spec x (x0 + w)), (Z.leb_spec y0 y),
    (Z.ltb_spec y (y0 + h)); try lia. done.
Qed.

Lemma rect_cell x y :
  x0 <= x < x0 + w -> y0 <= y < y0 + h ->
  length (cellEdges (list_to_set pixels) width height x y) =
  (Nat.b2n (y =? y0)%Z + Nat.b2n (y =? y0 + h - 1)%Z +
   (Nat.b2n (x =? x0)%Z + Nat.b2n (x =? x0 + w - 1)%Z))%nat.
Proof.
  intros Hx Hy. rewrite rect_cell_edges by done. rewrite !length_app.
  destruct (y =? y0), (y =? y0 + h - 1), (x =? x0), (x =? x0 + w - 1); done.
Qed.

(** An edge of a cell of the rectangle names its cell and its side. *)
Lemma rect_cell_mem e x y :
  x0 <= x < x0 + w -> y0 <= y < y0 + h ->
  e ∈ cellEdges (list_to_set pixels) width height x y ->
  (e_y2 e = e_y1 e /\ e_x1 e = x /\ (e_y1 e = y /\ y = y0 \/
                                      e_y1 e = y + 1 /\ y = y0 + h - 1)) \/
  (e_x2 e = e_x1 e /\ e_y1 e = y /\ (e_x1 e = x /\ x = x0 \/
                                      e_x1 e = x + 1 /\ x = x0 + w - 1)).
Proof.
  intros Hx Hy. rewrite rect_cell_edges by done.
  rewrite !elem_of_app.
  destruct (Z.eqb_spec y y0), (Z.eqb_spec y (y0 + h - 1)),
    (Z.eqb_spec x x0), (Z.eqb_spec x (x0 + w - 1));
    rewrite ?list_elem_of_singleton, ?elem_of_nil;
    intros [He|[He|[He|He]]]; try done; subst e; simpl; lia.
Qed.

Lemma rect_cell_inj e x y x' y' :
  x0 <= x < x0 + w -> y0 <= y < y0 + h ->
  x0 <= x' < x0 + w -> y0 <= y' < y0 + h ->
  e ∈ cellEdges (list_to_set pixels) width height x y ->
  e ∈ cellEdges (list_to_set pixels) width height x' y' ->
  x = x' /\ y = y'.
Proof.
  intros Hx Hy Hx' Hy' He He'.
  apply rect_cell_mem in He; [|done..]. apply rect_cell_mem in He'; [|done..].
  lia.
Qed.

Lemma rect_cell_nodup x y :
  x0 <= x < x0 + w -> y0 <= y < y0 + h ->
  NoDup (cellEdges (list_to_set pixels) width height x y).
Proof.
  intros Hx Hy. rewrite rect_cell_edges by done.
  destruct (y =? y0), (y =? y0 + h - 1), (x =? x0), (x =? x0 + w - 1); simpl;
    repeat (apply NoDup_cons;
            split;
            [intros Hin;
             repeat (apply elem_of_cons in Hin as [Hin|Hin];
                     [injection Hin; lia|]);
             by apply elem_of_nil in Hin|]);
    apply NoDup_nil_2.
Qed.

Lemma rect_edge_count :
  length (boundaryEdges pixels width height) = Z.to_nat (2 * (w + h)).
Proof.
  unfold boundaryEdges. rewrite rect_box.
  replace (y0 + h - 1 - y0 + 1) with h by lia.
  replace (x0 + w - 1 - x0 + 1) with w by lia.
  rewrite length_bind.
  rewrite (sum_list_with_ext_in _
    (fun y => (Z.to_nat w * (Nat.b2n (y =? y0)%Z +
                             Nat.b2n (y =? y0 + h - 1)%Z) + 2)%nat)).
  - rewrite sum_list_with_plus, sum_list_with_scale, sum_list_with_plus,
      sum_list_with_const, length_seqZ.
    rewrite !sum_list_with_indicator;
      [lia|apply NoDup_seqZ|apply elem_of_seqZ; lia|apply NoDup_seqZ|
       apply elem_of_seqZ; lia].
  - intros y Hy%elem_of_seqZ. rewrite length_bind.
    rewrite (sum_list_with_ext_in _
      (fun x => (Nat.b2n (y =? y0)%Z + Nat.b2n (y =? y0 + h - 1)%Z +
                 (Nat.b2n (x =? x0)%Z + Nat.b2n (x =? x0 + w - 1)%Z))%nat)).
    + rewrite sum_list_with_plus, sum_list_with_const, sum_list_with_plus, length_seqZ.
      rewrite !sum_list_with_indicator;
        [lia|apply NoDup_seqZ|apply elem_of_seqZ; lia|apply NoDup_seqZ|
         apply elem_of_seqZ; lia].
    + intros x Hx%elem_of_seqZ. apply rect_cell; lia.
Qed.

(** No edge of the rectangle is emitted twice. *)
Lemma rect_edges_nodup : NoDup (boundaryEdges pixels width height).
Proof.
  unfold boundaryEdges. rewrite rect_box.
  replace (y0 + h - 1 - y0 + 1) with h by lia.
  replace (x0 + w - 1 - x0 + 1) with w by lia.
  apply NoDup_bind; [| |apply NoDup_seqZ].
  - intros y y' e Hy%elem_of_seqZ Hy'%elem_of_seqZ.
    intros (x & He & Hx%elem_of_seqZ)%list_elem_of_bind.
    intros (x' & He' & Hx'%elem_of_seqZ)%list_elem_of_bind.
    apply (rect_cell_inj e x y x' y'); (done || lia).
  - intros y Hy%elem_of_seqZ. apply NoDup_bind; [| |apply NoDup_seqZ].
    + intros x x' e Hx%elem_of_seqZ Hx'%elem_of_seqZ He He'.
      apply (rect_cell_inj e x y x' y); (done || lia).
    + intros x Hx%elem_of_seqZ. apply rect_cell_nodup; lia.
Qed.
End Rectangle.

Lemma boundaryEdges_unit pixels width height e :
  e ∈ boundaryEdges pixels width height -> unitEdge e.
Proof.
  unfold boundaryEdges.
  destruct (boundingBox pixels width height) as [[[minBx maxBx] minBy] maxBy].
  intros (y & He & _)%list_elem_of_bind. apply list_elem_of_bind in He as (x & He & _).
  unfold cellEdges in He. destruct (negb _); [by apply elem_of_nil in He|].
  repeat (apply elem_of_app in He as [He|He]);
    match type of He with
    | _ ∈ (if ?c then _ else _) => destruct c
    end;
    try (by apply elem_of_nil in He);
    apply list_elem_of_singleton in He as ->; unfold unitEdge; simpl; lia.
Qed.

(** C5.  When the pixel list of a region holds exactly the indices of a
    [w] x [h] axis-aligned block of the image, the boundary builder emits
    exactly [2 * (w + h)] edges, all different, each a unit grid edge.
    For the single pixel of a 1 x 1 image these are the four sides of the
    unit square, rendered as four [M..L..] segments. *)
Theorem rectangle_boundary :
  (forall width height x0 y0 w h pixels,
     0 <= x0 -> 0 <= y0 -> 0 < w -> 0 < h ->
     x0 + w <= width -> y0 + h <= height ->
     (forall p, p ∈ pixels <->
        exists x y, x0 <= x < x0 + w /\ y0 <= y < y0 + h /\ p = y * width + x) ->
     length (boundaryEdges pixels width height) = Z.to_nat (2 * (w + h)) /\
     NoDup (boundaryEdges pixels width height) /\
     (forall e, e ∈ boundaryEdges pixels width height -> unitEdge e)) /\
  boundaryEdges [0] 1 1 =
    [mkEdge 0 0 1 0; mkEdge 0 1 1 1; mkEdge 0 0 0 1; mkEdge 1 0 1 1] /\
  traceRegionBoundary [0] 1 1 0 0 = "M0,0L1,0 M0,1L1,1 M0,0L0,1 M1,0L1,1 "%string.
Proof.
  split; [|split; vm_compute; reflexivity].
  intros width height x0 y0 w h pixels ? ? ? ? ? ? Hrect. split_and!.
  - by apply (rect_edge_count width height x0 y0 w h).
  - by apply (rect_edges_nodup width height x0 y0 w h).
  - intros e. apply boundaryEdges_unit.
Qed.

Lemma rectangle_boundary_witness :
  length (boundaryEdges sampleRectangle 5 4) = 10%nat /\
  NoDup (boundaryEdges sampleRectangle 5 4) /\
  (forall e, e ∈ boundaryEdges sampleRectangle 5 4 -> unitEdge e).
Proof.
  apply (proj1 rectangle_boundary 5 4 1 1 3 2 sampleRectangle); try lia.
  intros p. unfold sampleRectangle. split.
  - intros Hp. repeat (apply elem_of_cons in Hp as [->|Hp]);
      [exists 1, 1|exists 2, 1|exists 3, 1|exists 1, 2|exists 2, 2|exists 3, 2|
       by apply elem_of_nil in Hp]; lia.
  - intros (x & y & Hx & Hy & ->).
    assert (x = 1 \/ x = 2 \/ x = 3) as Hxc by lia.
    assert (y = 1 \/ y = 2) as Hyc by lia.
    destruct Hxc as [-> | [-> | ->]], Hyc as [-> | ->]; simpl; repeat constructor.
Defined.

(** ** The quantizer *)

Lemma nearestFrom_spec p cs pre minDist clusterIdx :
  searchState p pre minDist clusterIdx -> pre ++ cs <> [] ->
  isNearest p (pre ++ cs) (nearestFrom p cs (length pre) minDist clusterIdx).
Proof.
  revert pre minDist clusterIdx.
  induction cs as [|c cs IH]; intros pre md ci Hst Hne; simpl.
  - rewrite app_nil_r in *. destruct md as [d|]; simpl in Hst; [|done].
    destruct Hst as (c & Hc & -> & Hmin). by exists c.
  - replace (pre ++ c :: cs) with ((pre ++ [c]) ++ cs) by by rewrite <- app_assoc.
    replace (S (length pre)) with (length (pre ++ [c]))
      by (rewrite length_app; simpl; lia).
    assert (forall i ci, (pre ++ [c]) !! i = Some ci ->
              (i < length pre)%nat /\ pre !! i = Some ci \/
              i = length pre /\ ci = c) as Hsplit.
    { intros i c' Hi. destruct (decide (i < length pre)%nat).
      - left. by rewrite lookup_app_l in Hi.
      - right. rewrite lookup_app_r in Hi by lia.
        destruct (i - length pre)%nat as [|m] eqn:E; simpl in Hi; [|done].
        split; [lia|congruence]. }
    destruct (distLt (colorDistance2 p c) md) eqn:Hlt.
    + apply IH; [|by destruct pre]. simpl. exists c.
      split; [by rewrite lookup_app_r, Nat.sub_diag|]. split; [done|].
      intros i c' [[Hi Hc']|[-> ->]]%Hsplit; [|lia].
      destruct md as [d|]; simpl in Hst, Hlt.
      * destruct Hst as (c0 & _ & -> & Hmin). apply Z.ltb_lt in Hlt.
        destruct (Hmin i c' Hc'). lia.
      * subst pre. simpl in Hi. lia.
    + apply IH; [|by destruct pre]. destruct md as [d|]; simpl in Hst, Hlt; [|done].
      apply Z.ltb_ge in Hlt. destruct Hst as (c0 & Hc0 & -> & Hmin).
      simpl. exists c0. split; [by apply lookup_app_l_Some|]. split; [done|].
      intros i c' [[Hi Hc']|[-> ->]]%Hsplit; [by apply Hmin|].
      split; [done|]. apply lookup_lt_Some in Hc0. lia.
Qed.

(** The search returns the first centroid at minimal distance. *)
Lemma nearest_spec p cs : cs <> [] -> isNearest p cs (nearest p cs).
Proof. intros Hne. by apply (nearestFrom_spec p cs [] None 0%nat). Qed.

Lemma nearest_lt p cs : cs <> [] -> (nearest p cs < length cs)%nat.
Proof.
  intros Hne. destruct (nearest_spec p cs Hne) as (c & Hc & _).
  by eapply lookup_lt_Some.
Qed.

Lemma addAll_cons s p l :
  addAll (mkSum (s_r s + c_r p) (s_g s + c_g p) (s_b s + c_b p) (s_count s + 1)) l
  = addAll s (p :: l).
Proof.
  unfold addAll, sumZ. rewrite !fmap_cons. cbn [foldr length].
  rewrite Nat2Z.inj_succ. cbn [s_r s_g s_b s_count]. f_equal; lia.
Qed.

Lemma addAll_nil s : addAll s [] = s.
Proof. destruct s. unfold addAll. simpl. f_equal; lia. Qed.

(** The sums held after the assignment loop has run over [offs]. *)
Lemma accumulate_spec data cs offs sums0 sums :
  foldM (accumulate data cs) offs sums0 = Ok sums ->
  length sums = length sums0 /\
  forall j s0, sums0 !! j = Some s0 ->
               sums !! j = Some (addAll s0 (assignedIn data cs offs j)).
Proof.
  revert sums0. induction offs as [|i offs IH]; intros sums0; simpl.
  { intros [= <-]. split; [done|]. intros j s0 ->. by rewrite addAll_nil. }
  intros (sums1 & Hacc & Hrest)%obind_Ok.
  destruct (IH _ Hrest) as [Hlen Hsum]. unfold accumulate in Hacc.
  unfold assignedIn. destruct (transparentAt data i) eqn:Ht.
  - injection Hacc as <-. split; [done|]. intros j s0 Hj.
    rewrite filter_cons_False by (rewrite Ht; done). by apply Hsum.
  - destruct (sums0 !! nearest (pixelAt data i) cs) as [s|] eqn:Hs; [|done].
    injection Hacc as <-. rewrite length_insert in Hlen. split; [done|].
    intros j s0 Hj. rewrite filter_cons_True by done. rewrite fmap_cons.
    destruct (decide (nearest (pixelAt data i) cs = j)) as [<-|Hne].
    + rewrite filter_cons_True by done. rewrite Hs in Hj. injection Hj as <-.
      rewrite <- addAll_cons. apply Hsum.
      apply list_lookup_insert_eq. by eapply lookup_lt_Some.
    + rewrite filter_cons_False by done. apply Hsum.
      by rewrite list_lookup_insert_ne.
Qed.

Lemma passSums_spec data cs sums :
  passSums data cs = Ok sums ->
  length sums = length cs /\
  forall j, (j < length cs)%nat ->
    sums !! j = Some (addAll (mkSum 0 0 0 0) (assigned data cs j)).
Proof.
  unfold passSums. intros [Hlen Hsum]%accumulate_spec.
  rewrite length_fmap in Hlen. split; [done|]. intros j Hj. apply Hsum.
  rewrite list_lookup_fmap. destruct (lookup_lt_is_Some_2 cs j Hj) as [c ->]. done.
Qed.

(** With at least one centroid, the assignment loop does not throw. *)
Lemma passSums_total data cs : cs <> [] -> exists sums, passSums data cs = Ok sums.
Proof.
  intros Hne. unfold passSums.
  destruct (foldM_total (accumulate data cs) (fun sums => length sums = length cs)
              (pixelOffsets data) ((fun _ => mkSum 0 0 0 0) <$> cs))
    as (sums & Hs & _); [by rewrite length_fmap| |by exists sums].
  intros i sums _ Hlen. unfold accumulate.
  destruct (transparentAt data i); [by eexists|].
  destruct (lookup_lt_is_Some_2 sums (nearest (pixelAt data i) cs)) as [s ->].
  { rewrite Hlen. by apply nearest_lt. }
  eexists. split; [done|]. by rewrite length_insert.
Qed.

(** [roundDiv s c] is [s / c + 1/2] rounded down. *)
Lemma roundDiv_spec s c :
  0 < c -> 2 * c * roundDiv s c <= 2 * s + c < 2 * c * (roundDiv s c + 1).
Proof.
  intros Hc. unfold roundDiv.
  pose proof (Z.mul_div_le (2 * s + c) (2 * c) ltac:(lia)).
  pose proof (Z.mul_succ_div_gt (2 * s + c) (2 * c) ltac:(lia)). lia.
Qed.

Lemma kmeansPass_spec data cs cs' :
  kmeansPass data cs = Ok cs' ->
  length cs' = length cs /\
  forall j c, cs !! j = Some c ->
    cs' !! j = Some (match assigned data cs j with
                     | [] => c
                     | _ :: _ => meanColor (assigned data cs j)
                     end).
Proof.
  unfold kmeansPass. intros (sums & Hsums & [= <-])%obind_Ok.
  destruct (passSums_spec _ _ _ Hsums) as [Hlen Hsum]. split.
  { rewrite length_zip_with. lia. }
  intros j c Hc. rewrite lookup_zip_with, Hc. simpl.
  rewrite (Hsum j) by by eapply lookup_lt_Some. simpl. f_equal.
  unfold updateCentroid, addAll, meanColor. simpl.
  destruct (assigned data cs j) as [|p l]; [done|].
  destruct (Z.ltb_spec 0 (Z.of_nat (length (p :: l)))) as [_|Hle]; [done|].
  simpl in Hle. lia.
Qed.

Lemma kmeansPass_total data cs : cs <> [] -> exists cs', kmeansPass data cs = Ok cs'.
Proof.
  intros Hne. unfold kmeansPass.
  destruct (passSums_total data cs Hne) as [sums ->]. by eexists.
Qed.

(** C6.  The quantizer runs the pass body exactly five times on the
    initial centroids.  In a pass each opaque pixel (alpha at least 128)
    goes to the first centroid at minimal (squared, hence also plain)
    Euclidean RGB distance; a centroid with assigned pixels becomes their
    per-channel mean rounded to the nearest integer (halves up), a
    centroid without any keeps its value.  With at least one centroid a
    pass does not throw. *)
Theorem quantizer_refinement :
  (forall (G : Type) (random : G -> Q * G) data k gen,
     fst (getQuantizedPalette random data k gen) =
     (c1 <-- kmeansPass data (fst (initCentroids random k data gen [])) ;;
      c2 <-- kmeansPass data c1 ;;
      c3 <-- kmeansPass data c2 ;;
      c4 <-- kmeansPass data c3 ;;
      c5 <-- kmeansPass data c4 ;;
      Ok (toPalette c5))) /\
  (forall p cs, cs <> [] ->
     exists c, cs !! nearest p cs = Some c /\
       forall i ci, cs !! i = Some ci ->
         colorDistance2 p c <= colorDistance2 p ci /\
         ((i < nearest p cs)%nat -> colorDistance2 p c < colorDistance2 p ci)) /\
  (forall data cs cs', kmeansPass data cs = Ok cs' ->
     length cs' = length cs /\
     forall j c, cs !! j = Some c ->
       cs' !! j = Some (match assigned data cs j with
                        | [] => c
                        | _ :: _ => meanColor (assigned data cs j)
                        end)) /\
  (forall data cs, cs <> [] -> exists cs', kmeansPass data cs = Ok cs') /\
  (forall s c, 0 < c ->
     2 * c * roundDiv s c <= 2 * s + c < 2 * c * (roundDiv s c + 1)) /\
  (forall data i alpha, aget data (i + 3) = Some alpha ->
     (transparentAt data i = false <-> 128 <= alpha)).
Proof.
  split_and!.
  - intros G random data k gen. unfold getQuantizedPalette.
    destruct (initCentroids random k data gen []) as [c0 gen']. simpl.
    destruct (kmeansPass data c0) as [c1| |]; simpl; [|done..].
    destruct (kmeansPass data c1) as [c2| |]; simpl; [|done..].
    destruct (kmeansPass data c2) as [c3| |]; simpl; [|done..].
    destruct (kmeansPass data c3) as [c4| |]; simpl; [|done..].
    by destruct (kmeansPass data c4) as [c5| |].
  - intros p cs Hne. apply (nearest_spec p cs Hne).
  - apply kmeansPass_spec.
  - apply kmeansPass_total.
  - apply roundDiv_spec.
  - intros data i alpha Ha. unfold transparentAt. rewrite Ha.
    destruct (Z.ltb_spec alpha 128); split; (done || lia).
Qed.

Lemma quantizer_refinement_witness :
  kmeansPass stripeImage [red; red] = Ok [mkRGB 128 0 128; red] /\
  (length [mkRGB 128 0 128; red] = length [red; red] /\
   forall j c, [red; red] !! j = Some c ->
     [mkRGB 128 0 128; red] !! j =
     Some (match assigned stripeImage [red; red] j with
           | [] => c
           | _ :: _ => meanColor (assigned stripeImage [red; red] j)
           end)) /\
  (exists c, [red; red] !! nearest blue [red; red] = Some c /\
     forall i ci, [red; red] !! i = Some ci ->
       colorDistance2 blue c <= colorDistance2 blue ci /\
       ((i < nearest blue [red; red])%nat ->
        colorDistance2 blue c < colorDistance2 blue ci)) /\
  2 * 4 * roundDiv 510 4 <= 2 * 510 + 4 < 2 * 4 * (roundDiv 510 4 + 1).
Proof.
  split; [vm_compute; reflexivity|]. split_and!.
  - apply (proj1 (proj2 (proj2 quantizer_refinement)) stripeImage [red; red]).
    vm_compute; reflexivity.
  - apply (proj1 (proj2 (proj2 quantizer_refinement)) stripeImage [red; red]).
    vm_compute; reflexivity.
  - apply (proj1 (proj2 quantizer_refinement) blue [red; red]). done.
  - apply (proj1 (proj2 (proj2 (proj2 (proj2 quantizer_refinement)))) 510 4). lia.
  - apply (proj1 (proj2 (proj2 (proj2 (proj2 quantizer_refinement)))) 510 4). lia.
Defined.

(** ** The random source *)

Lemma initCentroids_draws {G} (random : G -> Q * G) k data gen acc :
  fst (initCentroids random k data gen acc) =
  acc ++ ((fun u => pixelAt data (pickIdx u data)) <$> draws random k gen).
Proof.
  revert gen acc. induction k as [|k IH]; intros gen acc; simpl.
  { by rewrite app_nil_r. }
  destruct (random gen) as [u gen']. rewrite IH, <- app_assoc. done.
Qed.

Lemma getQuantizedPalette_draws {G} (random : G -> Q * G) data k gen :
  fst (getQuantizedPalette random data k gen) =
  quantizeFrom data ((fun u => pixelAt data (pickIdx u data)) <$> draws random k gen).
Proof.
  unfold getQuantizedPalette.
  pose proof (initCentroids_draws random k data gen []) as H.
  destruct (initCentroids random k data gen []) as [c0 gen']. simpl in *.
  by rewrite H.
Qed.

(** The pipeline reads the generator only through its first [k] draws. *)
Lemma processWith_draws {G} (random : G -> Q * G) minArea url data width height k gen :
  processWith random minArea url data width height k gen =
  processFrom minArea url data width height
    (quantizeFrom data ((fun u => pixelAt data (pickIdx u data)) <$> draws random k gen)).
Proof. unfold processWith, processFrom. by rewrite getQuantizedPalette_draws. Qed.

Lemma length_draws {G} (random : G -> Q * G) k gen : length (draws random k gen) = k.
Proof.
  revert gen. induction k as [|k IH]; intros gen; simpl; [done|].
  destruct (random gen) as [u gen']. simpl. by rewrite IH.
Qed.

Lemma draws_valid {G} (random : G -> Q * G) k gen u :
  validDraws random -> u ∈ draws random k gen -> Qle 0 u /\ Qlt u 1.
Proof.
  intros Hv. revert gen. induction k as [|k IH]; intros gen; simpl.
  { by intros ?%elem_of_nil. }
  pose proof (Hv gen) as Hg. destruct (random gen) as [u' gen']. simpl in Hg.
  intros [->|Hu]%elem_of_cons; [done|]. by eapply IH.
Qed.

(** A draw in [0, 1) selects the offset of a pixel of the buffer. *)
Lemma pickIdx_offset u data :
  Qle 0 u -> Qlt u 1 ->
  (0 < length data)%nat -> Z.of_nat (length data) mod 4 = 0 ->
  pickIdx u data ∈ pixelOffsets data.
Proof.
  intros H0 H1 Hn Hmod. unfold pickIdx, pixelOffsets.
  set (n := Z.of_nat (length data)) in *.
  destruct u as [a b]. unfold Qle, Qlt in *. simpl in *.
  assert (n = 4 * (n / 4)) as Hn4 by (pose proof (Z.div_mod n 4); lia).
  assert ((n + 3) / 4 = n / 4) as ->.
  { rewrite Hn4 at 1. rewrite Z.mul_comm, Z.div_add_l by lia.
    rewrite (Z.div_small 3 4) by lia. lia. }
  set (m := a * n / Z.pos (b * 4)).
  apply list_elem_of_fmap. exists m. split; [lia|].
  apply elem_of_seqZ. split.
  - apply Z.div_pos; nia.
  - rewrite Z.add_0_l. apply Z.div_lt_upper_bound; [lia|].
    rewrite Pos2Z.inj_mul. nia.
Qed.

(** The colour read at a pixel offset does not depend on alpha bytes. *)
Lemma pixelAt_ignores_alpha data data' m :
  (forall i, (i mod 4 <> 3)%nat -> data' !! i = data !! i) ->
  pixelAt data' (m * 4) = pixelAt data (m * 4).
Proof.
  intros Hsame.
  assert (forall j, 0 <= j < 3 -> byteAt data' (m * 4 + j) = byteAt data (m * 4 + j))
    as Hb.
  { intros j Hj. unfold byteAt, aget.
    destruct (Z.ltb_spec (m * 4 + j) 0); [done|]. rewrite Hsame; [done|].
    intros Hmod. apply (f_equal Z.of_nat) in Hmod.
    rewrite Nat2Z.inj_mod, Z2Nat.id in Hmod by lia.
    replace (m * 4 + j) with (j + m * 4) in Hmod by lia.
    rewrite Z.mod_add, Z.mod_small in Hmod; simpl in Hmod; lia. }
  unfold pixelAt. pose proof (Hb 0 ltac:(lia)) as Hb0.
  rewrite Z.add_0_r in Hb0. by rewrite Hb0, !Hb by lia.
Qed.

(** C2.  The initialization at a buffer with a transparent pixel 0 and an
    opaque pixel 1, with [Math.random()] answering 0: the index is
    [floor(0 * 2) * 4 = 0] and the centroid is (10, 20, 30), the colour of
    the transparent pixel and of no opaque pixel.  The passes and the
    labelling skip that pixel, the initialization does not.  With two
    colours the quantizer returns the opaque colour as entry 1 and keeps
    (10, 20, 30) as entry 2. *)
Theorem transparent_pixel_seeds_centroid :
  fst (initCentroids zeroGen 1 mixedBuffer tt []) = [mkRGB 10 20 30] /\
  pickIdx (fst (zeroGen tt)) mixedBuffer = 0 /\
  transparentAt mixedBuffer 0 = true /\
  pixelAt mixedBuffer 0 = mkRGB 10 20 30 /\
  (forall i, i ∈ pixelOffsets mixedBuffer -> transparentAt mixedBuffer i = false ->
     pixelAt mixedBuffer i <> mkRGB 10 20 30) /\
  fst (getQuantizedPalette zeroGen mixedBuffer 2 tt) =
    Ok [mkPaletteColor (mkRGB 200 200 200) 1 "#c8c8c8" 0;
        mkPaletteColor (mkRGB 10 20 30) 2 "#0a141e" 0].
Proof.
  split_and!; try (vm_compute; reflexivity).
  intros i Hi Ht. change (pixelOffsets mixedBuffer) with [0; 4] in Hi.
  apply elem_of_cons in Hi as [->|Hi]; [by vm_compute in Ht|].
  apply elem_of_cons in Hi as [->|Hi]; [by vm_compute|].
  by apply elem_of_nil in Hi.
Qed.

(** So it is not true that, on a buffer holding a transparent and an
    opaque pixel, every initial centroid is the colour of an opaque
    pixel. *)
Lemma initial_centroid_from_transparent_pixel :
  ~ (forall (G : Type) (random : G -> Q * G) (data : list Z) (k : nat) (gen : G),
       validDraws random ->
       (exists i, i ∈ pixelOffsets data /\ transparentAt data i = true) ->
       (exists i, i ∈ pixelOffsets data /\ transparentAt data i = false) ->
       forall c, c ∈ fst (initCentroids random k data gen []) ->
         exists i, i ∈ pixelOffsets data /\ transparentAt data i = false /\
                   pixelAt data i = c).
Proof.
  intros H.
  destruct (H unit zeroGen mixedBuffer 1%nat tt) with (c := mkRGB 10 20 30)
    as (i & Hi & Ht & Hp).
  - intros []. by vm_compute.
  - exists 0. split; [|done]. vm_compute. left.
  - exists 4. split; [|done]. vm_compute. right. left.
  - vm_compute. left.
  - vm_compute in Hi.
    apply elem_of_cons in Hi as [->|Hi]; [by vm_compute in Ht|].
    apply elem_of_cons in Hi as [->|Hi]; [by vm_compute in Hp|].
    by apply elem_of_nil in Hi.
Qed.

(** What the initialization does on every buffer: with draws in [0, 1)
    and a non-empty RGBA buffer it yields [k] centroids, each the colour of
    some pixel of the buffer, and the alpha bytes are not read. *)
Lemma initial_centroids_are_pixels :
  forall (G : Type) (random : G -> Q * G) (data : list Z) (k : nat) (gen : G),
    validDraws random ->
    (0 < length data)%nat -> Z.of_nat (length data) mod 4 = 0 ->
    length (fst (initCentroids random k data gen [])) = k /\
    (forall c, c ∈ fst (initCentroids random k data gen []) ->
       exists i, i ∈ pixelOffsets data /\ pixelAt data i = c) /\
    (forall data', length data' = length data ->
       (forall i, (i mod 4 <> 3)%nat -> data' !! i = data !! i) ->
       fst (initCentroids random k data' gen []) =
       fst (initCentroids random k data gen [])).
Proof.
  intros G random data k gen Hv Hn Hmod. rewrite !initCentroids_draws. simpl.
  split_and!.
  - by rewrite length_fmap, length_draws.
  - intros c (u & -> & Hu)%list_elem_of_fmap.
    destruct (draws_valid _ _ _ _ Hv Hu) as [H0 H1].
    exists (pickIdx u data). split; [|done]. by apply pickIdx_offset.
  - intros data' Hlen Hsame. rewrite initCentroids_draws. simpl.
    apply list_fmap_ext. intros ? u _.
    unfold pickIdx. rewrite Hlen. by apply pixelAt_ignores_alpha.
Qed.

Lemma initial_centroids_are_pixels_witness :
  validDraws zeroGen /\
  length (fst (initCentroids zeroGen 1 mixedBuffer tt [])) = 1%nat /\
  (forall c, c ∈ fst (initCentroids zeroGen 1 mixedBuffer tt []) ->
     exists i, i ∈ pixelOffsets mixedBuffer /\ pixelAt mixedBuffer i = c) /\
  (forall data', length data' = length mixedBuffer ->
     (forall i, (i mod 4 <> 3)%nat -> data' !! i = mixedBuffer !! i) ->
     fst (initCentroids zeroGen 1 data' tt []) =
     fst (initCentroids zeroGen 1 mixedBuffer tt [])).
Proof.
  assert (validDraws zeroGen) as Hv by (intros []; by vm_compute).
  split; [exact Hv|].
  apply (initial_centroids_are_pixels unit zeroGen mixedBuffer 1 tt Hv).
  - simpl. lia.
  - reflexivity.
Defined.







(** ** A fully transparent buffer *)

Section Transparent.
Variable data : list Z.
Hypothesis all_transparent :
  forall i, i ∈ pixelOffsets data -> transparentAt data i = true.

Lemma accumulate_transparent cs offs sums :
  offs ⊆ pixelOffsets data -> foldM (accumulate data cs) offs sums = Ok sums.
Proof.
  induction offs as [|i offs IH]; intros Hsub; simpl; [done|].
  unfold accumulate at 1. rewrite all_transparent by (apply Hsub; left).
  simpl. apply IH. intros j Hj. apply Hsub. by right.
Qed.

Lemma kmeansPass_transparent cs : kmeansPass data cs = Ok cs.
Proof.
  unfold kmeansPass, passSums. rewrite accumulate_transparent by done. simpl.
  f_equal. induction cs as [|c cs IH]; [done|].
  rewrite fmap_cons. cbn [zip_with]. by rewrite IH.
Qed.

Lemma refine_transparent n cs : refine n data cs = Ok cs.
Proof.
  induction n as [|n IH]; simpl; [done|]. by rewrite kmeansPass_transparent.
Qed.

Lemma labelPixel_transparent palette offs l :
  offs ⊆ pixelOffsets data ->
  length (fold_left (labelPixel data palette) offs l) = length l /\
  (forall p, aget l p = Some (-1) ->
             aget (fold_left (labelPixel data palette) offs l) p = Some (-1)) /\
  (forall i, i ∈ offs -> 0 <= i / 4 < Z.of_nat (length l) ->
             aget (fold_left (labelPixel data palette) offs l) (i / 4) = Some (-1)).
Proof.
  revert l. induction offs as [|i offs IH]; intros l Hsub; simpl.
  { split; [done|]. split; [done|]. by intros i ?%elem_of_nil. }
  assert (labelPixel data palette l i = aset l (i / 4) (-1)) as ->.
  { unfold labelPixel. by rewrite all_transparent by (apply Hsub; left). }
  destruct (IH (aset l (i / 4) (-1))) as (Hlen & Hkeep & Hset).
  { intros j Hj. apply Hsub. by right. }
  rewrite length_aset in *. split; [done|]. split.
  - intros p Hp. apply Hkeep. destruct (decide (i / 4 = p)) as [<-|Hne].
    + apply aget_aset_eq. by eapply aget_Some_range.
    + by rewrite aget_aset_ne.
  - intros j [->|Hj]%elem_of_cons Hr; [|by apply Hset].
    apply Hkeep. by apply aget_aset_eq.
Qed.

(** Every cell of the label map holds the sentinel. *)
Lemma labelPixels_transparent palette width height p :
  Z.of_nat (length data) = 4 * (width * height) ->
  0 <= p < width * height ->
  aget (labelPixels data palette width height) p = Some (-1).
Proof.
  intros Hlen Hp. unfold labelPixels.
  destruct (labelPixel_transparent palette (pixelOffsets data)
              (replicate (Z.to_nat (width * height)) 0)) as (_ & _ & Hset); [done|].
  specialize (Hset (4 * p)).
  replace (4 * p / 4) with p in Hset by (rewrite Z.mul_comm, Z.div_mul; lia).
  apply Hset.
  - unfold pixelOffsets. apply list_elem_of_fmap. exists p. split; [done|].
    apply elem_of_seqZ. rewrite Hlen.
    replace (4 * (width * height) + 3) with (3 + (width * height) * 4) by lia.
    rewrite Z.div_add by lia. rewrite (Z.div_small 3 4) by lia. lia.
  - rewrite length_replicate. lia.
Qed.

Lemma extractRegions_transparent minArea palette width height :
  Z.of_nat (length data) = 4 * (width * height) ->
  extractRegions width height (labelPixels data palette width height) minArea palette
  = Ok (mkScan (replicate (Z.to_nat (width * height)) false) [] palette).
Proof.
  intros Hlen. unfold extractRegions.
  set (init := mkScan _ _ _).
  destruct (foldM_total
              (scanRow width height (labelPixels data palette width height) minArea)
              (fun t => t = init) (seqZ 0 height) init) as (sc & Hsc & ->);
    [done| |done].
  intros y t Hy%elem_of_seqZ ->. unfold scanRow. apply foldM_total; [done|].
  intros x t Hx%elem_of_seqZ ->. exists init. split; [|done].
  unfold scanPixel. rewrite labelPixels_transparent by (done || nia).
  rewrite bool_decide_eq_true_2 by done. by rewrite orb_true_r.
Qed.
End Transparent.

Lemma filter_used_fresh cs : filter (fun p => 0 < pc_count p) (toPalette cs) = [].
Proof.
  unfold toPalette.
  set (f := fun (idx : nat) (c : RGB) => mkPaletteColor _ _ _ _).
  assert (forall i c, pc_count (f i c) = 0) as Hf by done.
  clearbody f. revert f Hf. induction cs as [|c cs IH]; intros f Hf; [done|].
  cbn [imap]. rewrite filter_cons_False by (rewrite Hf; lia).
  apply IH. intros i c'. apply Hf.
Qed.

(** C9.  On a buffer whose pixels all have alpha below 128 the pipeline
    returns, for any [k] and any generator, the artwork with the buffer's
    width and height, no region and an empty palette. *)
Theorem transparent_buffer_gives_empty_art :
  forall (G : Type) (random : G -> Q * G) imageUrl data width height k gen,
    Z.of_nat (length data) = 4 * (width * height) ->
    (forall i, i ∈ pixelOffsets data -> transparentAt data i = true) ->
    processImage random imageUrl data width height k gen =
    Ok (mkProcessedArt width height [] [] imageUrl).
Proof.
  intros G random url data width height k gen Hlen Htr.
  unfold processImage. rewrite processWith_draws. unfold processFrom, quantizeFrom.
  rewrite refine_transparent by done. simpl.
  rewrite extractRegions_transparent by done. simpl.
  by rewrite filter_used_fresh.
Qed.

Lemma transparent_buffer_gives_empty_art_witness :
  processImage zeroGen "img" clearBuffer 2 1 3 tt =
  Ok (mkProcessedArt 2 1 [] [] "img").
Proof.
  apply (transparent_buffer_gives_empty_art unit zeroGen "img" clearBuffer 2 1 3 tt).
  - reflexivity.
  - intros i Hi. vm_compute in Hi.
    repeat (apply elem_of_cons in Hi as [->|Hi]; [reflexivity|]).
    by apply elem_of_nil in Hi.
Defined.

(** ** The assembled artwork *)

Lemma refine_length n data c0 cs :
  refine n data c0 = Ok cs -> length cs = length c0.
Proof.
  revert c0. induction n as [|n IH]; intros c0; simpl.
  { by intros [= <-]. }
  intros (c1 & H1 & Hn)%obind_Ok. apply kmeansPass_spec in H1 as [H1 _].
  rewrite (IH _ Hn). done.
Qed.

Lemma usageCount_pos r rs : r ∈ rs -> 0 < usageCount (reg_colorId r) rs.
Proof.
  intros Hr. unfold usageCount.
  assert (r ∈ filter (fun r' => reg_colorId r' = reg_colorId r) rs) as Hin
    by by apply list_elem_of_filter.
  destruct (filter _ rs); [by apply elem_of_nil in Hin|]. simpl. lia.
Qed.

(** C3.  The artwork's palette is the quantizer's palette, each entry with
    the id it received at creation (position + 1) and with the number of
    regions that reference it as count, filtered by [count > 0].  So a
    centroid no region uses is absent, every region's [colorId] is the id
    of a listed entry, and the entries kept are not renumbered. *)
Theorem palette_filtering_integrity :
  forall (G : Type) (random : G -> Q * G) minArea imageUrl data width height k gen art,
    processWith random minArea imageUrl data width height k gen = Ok art ->
    exists cs,
      length cs = k /\
      fst (getQuantizedPalette random data k gen) = Ok (toPalette cs) /\
      art_palette art =
        filter (fun p => 0 < pc_count p)
          (imap (fun j c =>
                   mkPaletteColor c (Z.of_nat j + 1)
                     (rgbToHex (c_r c) (c_g c) (c_b c))
                     (usageCount (Z.of_nat j + 1) (art_regions art))) cs) /\
      (forall j, (j < k)%nat ->
         usageCount (Z.of_nat j + 1) (art_regions art) = 0 ->
         forall p, p ∈ art_palette art -> pc_id p <> Z.of_nat j + 1) /\
      (forall r, r ∈ art_regions art ->
         exists p, p ∈ art_palette art /\ pc_id p = reg_colorId r) /\
      (forall p, p ∈ art_palette art ->
         exists j c, cs !! j = Some c /\ pc_rgb p = c /\ pc_id p = Z.of_nat j + 1 /\
           pc_count p = usageCount (pc_id p) (art_regions art) /\ 0 < pc_count p).
Proof.
  intros G random minArea url data width height k gen art H.
  unfold processWith in H.
  apply obind_Ok in H as (palette & Hq & H).
  apply obind_Ok in H as (sc & Hex & [= <-]).
  pose proof Hq as Hq'. rewrite getQuantizedPalette_draws in Hq'.
  apply obind_Ok in Hq' as (cs & Href & [= <-]).
  exists cs. simpl.
  destruct (extractRegions_palette _ _ _ _ _ _ (uniqueIds_toPalette cs) Hex)
    as (Hlen & Hent & Hreg).
  set (rs := snd <$> sc_regions sc) in *.
  assert (sc_palette sc =
          imap (fun j c =>
                  mkPaletteColor c (Z.of_nat j + 1)
                    (rgbToHex (c_r c) (c_g c) (c_b c))
                    (usageCount (Z.of_nat j + 1) rs)) cs) as Hpal.
  { apply list_eq. intros i. rewrite list_lookup_imap.
    destruct (cs !! i) as [c|] eqn:Hc; simpl.
    - rewrite (Hent i (mkPaletteColor c (Z.of_nat i + 1)
                         (rgbToHex (c_r c) (c_g c) (c_b c)) 0)).
      + by simpl.
      + unfold toPalette. by rewrite list_lookup_imap, Hc.
    - apply lookup_ge_None. rewrite Hlen. unfold toPalette. rewrite length_imap.
      by apply lookup_ge_None. }
  assert (forall p, p ∈ filter (fun p => 0 < pc_count p) (sc_palette sc) ->
            exists j c, cs !! j = Some c /\ pc_rgb p = c /\ pc_id p = Z.of_nat j + 1 /\
              pc_count p = usageCount (pc_id p) rs /\ 0 < pc_count p) as Hkept.
  { intros p [Hpos Hp]%list_elem_of_filter. rewrite Hpal in Hp.
    apply list_elem_of_lookup in Hp as [j Hj]. rewrite list_lookup_imap in Hj.
    destruct (cs !! j) as [c|] eqn:Hc; [|done]. simpl in Hj. injection Hj as <-.
    by exists j, c. }
  split_and!.
  - rewrite (refine_length _ _ _ _ Href), length_fmap. apply length_draws.
  - done.
  - by rewrite Hpal.
  - intros j Hj Hzero p Hp Hid.
    destruct (Hkept p Hp) as (j' & c & _ & _ & Hid' & Hcnt & Hpos).
    rewrite Hid in Hcnt. lia.
  - intros r (e & -> & He)%list_elem_of_fmap.
    destruct (Hreg e He) as (i & p0 & Hp0 & Hid).
    pose proof (Hent i p0 Hp0) as Hi.
    eexists. split.
    + apply list_elem_of_filter. split; [|by eapply list_elem_of_lookup_2].
      simpl. unfold toPalette in Hp0. rewrite list_lookup_imap in Hp0.
      destruct (cs !! i); [|done]. injection Hp0 as <-. simpl in *.
      rewrite <- Hid.
      assert (e.2 ∈ rs) as Hin by (apply list_elem_of_fmap; by exists e).
      pose proof (usageCount_pos e.2 rs Hin). lia.
    + done.
  - exact Hkept.
Qed.

Lemma palette_filtering_integrity_witness :
  processWith cycleGen 1 "img" stripeImage 4 1 3 0%nat = Ok sparseArt /\
  pc_id <$> art_palette sparseArt = [1; 3] /\
  exists cs,
    length cs = 3%nat /\
    fst (getQuantizedPalette cycleGen stripeImage 3 0%nat) = Ok (toPalette cs) /\
    art_palette sparseArt =
      filter (fun p => 0 < pc_count p)
        (imap (fun j c =>
                 mkPaletteColor c (Z.of_nat j + 1)
                   (rgbToHex (c_r c) (c_g c) (c_b c))
                   (usageCount (Z.of_nat j + 1) (art_regions sparseArt))) cs) /\
    (forall j, (j < 3)%nat ->
       usageCount (Z.of_nat j + 1) (art_regions sparseArt) = 0 ->
       forall p, p ∈ art_palette sparseArt -> pc_id p <> Z.of_nat j + 1) /\
    (forall r, r ∈ art_regions sparseArt ->
       exists p, p ∈ art_palette sparseArt /\ pc_id p = reg_colorId r) /\
    (forall p, p ∈ art_palette sparseArt ->
       exists j c, cs !! j = Some c /\ pc_rgb p = c /\ pc_id p = Z.of_nat j + 1 /\
         pc_count p = usageCount (pc_id p) (art_regions sparseArt) /\ 0 < pc_count p).
Proof.
  split; [vm_compute; reflexivity|]. split; [reflexivity|].
  apply (palette_filtering_integrity nat cycleGen 1 "img" stripeImage 4 1 3 0%nat).
  vm_compute; reflexivity.
Defined.

(** ** The stripe examples *)

(** Whatever is drawn, a centroid seeded from [stripeImage] is red or blue. *)
Lemma stripe_seed u :
  Qle 0 u -> Qlt u 1 ->
  pixelAt stripeImage (pickIdx u stripeImage) = red \/
  pixelAt stripeImage (pickIdx u stripeImage) = blue.
Proof.
  intros H0 H1.
  pose proof (pickIdx_offset u stripeImage H0 H1 ltac:(simpl; lia) eq_refl) as Hoff.
  change (pixelOffsets stripeImage) with [0; 4; 8; 12] in Hoff.
  set (idx := pickIdx u stripeImage) in *. clearbody idx.
  repeat (apply elem_of_cons in Hoff as [->|Hoff]; [vm_compute; auto|]).
  by apply elem_of_nil in Hoff.
Qed.

Lemma stripe_seeds {G} (random : G -> Q * G) gen :
  validDraws random ->
  exists c1 c2, (c1 = red \/ c1 = blue) /\ (c2 = red \/ c2 = blue) /\
    (fun u => pixelAt stripeImage (pickIdx u stripeImage)) <$> draws random 2 gen
    = [c1; c2].
Proof.
  intros Hv. pose proof (length_draws random 2 gen) as Hlen.
  pose proof (fun u => draws_valid random 2 gen u Hv) as Hval.
  destruct (draws random 2 gen) as [|u1 [|u2 [|u3 l]]]; try done.
  destruct (Hval u1) as [? ?]; [left|].
  destruct (Hval u2) as [? ?]; [right; left|].
  eexists _, _. split; [by apply (stripe_seed u1)|].
  split; [by apply (stripe_seed u2)|]. done.
Qed.

(** With the threshold [minRegionArea] = 10 that [processImage] fixes, the
    two components of two pixels are dropped and the artwork is empty,
    whatever is drawn. *)
Lemma stripe_with_fixed_threshold :
  forall (G : Type) (random : G -> Q * G) imageUrl gen,
    validDraws random ->
    processImage random imageUrl stripeImage 4 1 2 gen =
    Ok (mkProcessedArt 4 1 [] [] imageUrl).
Proof.
  intros G random url gen Hv. unfold processImage. rewrite processWith_draws.
  destruct (stripe_seeds random gen Hv) as (c1 & c2 & Hc1 & Hc2 & ->).
  destruct Hc1 as [-> | ->], Hc2 as [-> | ->]; vm_compute; reflexivity.
Qed.

(** C7, as stated, has the pipeline return two palette entries and two
    regions of area 2 for the 4 x 1 image.  The pipeline has no threshold
    argument: [minRegionArea] is 10, and on this image it returns an empty
    palette and no region. *)
Lemma short_stripe_is_dropped :
  processImage zeroGen "img" stripeImage 4 1 2 tt
    = Ok (mkProcessedArt 4 1 [] [] "img") /\
  ~ (exists art,
       processImage zeroGen "img" stripeImage 4 1 2 tt = Ok art /\
       length (art_palette art) = 2%nat /\ length (art_regions art) = 2%nat).
Proof.
  split; [vm_compute; reflexivity|].
  intros (art & Hart & _ & Hregs). vm_compute in Hart.
  injection Hart as <-. done.
Qed.

(** Whatever is drawn, a centroid seeded from [longStripe] is red or blue. *)
Lemma long_stripe_seed u :
  Qle 0 u -> Qlt u 1 ->
  pixelAt longStripe (pickIdx u longStripe) = red \/
  pixelAt longStripe (pickIdx u longStripe) = blue.
Proof.
  intros H0 H1.
  pose proof (pickIdx_offset u longStripe H0 H1 ltac:(simpl; lia) eq_refl) as Hoff.
  change (pixelOffsets longStripe)
    with [0; 4; 8; 12; 16; 20; 24; 28; 32; 36; 40; 44; 48; 52; 56; 60; 64; 68; 72; 76]
    in Hoff.
  set (idx := pickIdx u longStripe) in *. clearbody idx.
  repeat (apply elem_of_cons in Hoff as [->|Hoff]; [vm_compute; auto|]).
  by apply elem_of_nil in Hoff.
Qed.

Lemma long_stripe_seeds {G} (random : G -> Q * G) gen :
  validDraws random ->
  exists c1 c2, (c1 = red \/ c1 = blue) /\ (c2 = red \/ c2 = blue) /\
    (fun u => pixelAt longStripe (pickIdx u longStripe)) <$> draws random 2 gen
    = [c1; c2].
Proof.
  intros Hv. pose proof (length_draws random 2 gen) as Hlen.
  pose proof (fun u => draws_valid random 2 gen u Hv) as Hval.
  destruct (draws random 2 gen) as [|u1 [|u2 [|u3 l]]]; try done.
  destruct (Hval u1) as [? ?]; [left|].
  destruct (Hval u2) as [? ?]; [right; left|].
  eexists _, _. split; [by apply (long_stripe_seed u1)|].
  split; [by apply (long_stripe_seed u2)|]. done.
Qed.

(** C7, amended.  The pipeline's minimum region area is 10.  For the
    4 x 1 image red, red, blue, blue with two colours every run (whatever
    the draws in [0, 1)) returns an empty palette and no region.  For the
    20 x 1 image of ten red and ten blue pixels with two colours every run
    returns an artwork whose palette consists of a red and a blue entry,
    each used once, and whose two regions have the pixels 0-9 and 10-19,
    area 10 and the colour ids of red and blue; the edge from (10, 0) to
    (10, 1) is on both boundaries. *)
Theorem long_stripe_end_to_end :
  forall (G : Type) (random : G -> Q * G) imageUrl gen,
    validDraws random ->
    processImage random imageUrl stripeImage 4 1 2 gen
      = Ok (mkProcessedArt 4 1 [] [] imageUrl) /\
    exists art pr pb,
      processImage random imageUrl longStripe 20 1 2 gen = Ok art /\
      art_width art = 20 /\ art_height art = 1 /\
      (art_palette art = [pr; pb] \/ art_palette art = [pb; pr]) /\
      pc_rgb pr = red /\ pc_hex pr = "#ff0000"%string /\ pc_count pr = 1 /\
      pc_rgb pb = blue /\ pc_hex pb = "#0000ff"%string /\ pc_count pb = 1 /\
      art_regions art =
        [mkRegion (traceRegionBoundary [0; 1; 2; 3; 4; 5; 6; 7; 8; 9] 20 1 0 0)
                  (pc_id pr)
                  (calculateLabelPoint [0; 1; 2; 3; 4; 5; 6; 7; 8; 9] 20) 10;
         mkRegion (traceRegionBoundary [10; 11; 12; 13; 14; 15; 16; 17; 18; 19]
                                       20 1 10 0)
                  (pc_id pb)
                  (calculateLabelPoint [10; 11; 12; 13; 14; 15; 16; 17; 18; 19] 20)
                  10] /\
      mkEdge 10 0 10 1 ∈ boundaryEdges [0; 1; 2; 3; 4; 5; 6; 7; 8; 9] 20 1 /\
      mkEdge 10 0 10 1 ∈ boundaryEdges [10; 11; 12; 13; 14; 15; 16; 17; 18; 19] 20 1.
Proof.
  intros G random url gen Hv. split; [by apply stripe_with_fixed_threshold|].
  unfold processImage. rewrite processWith_draws.
  destruct (long_stripe_seeds random gen Hv) as (c1 & c2 & Hc1 & Hc2 & ->).
  assert (mkEdge 10 0 10 1 ∈ boundaryEdges [0; 1; 2; 3; 4; 5; 6; 7; 8; 9] 20 1) as He1
    by (apply (bool_decide_unpack _); by vm_compute).
  assert (mkEdge 10 0 10 1
            ∈ boundaryEdges [10; 11; 12; 13; 14; 15; 16; 17; 18; 19] 20 1) as He2
    by (apply (bool_decide_unpack _); by vm_compute).
  destruct Hc1 as [-> | ->], Hc2 as [-> | ->].
  - eexists _, (mkPaletteColor red 2 "#ff0000" 1), (mkPaletteColor blue 1 "#0000ff" 1).
    split; [vm_compute; reflexivity|].
    split_and!; try done; try (vm_compute; reflexivity). by right.
  - eexists _, (mkPaletteColor red 1 "#ff0000" 1), (mkPaletteColor blue 2 "#0000ff" 1).
    split; [vm_compute; reflexivity|].
    split_and!; try done; try (vm_compute; reflexivity). by left.
  - eexists _, (mkPaletteColor red 2 "#ff0000" 1), (mkPaletteColor blue 1 "#0000ff" 1).
    split; [vm_compute; reflexivity|].
    split_and!; try done; try (vm_compute; reflexivity). by right.
  - eexists _, (mkPaletteColor red 1 "#ff0000" 1), (mkPaletteColor blue 2 "#0000ff" 1).
    split; [vm_compute; reflexivity|].
    split_and!; try done; try (vm_compute; reflexivity). by left.
Qed.

Lemma long_stripe_end_to_end_witness :
  validDraws zeroGen /\
  processImage zeroGen "img" stripeImage 4 1 2 tt
    = Ok (mkProcessedArt 4 1 [] [] "img") /\
  exists art pr pb,
    processImage zeroGen "img" longStripe 20 1 2 tt = Ok art /\
    art_width art = 20 /\ art_height art = 1 /\
    (art_palette art = [pr; pb] \/ art_palette art = [pb; pr]) /\
    pc_rgb pr = red /\ pc_hex pr = "#ff0000"%string /\ pc_count pr = 1 /\
    pc_rgb pb = blue /\ pc_hex pb = "#0000ff"%string /\ pc_count pb = 1 /\
    art_regions art =
      [mkRegion (traceRegionBoundary [0; 1; 2; 3; 4; 5; 6; 7; 8; 9] 20 1 0 0)
                (pc_id pr)
                (calculateLabelPoint [0; 1; 2; 3; 4; 5; 6; 7; 8; 9] 20) 10;
       mkRegion (traceRegionBoundary [10; 11; 12; 13; 14; 15; 16; 17; 18; 19]
                                     20 1 10 0)
                (pc_id pb)
                (calculateLabelPoint [10; 11; 12; 13; 14; 15; 16; 17; 18; 19] 20)
                10] /\
    mkEdge 10 0 10 1 ∈ boundaryEdges [0; 1; 2; 3; 4; 5; 6; 7; 8; 9] 20 1 /\
    mkEdge 10 0 10 1 ∈ boundaryEdges [10; 11; 12; 13; 14; 15; 16; 17; 18; 19] 20 1.
Proof.
  assert (validDraws zeroGen) as Hv by (intros []; by vm_compute).
  split; [exact Hv|].
  apply (long_stripe_end_to_end unit zeroGen "img" tt Hv).
Defined.

(** ** The pipeline returns *)

Lemma refine_total n data c0 :
  c0 <> [] -> exists cs, refine n data c0 = Ok cs /\ length cs = length c0.
Proof.
  revert c0. induction n as [|n IH]; intros c0 Hne; simpl; [by exists c0|].
  destruct (kmeansPass_total data c0 Hne) as [c1 H1].
  rewrite H1. simpl. apply kmeansPass_spec in H1 as [Hlen _].
  destruct (IH c1) as (cs & -> & Hcs); [by destruct c0, c1|].
  exists cs. split; [done|lia].
Qed.

Lemma labelPixels_valid data palette width height :
  palette <> [] ->
  validLabels width height (labelPixels data palette width height) (length palette).
Proof.
  intros Hne.
  set (P := fun v : Z => v = -1 \/ 0 <= v < Z.of_nat (length palette)).
  assert (forall offs l, Forall P l ->
            Forall P (fold_left (labelPixel data palette) offs l) /\
            length (fold_left (labelPixel data palette) offs l) = length l) as Hfold.
  { induction offs as [|i offs IH]; intros l Hl; simpl; [done|].
    assert (Forall P (labelPixel data palette l i) /\
            length (labelPixel data palette l i) = length l) as [HP Hlen].
    { unfold labelPixel, aset.
      destruct (transparentAt data i), (i / 4 <? 0);
        rewrite ?length_insert; (split; [|done]); try done;
        apply Forall_insert; try done; [by left|right].
      pose proof (nearest_lt (pixelAt data i) (pc_rgb <$> palette)) as Hlt.
      rewrite length_fmap in Hlt. specialize (Hlt ltac:(by destruct palette)). lia. }
    destruct (IH _ HP) as [? ?]. split; [done|congruence]. }
  destruct (Hfold (pixelOffsets data) (replicate (Z.to_nat (width * height)) 0))
    as [HP Hlen].
  { apply Forall_replicate. right. destruct palette; [done|]. simpl. lia. }
  rewrite length_replicate in Hlen. fold (labelPixels data palette width height) in *.
  intros p Hp. unfold inGrid in Hp.
  destruct (aget_in_range (labelPixels data palette width height) p) as [v Hv]; [lia|].
  assert (P v) as [->|Hr].
  { unfold aget in Hv. destruct (p <? 0); [done|].
    rewrite Forall_lookup in HP. by eapply HP. }
  - by left.
  - right. by exists v.
Qed.

(** With at least one colour requested, the pipeline returns an artwork. *)
Lemma processWith_total {G} (random : G -> Q * G) minArea url data width height k gen :
  (0 < k)%nat ->
  exists art, processWith random minArea url data width height k gen = Ok art.
Proof.
  intros Hk. rewrite processWith_draws. unfold processFrom, quantizeFrom.
  destruct (refine_total iterations data
              ((fun u => pixelAt data (pickIdx u data)) <$> draws random k gen))
    as (cs & -> & Hlen).
  { intros E. apply (f_equal length) in E.
    rewrite length_fmap, length_draws in E. simpl in E. lia. }
  rewrite length_fmap, length_draws in Hlen. simpl.
  destruct (extractRegions_total width height
              (labelPixels data (toPalette cs) width height) minArea (toPalette cs))
    as [sc ->]; [|by eexists].
  apply labelPixels_valid. intros E. apply (f_equal length) in E.
  unfold toPalette in E. rewrite length_imap in E. simpl in E. lia.
Qed.

(** The paths of the two halves of a 4 x 1 image, as strings; the
    segment [M2,0L2,1] occurs in both. *)
Lemma stripe_paths :
  traceRegionBoundary [0; 1] 4 1 0 0 =
    "M0,0L1,0 M0,1L1,1 M0,0L0,1 M1,0L2,0 M1,1L2,1 M2,0L2,1 "%string /\
  traceRegionBoundary [2; 3] 4 1 2 0 =
    "M2,0L3,0 M2,1L3,1 M2,0L2,1 M3,0L4,0 M3,1L4,1 M4,0L4,1 "%string.
Proof. split; vm_compute; reflexivity. Qed.


(** * Further properties *)

(** ** Hexadecimal colours *)

Lemma toHexFrom_step fuel m d acc :
  0 <= d < 16 ->
  toHexFrom (S fuel) (16 * m + d) acc =
  if m =? 0 then String (hexDigit d) acc
  else toHexFrom fuel m (String (hexDigit d) acc).
Proof.
  intros Hd. cbn [toHexFrom].
  replace ((16 * m + d) mod 16) with d
    by (rewrite Z.add_comm, Z.mul_comm, Z.mod_add, Z.mod_small; lia).
  replace ((16 * m + d) / 16) with m
    by (rewrite Z.add_comm, Z.mul_comm, Z.div_add, Z.div_small; lia).
  done.
Qed.

Lemma hexDigit_inj d d' :
  0 <= d < 16 -> 0 <= d' < 16 -> hexDigit d = hexDigit d' -> d = d'.
Proof.
  intros Hd Hd' H.
  assert (d = 0 \/ d = 1 \/ d = 2 \/ d = 3 \/ d = 4 \/ d = 5 \/ d = 6 \/ d = 7 \/
          d = 8 \/ d = 9 \/ d = 10 \/ d = 11 \/ d = 12 \/ d = 13 \/ d = 14 \/ d = 15)
    as Hc by lia.
  assert (d' = 0 \/ d' = 1 \/ d' = 2 \/ d' = 3 \/ d' = 4 \/ d' = 5 \/ d' = 6 \/
          d' = 7 \/ d' = 8 \/ d' = 9 \/ d' = 10 \/ d' = 11 \/ d' = 12 \/ d' = 13 \/
          d' = 14 \/ d' = 15) as Hc' by lia.
  repeat (destruct Hc as [-> | Hc]); try subst d;
    repeat (destruct Hc' as [-> | Hc']); try subst d';
    first [reflexivity | discriminate H].
Qed.

Lemma byte_nibbles v :
  isByte v -> 0 <= v / 16 < 16 /\ 0 <= v mod 16 < 16 /\ v = 16 * (v / 16) + v mod 16.
Proof.
  unfold isByte. intros Hv.
  pose proof (Z.div_mod v 16 ltac:(lia)). pose proof (Z.mod_pos_bound v 16 ltac:(lia)).
  assert (0 <= v / 16) by (apply Z.div_pos; lia).
  assert (v / 16 < 16) by (apply Z.div_lt_upper_bound; lia).
  lia.
Qed.

(** The digits [rgbToHex] writes for three bytes. *)
Lemma rgbToHex_digits r g b :
  isByte r -> isByte g -> isByte b ->
  rgbToHex r g b = String "#" (hexByte r (hexByte g (hexByte b EmptyString))).
Proof.
  intros Hr Hg Hb.
  destruct (byte_nibbles r Hr) as (Hr1 & Hr0 & Er).
  destruct (byte_nibbles g Hg) as (Hg1 & Hg0 & Eg).
  destruct (byte_nibbles b Hb) as (Hb1 & Hb0 & Eb).
  unfold rgbToHex, hexByte. f_equal.
  set (r1 := r / 16) in *. set (r0 := r mod 16) in *.
  set (g1 := g / 16) in *. set (g0 := g mod 16) in *.
  set (b1 := b / 16) in *. set (b0 := b mod 16) in *.
  rewrite !Z.shiftl_mul_pow2 by lia.
  set (n := 1 * 2 ^ 24 + r * 2 ^ 16 + g * 2 ^ 8 + b).
  assert (n = 16 * (16 * (16 * (16 * (16 * (16 * 1 + r1) + r0) + g1) + g0) + b1) + b0)
    as Hn by (unfold n; lia).
  unfold toString16.
  assert (Z.log2 n = 24) as ->.
  { apply Z.log2_unique; [lia|]. unfold n. unfold isByte in *. lia. }
  change (S (Z.to_nat 24)) with 25%nat. rewrite Hn.
  rewrite toHexFrom_step by done.
  destruct (Z.eqb_spec (16 * (16 * (16 * (16 * (16 * 1 + r1) + r0) + g1) + g0) + b1) 0);
    [lia|].
  rewrite toHexFrom_step by done.
  destruct (Z.eqb_spec (16 * (16 * (16 * (16 * 1 + r1) + r0) + g1) + g0) 0); [lia|].
  rewrite toHexFrom_step by done.
  destruct (Z.eqb_spec (16 * (16 * (16 * 1 + r1) + r0) + g1) 0); [lia|].
  rewrite toHexFrom_step by done.
  destruct (Z.eqb_spec (16 * (16 * 1 + r1) + r0) 0); [lia|].
  rewrite toHexFrom_step by done.
  destruct (Z.eqb_spec (16 * 1 + r1) 0); [lia|].
  rewrite toHexFrom_step by done.
  destruct (Z.eqb_spec 1 0); [lia|].
  replace 1 with (16 * 0 + 1) at 1 by lia.
  rewrite toHexFrom_step by lia. done.
Qed.

Lemma rgbToHex_inj r g b r' g' b' :
  isByte r -> isByte g -> isByte b -> isByte r' -> isByte g' -> isByte b' ->
  rgbToHex r g b = rgbToHex r' g' b' -> r = r' /\ g = g' /\ b = b'.
Proof.
  intros Hr Hg Hb Hr' Hg' Hb'. rewrite !rgbToHex_digits by done.
  unfold hexByte. intros [= E1 E2 E3 E4 E5 E6].
  destruct (byte_nibbles r Hr) as (? & ? & ?), (byte_nibbles g Hg) as (? & ? & ?),
    (byte_nibbles b Hb) as (? & ? & ?), (byte_nibbles r' Hr') as (? & ? & ?),
    (byte_nibbles g' Hg') as (? & ? & ?), (byte_nibbles b' Hb') as (? & ? & ?).
  apply hexDigit_inj in E1, E2, E3, E4, E5, E6; try done. lia.
Qed.

(** X1.  For three bytes [rgbToHex] writes ["#"] followed by six lower-case
    hexadecimal digits, two per channel in the order red, green, blue, and
    different colours get different strings. *)
Theorem rgbToHex_bytes :
  forall r g b, isByte r -> isByte g -> isByte b ->
    rgbToHex r g b = String "#" (hexByte r (hexByte g (hexByte b EmptyString))) /\
    String.length (rgbToHex r g b) = 7%nat /\
    (forall r' g' b', isByte r' -> isByte g' -> isByte b' ->
       rgbToHex r g b = rgbToHex r' g' b' -> r = r' /\ g = g' /\ b = b').
Proof.
  intros r g b Hr Hg Hb. split_and!.
  - by apply rgbToHex_digits.
  - by rewrite rgbToHex_digits.
  - intros r' g' b' Hr' Hg' Hb'. by apply rgbToHex_inj.
Qed.

Lemma rgbToHex_bytes_witness :
  rgbToHex 255 128 7 = "#ff8007"%string /\
  String.length (rgbToHex 255 128 7) = 7%nat /\
  (forall r' g' b', isByte r' -> isByte g' -> isByte b' ->
     rgbToHex 255 128 7 = rgbToHex r' g' b' -> 255 = r' /\ 128 = g' /\ 7 = b').
Proof.
  apply (rgbToHex_bytes 255 128 7); unfold isByte; lia.
Defined.

(** ** The canvas size *)

Lemma roundDiv_le s c m : 0 < c -> 0 <= s <= m * c -> 0 <= roundDiv s c <= m.
Proof.
  intros Hc Hs. pose proof (roundDiv_spec s c Hc). nia.
Qed.

(** X2.  The canvas never exceeds 600 pixels on a side.  An image that
    fits is left alone; otherwise the longer side becomes exactly 600 and
    the shorter side is at most as long.  Resizing a resized size changes
    nothing. *)
Theorem canvasSize_bounds :
  forall width height, 0 <= width -> 0 <= height ->
    0 <= (canvasSize width height).1 <= 600 /\
    0 <= (canvasSize width height).2 <= 600 /\
    (width <= 600 -> height <= 600 -> canvasSize width height = (width, height)) /\
    (600 < width \/ 600 < height ->
     Z.max (canvasSize width height).1 (canvasSize width height).2 = 600) /\
    (height < width -> (canvasSize width height).2 <= (canvasSize width height).1) /\
    (width <= height -> (canvasSize width height).1 <= (canvasSize width height).2) /\
    canvasSize (canvasSize width height).1 (canvasSize width height).2
    = canvasSize width height.
Proof.
  intros width height Hw Hh. unfold canvasSize, maxSize.
  destruct (Z.ltb_spec height width), (Z.ltb_spec 600 width),
    (Z.ltb_spec 600 height); simpl;
    try (pose proof (roundDiv_le (height * 600) width 600 ltac:(lia) ltac:(nia)));
    try (pose proof (roundDiv_le (width * 600) height 600 ltac:(lia) ltac:(nia)));
    repeat match goal with
    | |- context [?a <? ?b] => destruct (Z.ltb_spec a b)
    end; simpl; split_and!; try done; try lia.
Qed.

Lemma canvasSize_bounds_witness :
  0 <= (canvasSize 1200 900).1 <= 600 /\
  0 <= (canvasSize 1200 900).2 <= 600 /\
  (1200 <= 600 -> 900 <= 600 -> canvasSize 1200 900 = (1200, 900)) /\
  (600 < 1200 \/ 600 < 900 ->
   Z.max (canvasSize 1200 900).1 (canvasSize 1200 900).2 = 600) /\
  (900 < 1200 -> (canvasSize 1200 900).2 <= (canvasSize 1200 900).1) /\
  (1200 <= 900 -> (canvasSize 1200 900).1 <= (canvasSize 1200 900).2) /\
  canvasSize (canvasSize 1200 900).1 (canvasSize 1200 900).2 = canvasSize 1200 900.
Proof. apply (canvasSize_bounds 1200 900); lia. Defined.

(** X3.  When the width is the longer side and exceeds 600, the new height
    is the height scaled by [600 / width] up to half a pixel, and it is 0
    exactly when the image is more than 1200 times as wide as it is high;
    the same holds with the sides exchanged.  A canvas side of 0 is what a
    very thin image gets. *)
Theorem canvasSize_scaling :
  forall width height, 0 <= width -> 0 <= height ->
    (height < width -> 600 < width ->
     (canvasSize width height).1 = 600 /\
     2 * Z.abs ((canvasSize width height).2 * width - 600 * height) <= width /\
     ((canvasSize width height).2 = 0 <-> 1200 * height < width)) /\
    (width <= height -> 600 < height ->
     (canvasSize width height).2 = 600 /\
     2 * Z.abs ((canvasSize width height).1 * height - 600 * width) <= height /\
     ((canvasSize width height).1 = 0 <-> 1200 * width < height)).
Proof.
  intros width height Hw Hh. unfold canvasSize, maxSize. split.
  - intros Hlt Hbig.
    destruct (Z.ltb_spec height width); [|lia].
    destruct (Z.ltb_spec 600 width); [|lia]. simpl.
    pose proof (roundDiv_spec (height * 600) width ltac:(lia)).
    split_and!; [done|lia|split; nia].
  - intros Hle Hbig.
    destruct (Z.ltb_spec height width); [lia|].
    destruct (Z.ltb_spec 600 height); [|lia]. simpl.
    pose proof (roundDiv_spec (width * 600) height ltac:(lia)).
    split_and!; [done|lia|split; nia].
Qed.

Lemma canvasSize_scaling_witness :
  ((canvasSize 1300 1).1 = 600 /\
   2 * Z.abs ((canvasSize 1300 1).2 * 1300 - 600 * 1) <= 1300 /\
   ((canvasSize 1300 1).2 = 0 <-> 1200 * 1 < 1300)) /\
  ((canvasSize 400 800).2 = 600 /\
   2 * Z.abs ((canvasSize 400 800).1 * 800 - 600 * 400) <= 800 /\
   ((canvasSize 400 800).1 = 0 <-> 1200 * 400 < 800)).
Proof.
  split.
  - apply (proj1 (canvasSize_scaling 1300 1 ltac:(lia) ltac:(lia))); lia.
  - apply (proj2 (canvasSize_scaling 400 800 ltac:(lia) ltac:(lia))); lia.
Defined.

(** ** The label map *)

Lemma pixelOffsets_wf data width height :
  Z.of_nat (length data) = 4 * (width * height) ->
  pixelOffsets data = (fun n => 4 * n) <$> seqZ 0 (width * height).
Proof.
  intros Hlen. unfold pixelOffsets. rewrite Hlen.
  replace (4 * (width * height) + 3) with (3 + (width * height) * 4) by lia.
  rewrite Z.div_add by lia. by rewrite (Z.div_small 3 4) by lia.
Qed.

Lemma labelPixel_prefix data palette n m :
  (m <= n)%nat ->
  let l := fold_left (labelPixel data palette)
             ((fun k => 4 * k) <$> seqZ 0 (Z.of_nat m)) (replicate n 0) in
  length l = n /\
  forall p, 0 <= p < Z.of_nat m ->
    aget l p = Some (if transparentAt data (4 * p) then -1
                     else Z.of_nat (nearest (pixelAt data (4 * p)) (pc_rgb <$> palette))).
Proof.
  induction m as [|m IH]; intros Hm; cbv zeta.
  { simpl. split; [apply length_replicate|lia]. }
  destruct (IH ltac:(lia)) as [Hlen Hval]. cbv zeta in Hlen, Hval.
  rewrite seqZ_S, fmap_app, fold_left_app. simpl.
  set (l := fold_left _ _ _) in *.
  set (v := if transparentAt data (4 * Z.of_nat m) then -1
            else Z.of_nat (nearest (pixelAt data (4 * Z.of_nat m))
                                   (pc_rgb <$> palette))).
  assert (labelPixel data palette l (4 * (0 + Z.of_nat m)) = aset l (Z.of_nat m) v) as ->.
  { unfold labelPixel, v. rewrite Z.add_0_l.
    replace (4 * Z.of_nat m / 4) with (Z.of_nat m)
      by (rewrite Z.mul_comm, Z.div_mul; lia).
    by destruct (transparentAt data (4 * Z.of_nat m)). }
  split; [by rewrite length_aset|].
  intros p Hp. destruct (decide (p = Z.of_nat m)) as [->|Hne].
  - rewrite aget_aset_eq by lia. done.
  - rewrite aget_aset_ne by done. apply Hval. lia.
Qed.

(** X4.  On a buffer of [4 * width * height] bytes the label map has one
    entry per pixel: the sentinel -1 when the pixel's alpha is below 128,
    otherwise the index of the first palette entry at minimal distance
    from the pixel's colour; an entry is -1 only for a transparent pixel. *)
Theorem labelPixels_pointwise :
  forall data palette width height,
    Z.of_nat (length data) = 4 * (width * height) ->
    length (labelPixels data palette width height) = Z.to_nat (width * height) /\
    forall p, 0 <= p < width * height ->
      aget (labelPixels data palette width height) p =
        Some (if transparentAt data (4 * p) then -1
              else Z.of_nat (nearest (pixelAt data (4 * p)) (pc_rgb <$> palette))) /\
      (aget (labelPixels data palette width height) p = Some (-1) <->
       transparentAt data (4 * p) = true) /\
      (transparentAt data (4 * p) = false -> palette <> [] ->
       isNearest (pixelAt data (4 * p)) (pc_rgb <$> palette)
         (nearest (pixelAt data (4 * p)) (pc_rgb <$> palette))).
Proof.
  intros data palette width height Hlen. unfold labelPixels.
  rewrite (pixelOffsets_wf data width height Hlen).
  assert (0 <= width * height) as Hn by lia.
  destruct (labelPixel_prefix data palette (Z.to_nat (width * height))
              (Z.to_nat (width * height)) ltac:(lia)) as [Hl Hval].
  cbv zeta in Hl, Hval. rewrite Z2Nat.id in Hl, Hval by done.
  split; [done|]. intros p Hp. rewrite (Hval p Hp). split_and!.
  - done.
  - destruct (transparentAt data (4 * p)); [done|]. split; [|done].
    intros [= E]. lia.
  - intros _ Hne. apply nearest_spec. by destruct palette.
Qed.

Lemma labelPixels_pointwise_witness :
  length (labelPixels mixedBuffer samplePalette 2 1) = Z.to_nat (2 * 1) /\
  forall p, 0 <= p < 2 * 1 ->
    aget (labelPixels mixedBuffer samplePalette 2 1) p =
      Some (if transparentAt mixedBuffer (4 * p) then -1
            else Z.of_nat (nearest (pixelAt mixedBuffer (4 * p))
                                   (pc_rgb <$> samplePalette))) /\
    (aget (labelPixels mixedBuffer samplePalette 2 1) p = Some (-1) <->
     transparentAt mixedBuffer (4 * p) = true) /\
    (transparentAt mixedBuffer (4 * p) = false -> samplePalette <> [] ->
     isNearest (pixelAt mixedBuffer (4 * p)) (pc_rgb <$> samplePalette)
       (nearest (pixelAt mixedBuffer (4 * p)) (pc_rgb <$> samplePalette))).
Proof. apply (labelPixels_pointwise mixedBuffer samplePalette 2 1). reflexivity. Defined.

(** ** When the pipeline returns *)

Lemma accumulate_no_centroid data offs :
  (exists i, i ∈ offs /\ transparentAt data i = false) ->
  foldM (accumulate data []) offs [] = TypeError.
Proof.
  induction offs as [|i offs IH]; intros (j & Hj & Ht).
  { by apply elem_of_nil in Hj. }
  simpl. unfold accumulate at 1.
  destruct (transparentAt data i) eqn:Hi; simpl; [|done].
  apply IH. apply elem_of_cons in Hj as [->|Hj]; [congruence|]. by exists j.
Qed.

(** X5.  With at least one colour requested the pipeline returns an
    artwork, whatever the buffer, the dimensions and the draws: it neither
    throws nor loops.  The artwork carries the given width, height and
    URL, and its palette has at most [numColors] entries. *)
Theorem pipeline_returns :
  forall (G : Type) (random : G -> Q * G) imageUrl data width height numColors gen,
    (0 < numColors)%nat ->
    exists art,
      processImage random imageUrl data width height numColors gen = Ok art /\
      art_width art = width /\ art_height art = height /\
      art_originalUrl art = imageUrl /\
      (length (art_palette art) <= numColors)%nat.
Proof.
  intros G random url data width height k gen Hk. unfold processImage.
  destruct (processWith_total random minRegionArea url data width height k gen Hk)
    as [art Hart].
  exists art. split; [done|].
  rewrite processWith_draws in Hart. unfold processFrom, quantizeFrom in Hart.
  apply obind_Ok in Hart as (palette & Hq & Hart).
  apply obind_Ok in Hq as (cs & Href & [= <-]).
  apply obind_Ok in Hart as (sc & Hex & [= <-]). simpl. split_and!; try done.
  apply refine_length in Href. rewrite length_fmap, length_draws in Href.
  destruct (extractRegions_palette _ _ _ _ _ _ (uniqueIds_toPalette cs) Hex)
    as (Hlen & _ & _).
  etrans; [apply length_filter|]. rewrite Hlen. unfold toPalette.
  rewrite length_imap. lia.
Qed.

Lemma pipeline_returns_witness :
  exists art,
    processImage cycleGen "img" mixedBuffer 2 1 3 0%nat = Ok art /\
    art_width art = 2 /\ art_height art = 1 /\
    art_originalUrl art = "img"%string /\
    (length (art_palette art) <= 3)%nat.
Proof. apply (pipeline_returns nat cycleGen "img" mixedBuffer 2 1 3 0%nat). lia. Defined.

(** X6.  With zero colours requested the pipeline throws a [TypeError]
    exactly when the buffer holds an opaque pixel: the first opaque pixel
    of the first pass finds no sum to add to. *)
Theorem zero_colours_throw :
  forall (G : Type) (random : G -> Q * G) imageUrl data width height gen,
    Z.of_nat (length data) = 4 * (width * height) ->
    (processImage random imageUrl data width height 0 gen = TypeError <->
     exists i, i ∈ pixelOffsets data /\ transparentAt data i = false).
Proof.
  intros G random url data width height gen Hlen.
  unfold processImage. rewrite processWith_draws. simpl. split.
  - intros Hthrow.
    destruct (decide (Exists (fun i => transparentAt data i = false) (pixelOffsets data)))
      as [Hex|Hall].
    { apply Exists_exists in Hex. done. }
    apply not_Exists_Forall in Hall; [|intros i; apply _].
    rewrite Forall_forall in Hall.
    assert (forall i, i ∈ pixelOffsets data -> transparentAt data i = true) as Htr.
    { intros i Hi. specialize (Hall i Hi). simpl in Hall.
      by destruct (transparentAt data i). }
    unfold processFrom, quantizeFrom in Hthrow.
    rewrite refine_transparent in Hthrow by done. simpl in Hthrow.
    rewrite extractRegions_transparent in Hthrow by done. done.
  - intros Hop. unfold processFrom, quantizeFrom, iterations, refine, kmeansPass, passSums.
    simpl. by rewrite accumulate_no_centroid.
Qed.

Lemma zero_colours_throw_witness :
  processImage zeroGen "img" mixedBuffer 2 1 0 tt = TypeError <->
  exists i, i ∈ pixelOffsets mixedBuffer /\ transparentAt mixedBuffer i = false.
Proof. apply (zero_colours_throw unit zeroGen "img" mixedBuffer 2 1 tt). reflexivity. Defined.

(** ** What the scan covers *)

(** Induction over the scan with the scan invariant at hand. *)
Lemma extractRegions_ind_inv (E : Scan -> Prop) width height pixelLabels minArea
    palette sc :
  E (mkScan (replicate (Z.to_nat (width * height)) false) [] palette) ->
  (forall x y st st', 0 <= x < width -> 0 <= y < height ->
     scanInv width height pixelLabels minArea (y * width + x) st -> E st ->
     scanPixel width height pixelLabels minArea y st x = Ok st' -> E st') ->
  extractRegions width height pixelLabels minArea palette = Ok sc ->
  scanInv width height pixelLabels minArea (Z.max 0 height * Z.max 0 width) sc /\ E sc.
Proof.
  intros H0 Hstep Hex. unfold extractRegions in Hex.
  refine (foldM_seqZ_inv (scanRow width height pixelLabels minArea)
            (fun y t => scanInv width height pixelLabels minArea
                          (y * Z.max 0 width) t /\ E t) height _ sc _ _ Hex).
  { split; [apply scanInv_init|done]. }
  intros y t t' Hy [Ht HE] Hrow. unfold scanRow in Hrow.
  replace ((y + 1) * Z.max 0 width) with (y * Z.max 0 width + Z.max 0 width) by lia.
  refine (foldM_seqZ_inv (scanPixel width height pixelLabels minArea y)
            (fun x u => scanInv width height pixelLabels minArea
                          (y * Z.max 0 width + x) u /\ E u) width t t' _ _ Hrow).
  { by rewrite Z.add_0_r. }
  intros x u u' Hx [Hu HEu] Hpix. rewrite Z.max_r in * by lia. split.
  - rewrite Z.add_assoc. by eapply scanInv_step.
  - by eapply Hstep.
Qed.

Lemma connected_same_component width height pixelLabels s p q :
  inGrid width height s -> connected width height pixelLabels s p ->
  (connected width height pixelLabels p q <-> connected width height pixelLabels s q).
Proof.
  intros Hs Hsp. split; intros H.
  - by etrans.
  - etrans; [|exact H]. by apply connected_sym.
Qed.

Lemma scanCover_step width height pixelLabels minArea x y st st' :
  0 <= x < width -> 0 <= y < height ->
  scanInv width height pixelLabels minArea (y * width + x) st ->
  scanCover width height pixelLabels minArea st ->
  scanPixel width height pixelLabels minArea y st x = Ok st' ->
  scanCover width height pixelLabels minArea st'.
Proof.
  intros Hx Hy Hinv Hcov Hstep.
  pose proof (cell_grid width height x y Hx Hy) as Hg.
  apply scanPixel_cases in Hstep. cbv zeta in Hstep.
  set (idx := y * width + x) in *.
  destruct Hinv as [Hlen Hcl _ _ _ _ _ _ _].
  destruct Hstep as [[-> _]|(fl & Hv & Hl & Hb & Hcase)]; [done|].
  pose proof (seed_fill_result _ _ _ _ _ _ Hlen Hg Hv Hb) as Hfi.
  pose proof (fill_component _ _ _ _ _ _ _ Hcl Hfi) as Hcomp.
  destruct Hfi as ([_ _ _ Hnd Hvis _] & _ & _).
  destruct Hcase as [[Hsmall ->]|(Hbig & ci & pc & _ & _ & ->)]; intros p Hp; simpl in *.
  - apply Hvis in Hp as [Hp|Hp]; [by apply Hcov|]. right.
    exists (f_pixels fl). split_and!; [done| |done].
    intros q. rewrite Hcomp. symmetry. apply connected_same_component; [done|].
    by apply Hcomp.
  - rewrite regionPixels_snoc, elem_of_app. simpl.
    apply Hvis in Hp as [Hp|Hp]; [|by left; right].
    destruct (Hcov p Hp); [by left; left|by right].
Qed.

Lemma scanColours_step width height pixelLabels minArea palette0 x y st st' :
  0 <= x < width -> 0 <= y < height ->
  scanInv width height pixelLabels minArea (y * width + x) st ->
  scanColours width height pixelLabels palette0 st ->
  scanPixel width height pixelLabels minArea y st x = Ok st' ->
  scanColours width height pixelLabels palette0 st'.
Proof.
  intros Hx Hy Hinv [Hids Hregs] Hstep.
  pose proof (cell_grid width height x y Hx Hy) as Hg.
  apply scanPixel_cases in Hstep. cbv zeta in Hstep.
  set (idx := y * width + x) in *.
  destruct Hinv as [Hlen _ _ _ _ _ _ _ _].
  destruct Hstep as [[-> _]|(fl & Hv & Hl & Hb & Hcase)]; [done|].
  destruct (seed_fill_result _ _ _ _ _ _ Hlen Hg Hv Hb)
    as ([_ _ [rest Hseed] _ _ Hnew] & _ & _).
  destruct Hcase as [[_ ->]|(_ & ci & pc & Hci & Hpc & ->)]; [done|].
  pose proof (aget_Some_range _ _ _ Hpc) as Hr.
  assert (sc_palette st !! Z.to_nat ci = Some pc) as Hpc'.
  { unfold aget in Hpc. by destruct (Z.ltb_spec ci 0); [lia|]. }
  pose proof (Hids (Z.to_nat ci)) as Hid. rewrite Hpc' in Hid. simpl in Hid.
  destruct (palette0 !! Z.to_nat ci) as [pc0|] eqn:Hpc0; [|done].
  injection Hid as Hid. split; simpl.
  - intros i. unfold aset. destruct (Z.ltb_spec ci 0); [lia|].
    destruct (decide (i = Z.to_nat ci)) as [->|Hne].
    + rewrite list_lookup_insert_eq by (by eapply lookup_lt_Some).
      rewrite Hpc0. simpl. by rewrite Hid.
    + by rewrite list_lookup_insert_ne.
  - apply Forall_app. split; [done|]. apply Forall_singleton.
    exists ci, pc0, x, y. simpl. split_and!.
    + unfold aget. by destruct (Z.ltb_spec ci 0); [lia|].
    + intros p Hp. destruct (Hnew p Hp) as (_ & _ & -> & _). done.
    + by rewrite Hseed.
    + by rewrite Hid.
Qed.

(** X7.  At the end of the scan every pixel of the grid whose label is not
    the sentinel lies in a pushed region, unless its connected component
    has fewer pixels than the threshold; with a threshold of at most 1 the
    regions cover every such pixel. *)
Theorem extraction_covers :
  forall width height pixelLabels minArea palette sc,
    extractRegions width height pixelLabels minArea palette = Ok sc ->
    0 <= width -> 0 <= height ->
    (forall p, inGrid width height p -> aget pixelLabels p <> Some (-1) ->
       (exists e, e ∈ sc_regions sc /\ p ∈ e.1) \/
       (exists l, NoDup l /\
          (forall q, q ∈ l <-> connected width height pixelLabels p q) /\
          Z.of_nat (length l) < minArea)) /\
    (minArea <= 1 ->
     forall p, inGrid width height p -> aget pixelLabels p <> Some (-1) ->
       exists e, e ∈ sc_regions sc /\ p ∈ e.1).
Proof.
  intros width height pixelLabels minArea palette sc Hex Hw Hh.
  destruct (extractRegions_ind_inv
              (scanCover width height pixelLabels minArea)
              width height pixelLabels minArea palette sc) as [Hinv Hcov]; [| |done|].
  { intros p Hp. by apply vis_replicate in Hp. }
  { intros x y st st'. apply scanCover_step. }
  rewrite !Z.max_r in Hinv by done.
  assert (forall p, inGrid width height p -> aget pixelLabels p <> Some (-1) ->
            (exists e, e ∈ sc_regions sc /\ p ∈ e.1) \/
            smallComponent width height pixelLabels minArea p) as Hall.
  { intros p Hp Hl. destruct (si_done _ _ _ _ _ _ Hinv p) as [Hv|?];
      [unfold inGrid in Hp; lia| |done].
    destruct (Hcov p Hv) as [Hin|Hsmall]; [left|by right].
    unfold regionPixels in Hin. apply list_elem_of_join in Hin as (l & Hp' & Hl').
    apply list_elem_of_fmap in Hl' as (e & -> & He). by exists e. }
  split; [exact Hall|].
  intros Hmin p Hp Hl. destruct (Hall p Hp Hl) as [?|(l & Hnd & Hcomp & Hlen)]; [done|].
  assert (p ∈ l) as Hin by (apply Hcomp; apply rtc_refl).
  destruct l; [by apply elem_of_nil in Hin|]. simpl in Hlen. lia.
Qed.

Lemma extraction_covers_witness :
  exists sc,
    extractRegions 3 3 sampleLabels 1 samplePalette = Ok sc /\
    (forall p, inGrid 3 3 p -> aget sampleLabels p <> Some (-1) ->
       (exists e, e ∈ sc_regions sc /\ p ∈ e.1) \/
       (exists l, NoDup l /\
          (forall q, q ∈ l <-> connected 3 3 sampleLabels p q) /\
          Z.of_nat (length l) < 1)) /\
    (1 <= 1 ->
     forall p, inGrid 3 3 p -> aget sampleLabels p <> Some (-1) ->
       exists e, e ∈ sc_regions sc /\ p ∈ e.1).
Proof.
  eexists. split; [vm_compute; reflexivity|].
  apply (extraction_covers 3 3 sampleLabels 1 samplePalette);
    [vm_compute; reflexivity|lia|lia].
Defined.

Lemma totalArea_pixels width height pixelLabels minArea regions :
  Forall (regionOk width height pixelLabels minArea) regions ->
  totalArea (snd <$> regions) = Z.of_nat (length (regionPixels regions)).
Proof.
  unfold regionPixels. induction 1 as [|e rs (s & _ & _ & _ & _ & _ & Ha & _) _ IH];
    [done|].
  rewrite !fmap_cons.
  change (mjoin (e.1 :: rs.*1)) with (e.1 ++ mjoin rs.*1).
  change (totalArea (e.2 :: rs.*2)) with (reg_area e.2 + totalArea rs.*2).
  rewrite length_app, IH, Ha. lia.
Qed.

Lemma labelledPixels_spec width height pixelLabels p :
  p ∈ labelledPixels width height pixelLabels <->
  inGrid width height p /\ aget pixelLabels p <> Some (-1).
Proof.
  unfold labelledPixels, inGrid. rewrite list_elem_of_filter, elem_of_seqZ.
  intuition lia.
Qed.

(** X8.  The areas of the extracted regions add up to at most the number
    of grid pixels whose label is not the sentinel, and to exactly that
    number when the threshold is at most 1: no pixel is counted twice. *)
Theorem total_area_bounded :
  forall width height pixelLabels minArea palette sc,
    extractRegions width height pixelLabels minArea palette = Ok sc ->
    0 <= width -> 0 <= height ->
    totalArea (snd <$> sc_regions sc)
      <= Z.of_nat (length (labelledPixels width height pixelLabels)) /\
    (minArea <= 1 ->
     totalArea (snd <$> sc_regions sc)
       = Z.of_nat (length (labelledPixels width height pixelLabels))).
Proof.
  intros width height pixelLabels minArea palette sc Hex Hw Hh.
  destruct (extractRegions_ind_inv
              (scanCover width height pixelLabels minArea)
              width height pixelLabels minArea palette sc) as [Hinv Hcov]; [| |done|].
  { intros p Hp. by apply vis_replicate in Hp. }
  { intros x y st st'. apply scanCover_step. }
  rewrite !Z.max_r in Hinv by done.
  destruct Hinv as [Hlen _ Hdone Hns Hregs Hnd Hrv _ _].
  rewrite (totalArea_pixels _ _ _ _ _ Hregs).
  assert (forall p, p ∈ regionPixels (sc_regions sc) ->
                    p ∈ labelledPixels width height pixelLabels) as Hsub.
  { intros p Hp%Hrv. apply labelledPixels_spec. split; [|by apply Hns].
    apply vis_range in Hp. unfold inGrid. rewrite Hlen in Hp. lia. }
  split.
  - apply inj_le, submseteq_length, NoDup_submseteq; done.
  - intros Hmin. f_equal. apply Permutation_length, NoDup_Permutation; [done| |].
    { apply NoDup_filter, NoDup_seqZ. }
    intros p. split; [apply Hsub|]. intros [Hg Hl]%labelledPixels_spec.
    destruct (Hdone p) as [Hv|?]; [unfold inGrid in Hg; lia| |done].
    destruct (Hcov p Hv) as [?|(l & _ & Hcomp & Hsmall)]; [done|].
    assert (p ∈ l) as Hin by (apply Hcomp; apply rtc_refl).
    destruct l; [by apply elem_of_nil in Hin|]. simpl in Hsmall. lia.
Qed.

Lemma total_area_bounded_witness :
  exists sc,
    extractRegions 3 3 sampleLabels 1 samplePalette = Ok sc /\
    totalArea (snd <$> sc_regions sc)
      <= Z.of_nat (length (labelledPixels 3 3 sampleLabels)) /\
    (1 <= 1 ->
     totalArea (snd <$> sc_regions sc)
       = Z.of_nat (length (labelledPixels 3 3 sampleLabels))).
Proof.
  eexists. split; [vm_compute; reflexivity|].
  apply (total_area_bounded 3 3 sampleLabels 1 samplePalette);
    [vm_compute; reflexivity|lia|lia].
Defined.

(** X9.  Every extracted region is made of pixels that all carry one
    label; its colour id is the id of the palette entry at that label, its
    area the number of its pixels, and its path and label point are those
    of its own pixel list, traced from the cell the region was found at. *)
Theorem region_colour_matches_labels :
  forall width height pixelLabels minArea palette sc,
    extractRegions width height pixelLabels minArea palette = Ok sc ->
    forall e, e ∈ sc_regions sc ->
      exists ci pc x y,
        aget palette ci = Some pc /\
        (forall p, p ∈ e.1 -> aget pixelLabels p = Some ci) /\
        head e.1 = Some (y * width + x) /\
        e.2 = mkRegion (traceRegionBoundary e.1 width height x y) (pc_id pc)
                       (calculateLabelPoint e.1 width) (Z.of_nat (length e.1)).
Proof.
  intros width height pixelLabels minArea palette sc Hex e He.
  destruct (extractRegions_ind_inv
              (scanColours width height pixelLabels palette)
              width height pixelLabels minArea palette sc) as [_ [_ Hregs]];
    [| |done|].
  { split; [done|]. apply Forall_nil_2. }
  { intros x y st st'. apply scanColours_step. }
  rewrite Forall_forall in Hregs. exact (Hregs e He).
Qed.

Lemma region_colour_matches_labels_witness :
  extractRegions 3 3 sampleLabels 3 samplePalette = Ok sampleScan /\
  forall e, e ∈ sc_regions sampleScan ->
    exists ci pc x y,
      aget samplePalette ci = Some pc /\
      (forall p, p ∈ e.1 -> aget sampleLabels p = Some ci) /\
      head e.1 = Some (y * 3 + x) /\
      e.2 = mkRegion (traceRegionBoundary e.1 3 3 x y) (pc_id pc)
                     (calculateLabelPoint e.1 3) (Z.of_nat (length e.1)).
Proof.
  split; [vm_compute; reflexivity|].
  apply (region_colour_matches_labels 3 3 sampleLabels 3 samplePalette);
    vm_compute; reflexivity.
Defined.

(** ** Where the label goes *)

Lemma fold_sum_bounds (f : Z -> Z) lo hi l a :
  (forall p, p ∈ l -> lo <= f p <= hi) ->
  a + lo * Z.of_nat (length l) <= fold_left (fun s p => s + f p) l a
    <= a + hi * Z.of_nat (length l).
Proof.
  revert a. induction l as [|q l IH]; intros a Hf; simpl; [lia|].
  pose proof (Hf q ltac:(by left)) as Hq.
  specialize (IH (a + f q) (fun p Hp => Hf p ltac:(by right))). lia.
Qed.

Lemma mean_bounds lo hi s n :
  0 < n -> lo * n <= s <= hi * n ->
  (inject_Z lo + (1 # 2) <= inject_Z s / inject_Z n + (1 # 2) /\
   inject_Z s / inject_Z n + (1 # 2) <= inject_Z hi + (1 # 2))%Q.
Proof.
  intros Hn [Hlo Hhi].
  assert (0 < inject_Z n)%Q as Hn'.
  { change 0%Q with (inject_Z 0). by rewrite <- Zlt_Qlt. }
  split; apply Qplus_le_l.
  - apply Qle_shift_div_l; [done|]. rewrite <- inject_Z_mult. by rewrite <- Zle_Qle.
  - apply Qle_shift_div_r; [done|]. rewrite <- inject_Z_mult. by rewrite <- Zle_Qle.
Qed.

Lemma grid_coords_range width height p :
  0 < width -> inGrid width height p ->
  0 <= Z.rem p width < width /\ 0 <= p / width < height.
Proof.
  unfold inGrid. intros Hw Hp. rewrite Z.rem_mod_nonneg by lia. split.
  - by apply Z.mod_pos_bound.
  - split; [apply Z.div_pos; lia|]. apply Z.div_lt_upper_bound; nia.
Qed.

(** X10.  For a non-empty list of pixels of the grid the label point lies
    within the bounding box that the boundary tracer computes for the same
    pixels, half a pixel in from its low sides; the box lies within the
    image, so the label is at least half a pixel away from every side of
    the image. *)
Theorem label_point_in_bounding_box :
  forall pixels width height minBx maxBx minBy maxBy,
    0 < width -> pixels <> [] ->
    Forall (inGrid width height) pixels ->
    boundingBox pixels width height = (minBx, maxBx, minBy, maxBy) ->
    (0 <= minBx <= maxBx /\ maxBx < width) /\
    (0 <= minBy <= maxBy /\ maxBy < height) /\
    (inject_Z minBx + (1 # 2) <= (calculateLabelPoint pixels width).1
       <= inject_Z maxBx + (1 # 2))%Q /\
    (inject_Z minBy + (1 # 2) <= (calculateLabelPoint pixels width).2
       <= inject_Z maxBy + (1 # 2))%Q.
Proof.
  intros pixels width height minBx maxBx minBy maxBy Hw Hne Hin Hbox.
  rewrite Forall_forall in Hin.
  unfold boundingBox in Hbox. rewrite boundingBox_components in Hbox.
  pose proof (fold_min_spec (fun p => Z.rem p width) pixels width) as (_ & Hx1 & Hx1').
  pose proof (fold_max_spec (fun p => Z.rem p width) pixels 0) as (Hx2'' & Hx2 & Hx2').
  pose proof (fold_min_spec (fun p => p / width) pixels height) as (_ & Hy1 & Hy1').
  pose proof (fold_max_spec (fun p => p / width) pixels 0) as (Hy2'' & Hy2 & Hy2').
  cbv zeta in *. injection Hbox as <- <- <- <-.
  set (x1 := fold_left _ pixels width) in *.
  set (x2 := fold_left (fun m p => if m <? Z.rem p width then _ else _) pixels 0) in *.
  set (y1 := fold_left _ pixels height) in *.
  set (y2 := fold_left (fun m p => if m <? p / width then _ else _) pixels 0) in *.
  destruct pixels as [|p0 rest] eqn:Hpx; [done|]. rewrite <- Hpx in *.
  assert (p0 ∈ pixels) as Hp0 by (rewrite Hpx; by left).
  pose proof (grid_coords_range _ _ _ Hw (Hin _ Hp0)) as [Hp0x Hp0y].
  pose proof (Hx1 _ Hp0). pose proof (Hx2 _ Hp0).
  pose proof (Hy1 _ Hp0). pose proof (Hy2 _ Hp0).
  assert (0 <= x1).
  { destruct Hx1' as [->|(p & Hp & ->)]; [lia|].
    by destruct (grid_coords_range _ _ _ Hw (Hin _ Hp)) as [? _]; lia. }
  assert (x2 < width).
  { destruct Hx2' as [->|(p & Hp & ->)]; [lia|].
    by destruct (grid_coords_range _ _ _ Hw (Hin _ Hp)) as [? _]; lia. }
  assert (0 <= y1).
  { destruct Hy1' as [->|(p & Hp & ->)]; [lia|].
    by destruct (grid_coords_range _ _ _ Hw (Hin _ Hp)) as [_ ?]; lia. }
  assert (y2 < height).
  { destruct Hy2' as [->|(p & Hp & ->)]; [lia|].
    by destruct (grid_coords_range _ _ _ Hw (Hin _ Hp)) as [_ ?]; lia. }
  assert (0 < Z.of_nat (length pixels)) as Hn by (rewrite Hpx; simpl; lia).
  unfold calculateLabelPoint; cbv zeta; simpl fst; simpl snd.
  split; [lia|]. split; [lia|]. split.
  - apply mean_bounds; [done|].
    pose proof (fold_sum_bounds (fun p => Z.rem p width) x1 x2 pixels 0) as Hs.
    apply Hs. intros p Hp; split; auto.
  - apply mean_bounds; [done|].
    pose proof (fold_sum_bounds (fun p => p / width) y1 y2 pixels 0) as Hs.
    apply Hs. intros p Hp; split; auto.
Qed.

Lemma label_point_in_bounding_box_witness :
  boundingBox [0; 1; 3] 3 3 = (0, 1, 0, 1) /\
  (0 <= 0 <= 1 /\ 1 < 3) /\
  (0 <= 0 <= 1 /\ 1 < 3) /\
  (inject_Z 0 + (1 # 2) <= (calculateLabelPoint [0; 1; 3]%Z 3%Z).1
     <= inject_Z 1 + (1 # 2))%Q /\
  (inject_Z 0 + (1 # 2) <= (calculateLabelPoint [0; 1; 3]%Z 3%Z).2
     <= inject_Z 1 + (1 # 2))%Q.
Proof.
  split; [reflexivity|].
  apply (label_point_in_bounding_box [0; 1; 3] 3 3 0 1 0 1);
    [lia|discriminate| |reflexivity].
  repeat constructor; unfold inGrid; lia.
Defined.

(** ** The boundary of an arbitrary pixel set *)

Section Boundary.
Variables (width height : Z) (pixels : list Z).
Hypothesis Hwidth : 0 < width.
Hypothesis Hgrid : Forall (inGrid width height) pixels.

Local Abbreviation pixelSet := (list_to_set pixels : gset Z).

Lemma inRegion_dec x y :
  inRegion pixels width height x y \/ ~ inRegion pixels width height x y.
Proof.
  unfold inRegion. destruct (decide (0 <= x < width)); [|tauto].
  destruct (decide (0 <= y < height)); [|tauto].
  destruct (decide (y * width + x ∈ pixels)); tauto.
Qed.

Lemma pixel_cell p :
  p ∈ pixels ->
  inRegion pixels width height (Z.rem p width) (p / width) /\
  p = p / width * width + Z.rem p width.
Proof.
  intros Hp. rewrite Forall_forall in Hgrid.
  pose proof (grid_coords_range _ _ _ Hwidth (Hgrid p Hp)) as [Hx Hy].
  assert (p = p / width * width + Z.rem p width) as Heq.
  { rewrite Z.rem_mod_nonneg by (unfold inGrid in *; specialize (Hgrid p Hp); lia).
    pose proof (Z.div_mod p width). lia. }
  split; [|done]. split_and!; try lia. by rewrite <- Heq.
Qed.

Lemma cell_rows x y :
  0 <= x < width -> y * width + x ∈ pixels -> 0 <= y < height.
Proof.
  intros Hx Hp. rewrite Forall_forall in Hgrid.
  specialize (Hgrid _ Hp). unfold inGrid in Hgrid. nia.
Qed.

Lemma box_range x y minBx maxBx minBy maxBy :
  boundingBox pixels width height = (minBx, maxBx, minBy, maxBy) ->
  (minBx <= x <= maxBx -> 0 <= x < width) /\
  (inRegion pixels width height x y ->
   minBx <= x <= maxBx /\ minBy <= y <= maxBy).
Proof.
  intros Hbox. unfold boundingBox in Hbox. rewrite boundingBox_components in Hbox.
  pose proof (fold_min_spec (fun p => Z.rem p width) pixels width) as (_ & Hx1 & Hx1').
  pose proof (fold_max_spec (fun p => Z.rem p width) pixels 0) as (_ & Hx2 & Hx2').
  pose proof (fold_min_spec (fun p => p / width) pixels height) as (_ & Hy1 & _).
  pose proof (fold_max_spec (fun p => p / width) pixels 0) as (_ & Hy2 & _).
  cbv zeta in *. injection Hbox as <- <- <- <-. split.
  - intros Hx.
    assert (0 <= fold_left (fun m p => if Z.rem p width <? m then Z.rem p width else m)
                   pixels width).
    { destruct Hx1' as [->|(p & Hp & ->)]; [lia|].
      destruct (pixel_cell p Hp) as [(? & _) _]. lia. }
    assert (fold_left (fun m p => if m <? Z.rem p width then Z.rem p width else m)
              pixels 0 < width).
    { destruct Hx2' as [->|(p & Hp & ->)]; [lia|].
      destruct (pixel_cell p Hp) as [(? & _) _]. lia. }
    lia.
  - intros (Hx & Hy & Hp).
    specialize (Hx1 _ Hp). specialize (Hx2 _ Hp).
    specialize (Hy1 _ Hp). specialize (Hy2 _ Hp).
    destruct (cell_coords width x y Hx) as [Hrem Hdiv]; [lia|].
    rewrite Hrem in *. rewrite Hdiv in *. lia.
Qed.

Lemma open_top x y :
  0 <= x < width -> 0 <= y < height ->
  (y =? 0) || negb (has pixelSet ((y - 1) * width + x)) = true <->
  ~ inRegion pixels width height x (y - 1).
Proof.
  intros Hx Hy. unfold inRegion. rewrite orb_true_iff, negb_true_iff, Z.eqb_eq.
  rewrite <- not_true_iff_false, has_list_to_set. split.
  - intros [->|Hn]; [lia|tauto].
  - intros Hn. destruct (decide (y = 0)); [by left|right].
    intros Hp. apply Hn. split_and!; [lia..|done].
Qed.

Lemma open_bottom x y :
  0 <= x < width -> 0 <= y < height ->
  (y =? height - 1) || negb (has pixelSet ((y + 1) * width + x)) = true <->
  ~ inRegion pixels width height x (y + 1).
Proof.
  intros Hx Hy. unfold inRegion. rewrite orb_true_iff, negb_true_iff, Z.eqb_eq.
  rewrite <- not_true_iff_false, has_list_to_set. split.
  - intros [->|Hn]; [lia|tauto].
  - intros Hn. destruct (decide (y = height - 1)); [by left|right].
    intros Hp. apply Hn. split_and!; [lia..|done].
Qed.

Lemma open_left x y :
  0 <= x < width -> 0 <= y < height ->
  (x =? 0) || negb (has pixelSet (y * width + x - 1)) = true <->
  ~ inRegion pixels width height (x - 1) y.
Proof.
  intros Hx Hy. unfold inRegion. rewrite orb_true_iff, negb_true_iff, Z.eqb_eq.
  rewrite <- not_true_iff_false, has_list_to_set.
  replace (y * width + x - 1) with (y * width + (x - 1)) by lia. split.
  - intros [->|Hn]; [lia|tauto].
  - intros Hn. destruct (decide (x = 0)); [by left|right].
    intros Hp. apply Hn. split_and!; [lia..|done].
Qed.

Lemma open_right x y :
  0 <= x < width -> 0 <= y < height ->
  (x =? width - 1) || negb (has pixelSet (y * width + x + 1)) = true <->
  ~ inRegion pixels width height (x + 1) y.
Proof.
  intros Hx Hy. unfold inRegion. rewrite orb_true_iff, negb_true_iff, Z.eqb_eq.
  rewrite <- not_true_iff_false, has_list_to_set.
  replace (y * width + x + 1) with (y * width + (x + 1)) by lia. split.
  - intros [->|Hn]; [lia|tauto].
  - intros Hn. destruct (decide (x = width - 1)); [by left|right].
    intros Hp. apply Hn. split_and!; [lia..|done].
Qed.

Lemma elem_of_optional {A} (b : bool) (a e : A) :
  e ∈ (if b then [a] else []) <-> b = true /\ e = a.
Proof.
  destruct b; rewrite ?list_elem_of_singleton, ?elem_of_nil; intuition congruence.
Qed.

(** The edges the scanline loop appends at one cell of the image. *)
Lemma cellEdges_spec x y e :
  0 <= x < width ->
  e ∈ cellEdges pixelSet width height x y <->
  inRegion pixels width height x y /\ exposedSide pixels width height x y e.
Proof.
  intros Hx. unfold cellEdges.
  destruct (has pixelSet (y * width + x)) eqn:Hhas; cbn [negb].
  - apply has_list_to_set in Hhas. pose proof (cell_rows x y Hx Hhas) as Hy.
    rewrite !elem_of_app, !elem_of_optional.
    rewrite open_top, open_bottom, open_left, open_right by done.
    assert (inRegion pixels width height x y) by done.
    unfold exposedSide. tauto.
  - rewrite elem_of_nil. split; [done|]. intros [(_ & _ & Hp) _].
    apply has_list_to_set in Hp. congruence.
Qed.

Lemma boundaryEdges_spec e :
  e ∈ boundaryEdges pixels width height <->
  exists x y, inRegion pixels width height x y /\
              exposedSide pixels width height x y e.
Proof.
  unfold boundaryEdges.
  destruct (boundingBox pixels width height) as [[[minBx maxBx] minBy] maxBy] eqn:Hbox.
  rewrite list_elem_of_bind. split.
  - intros (y & (x & He & Hxs%elem_of_seqZ)%list_elem_of_bind & Hys).
    exists x, y. apply cellEdges_spec; [|done].
    apply (box_range x y _ _ _ _ Hbox). lia.
  - intros (x & y & Hin & He).
    destruct (proj2 (box_range x y _ _ _ _ Hbox) Hin) as [Hxs Hys].
    exists y. split; [|apply elem_of_seqZ; lia].
    apply list_elem_of_bind. exists x. split; [|apply elem_of_seqZ; lia].
    apply cellEdges_spec; [by destruct Hin|done].
Qed.

Lemma inRegion_ext x y x' y' :
  x = x' -> y = y' ->
  inRegion pixels width height x y -> inRegion pixels width height x' y'.
Proof. by intros -> ->. Qed.

(** An exposed side names its cell. *)
Lemma exposedSide_inj e x y x' y' :
  inRegion pixels width height x y -> exposedSide pixels width height x y e ->
  inRegion pixels width height x' y' -> exposedSide pixels width height x' y' e ->
  x = x' /\ y = y'.
Proof.
  intros Hin H1 Hin' H2.
  destruct H1 as [[-> H1]|[[-> H1]|[[-> H1]|[-> H1]]]],
           H2 as [[He H2]|[[He H2]|[[He H2]|[He H2]]]];
    injection He as ? ? ? ?; try lia; exfalso;
    first [ apply H1; eapply inRegion_ext; [| |exact Hin']; lia
          | apply H2; eapply inRegion_ext; [| |exact Hin]; lia ].
Qed.

Lemma cellEdges_nodup x y : NoDup (cellEdges pixelSet width height x y).
Proof.
  unfold cellEdges.
  destruct (negb (has pixelSet (y * width + x))); [apply NoDup_nil_2|].
  destruct ((y =? 0) || _), ((y =? height - 1) || _), ((x =? 0) || _),
    ((x =? width - 1) || _); simpl;
    repeat (apply NoDup_cons;
            split;
            [intros Hin;
             repeat (apply elem_of_cons in Hin as [Hin|Hin];
                     [injection Hin; lia|]);
             by apply elem_of_nil in Hin|]);
    apply NoDup_nil_2.
Qed.

Lemma boundaryEdges_nodup : NoDup (boundaryEdges pixels width height).
Proof.
  unfold boundaryEdges.
  destruct (boundingBox pixels width height) as [[[minBx maxBx] minBy] maxBy] eqn:Hbox.
  assert (forall x y e, x ∈ seqZ minBx (maxBx - minBx + 1) ->
            e ∈ cellEdges pixelSet width height x y ->
            inRegion pixels width height x y /\
            exposedSide pixels width height x y e) as Hcell.
  { intros x y e Hx%elem_of_seqZ He. apply cellEdges_spec; [|done].
    apply (box_range x y _ _ _ _ Hbox). lia. }
  apply NoDup_bind; [| |apply NoDup_seqZ].
  - intros y1 y2 e _ _ (x1 & He1 & Hx1)%list_elem_of_bind
      (x2 & He2 & Hx2)%list_elem_of_bind.
    destruct (Hcell _ _ _ Hx1 He1) as [Hin1 Hs1].
    destruct (Hcell _ _ _ Hx2 He2) as [Hin2 Hs2].
    by destruct (exposedSide_inj e x1 y1 x2 y2).
  - intros y _. apply NoDup_bind; [| |apply NoDup_seqZ].
    + intros x1 x2 e Hx1 Hx2 He1 He2.
      destruct (Hcell _ _ _ Hx1 He1) as [Hin1 Hs1].
      destruct (Hcell _ _ _ Hx2 He2) as [Hin2 Hs2].
      by destruct (exposedSide_inj e x1 y x2 y).
    + intros x _. apply cellEdges_nodup.
Qed.

End Boundary.

(** X11.  For pixels of the grid, the path holds exactly the sides of the
    region's pixels whose neighbouring cell (across that side) is outside
    the image or not a pixel of the region. *)
Theorem boundary_is_exposed_sides :
  forall width height pixels e,
    0 < width -> Forall (inGrid width height) pixels ->
    (e ∈ boundaryEdges pixels width height <->
     exists x y, inRegion pixels width height x y /\
       ((e = mkEdge x y (x + 1) y /\ ~ inRegion pixels width height x (y - 1)) \/
        (e = mkEdge x (y + 1) (x + 1) (y + 1) /\
           ~ inRegion pixels width height x (y + 1)) \/
        (e = mkEdge x y x (y + 1) /\ ~ inRegion pixels width height (x - 1) y) \/
        (e = mkEdge (x + 1) y (x + 1) (y + 1) /\
           ~ inRegion pixels width height (x + 1) y))).
Proof.
  intros width height pixels e Hw Hg. by apply boundaryEdges_spec.
Qed.

Lemma boundary_is_exposed_sides_witness :
  mkEdge 1 0 2 0 ∈ boundaryEdges [0; 1; 3] 3 3 <->
  exists x y, inRegion [0; 1; 3] 3 3 x y /\
    ((mkEdge 1 0 2 0 = mkEdge x y (x + 1) y /\ ~ inRegion [0; 1; 3] 3 3 x (y - 1)) \/
     (mkEdge 1 0 2 0 = mkEdge x (y + 1) (x + 1) (y + 1) /\
        ~ inRegion [0; 1; 3] 3 3 x (y + 1)) \/
     (mkEdge 1 0 2 0 = mkEdge x y x (y + 1) /\ ~ inRegion [0; 1; 3] 3 3 (x - 1) y) \/
     (mkEdge 1 0 2 0 = mkEdge (x + 1) y (x + 1) (y + 1) /\
        ~ inRegion [0; 1; 3] 3 3 (x + 1) y)).
Proof.
  apply (boundary_is_exposed_sides 3 3 [0; 1; 3] (mkEdge 1 0 2 0)); [lia|].
  repeat constructor; unfold inGrid; lia.
Defined.

(** X12.  A unit edge between two horizontally or vertically neighbouring
    cells is in the path exactly when one of the two cells is a pixel of
    the region and the other is not (a cell outside the image counts as
    not in the region, so the sides on the image border are drawn for the
    region's pixels there). *)
Theorem edge_drawn_iff_one_side :
  forall width height pixels x y,
    0 < width -> Forall (inGrid width height) pixels ->
    (mkEdge x y x (y + 1) ∈ boundaryEdges pixels width height <->
     (inRegion pixels width height (x - 1) y /\ ~ inRegion pixels width height x y) \/
     (~ inRegion pixels width height (x - 1) y /\ inRegion pixels width height x y)) /\
    (mkEdge x y (x + 1) y ∈ boundaryEdges pixels width height <->
     (inRegion pixels width height x (y - 1) /\ ~ inRegion pixels width height x y) \/
     (~ inRegion pixels width height x (y - 1) /\ inRegion pixels width height x y)).
Proof.
  intros width height pixels x y Hw Hg.
  rewrite !(boundaryEdges_spec width height pixels Hw Hg). split; split.
  - intros (x' & y' & Hin & [[He H]|[[He H]|[[He H]|[He H]]]]);
      injection He as ? ? ? ?; try lia; subst.
    + right. done.
    + left. split.
      * eapply inRegion_ext; [| |exact Hin]; lia.
      * intros Hx. apply H. eapply inRegion_ext; [| |exact Hx]; lia.
  - intros [[Hin Hout]|[Hout Hin]].
    + exists (x - 1), y. split; [done|]. right; right; right. split.
      * f_equal; lia.
      * intros Hx. apply Hout. eapply inRegion_ext; [| |exact Hx]; lia.
    + exists x, y. split; [done|]. right; right; left. done.
  - intros (x' & y' & Hin & [[He H]|[[He H]|[[He H]|[He H]]]]);
      injection He as ? ? ? ?; try lia; subst.
    + right. done.
    + left. split.
      * eapply inRegion_ext; [| |exact Hin]; lia.
      * intros Hx. apply H. eapply inRegion_ext; [| |exact Hx]; lia.
  - intros [[Hin Hout]|[Hout Hin]].
    + exists x, (y - 1). split; [done|]. right; left. split.
      * f_equal; lia.
      * intros Hx. apply Hout. eapply inRegion_ext; [| |exact Hx]; lia.
    + exists x, y. split; [done|]. left. done.
Qed.

Lemma edge_drawn_iff_one_side_witness :
  (mkEdge 2 0 2 1 ∈ boundaryEdges [0; 1; 3] 3 3 <->
   (inRegion [0; 1; 3] 3 3 (2 - 1) 0 /\ ~ inRegion [0; 1; 3] 3 3 2 0) \/
   (~ inRegion [0; 1; 3] 3 3 (2 - 1) 0 /\ inRegion [0; 1; 3] 3 3 2 0)) /\
  (mkEdge 2 0 (2 + 1) 0 ∈ boundaryEdges [0; 1; 3] 3 3 <->
   (inRegion [0; 1; 3] 3 3 2 (0 - 1) /\ ~ inRegion [0; 1; 3] 3 3 2 0) \/
   (~ inRegion [0; 1; 3] 3 3 2 (0 - 1) /\ inRegion [0; 1; 3] 3 3 2 0)).
Proof.
  apply (edge_drawn_iff_one_side 3 3 [0; 1; 3] 2 0); [lia|].
  repeat constructor; unfold inGrid; lia.
Defined.

(** X13.  For pixels of the grid the path draws no edge twice, whatever
    the order of the pixel list and however often it repeats a pixel. *)
Theorem boundary_edges_distinct :
  forall width height pixels,
    0 < width -> Forall (inGrid width height) pixels ->
    NoDup (boundaryEdges pixels width height).
Proof.
  intros width height pixels Hw Hg. by apply boundaryEdges_nodup.
Qed.

Lemma boundary_edges_distinct_witness :
  NoDup (boundaryEdges [3; 0; 1; 3] 3 3).
Proof.
  apply (boundary_edges_distinct 3 3 [3; 0; 1; 3]); [lia|].
  repeat constructor; unfold inGrid; lia.
Defined.

(** ** The palette the quantizer returns *)

Lemma pixelAt_byte data i : Forall isByte data -> byteColor (pixelAt data i).
Proof.
  intros Hd. rewrite Forall_forall in Hd.
  assert (forall j, isByte (byteAt data j)) as Hb.
  { intros j. unfold byteAt, aget. destruct (j <? 0); [by unfold isByte; simpl; lia|].
    destruct (data !! Z.to_nat j) as [v|] eqn:E; simpl; [|unfold isByte; lia].
    apply Hd. by eapply list_elem_of_lookup_2. }
  unfold byteColor, pixelAt. simpl. auto.
Qed.

Lemma sumZ_bounds m l :
  Forall (fun v => 0 <= v <= m) l -> 0 <= sumZ l <= m * Z.of_nat (length l).
Proof.
  induction 1 as [|v l Hv _ IH]; simpl; [lia|]. unfold sumZ in *. simpl. lia.
Qed.

Lemma meanColor_byte l : l <> [] -> Forall byteColor l -> byteColor (meanColor l).
Proof.
  intros Hne Hl.
  assert (0 < Z.of_nat (length l)) as Hn by (destruct l; [done|simpl; lia]).
  assert (forall f : RGB -> Z, (forall c, byteColor c -> isByte (f c)) ->
            isByte (roundDiv (sumZ (f <$> l)) (Z.of_nat (length l)))) as Hch.
  { intros f Hf. pose proof (sumZ_bounds 255 (f <$> l)) as Hs.
    rewrite length_fmap in Hs. unfold isByte.
    enough (0 <= roundDiv (sumZ (f <$> l)) (Z.of_nat (length l)) <= 255) by lia.
    apply roundDiv_le; [done|]. apply Hs. apply Forall_fmap.
    eapply Forall_impl; [exact Hl|]. intros c Hc. simpl.
    specialize (Hf c Hc). unfold isByte in Hf. lia. }
  unfold meanColor, byteColor. simpl.
  split_and!; apply Hch; by intros c (? & ? & ?).
Qed.

Lemma assigned_pixels data cs j p :
  p ∈ assigned data cs j ->
  nearest p cs = j /\
  exists i, i ∈ pixelOffsets data /\ transparentAt data i = false /\ p = pixelAt data i.
Proof.
  unfold assigned, assignedIn.
  intros [Hn (i & -> & [Ht Hi]%list_elem_of_filter)%list_elem_of_fmap]%list_elem_of_filter.
  split; [done|]. by exists i.
Qed.

Lemma kmeansPass_bytes data cs cs' :
  Forall isByte data -> Forall byteColor cs ->
  kmeansPass data cs = Ok cs' -> Forall byteColor cs'.
Proof.
  intros Hd Hcs [Hlen Hpass]%kmeansPass_spec.
  apply Forall_lookup. intros j c' Hc'.
  destruct (lookup_lt_is_Some_2 cs j) as [c Hc].
  { rewrite <- Hlen. by eapply lookup_lt_Some. }
  rewrite (Hpass j c Hc) in Hc'. injection Hc' as <-.
  destruct (assigned data cs j) as [|p l] eqn:Ha.
  - by eapply (proj1 (Forall_lookup _ _)).
  - rewrite <- Ha. apply meanColor_byte; [by rewrite Ha|].
    apply Forall_forall. intros q (_ & i & _ & _ & ->)%assigned_pixels.
    by apply pixelAt_byte.
Qed.

Lemma refine_bytes n data c0 cs :
  Forall isByte data -> Forall byteColor c0 ->
  refine n data c0 = Ok cs -> Forall byteColor cs.
Proof.
  intros Hd. revert c0. induction n as [|n IH]; intros c0 Hc0; simpl.
  { by intros [= <-]. }
  intros (c1 & H1 & Hn)%obind_Ok. eapply IH; [|exact Hn].
  by eapply kmeansPass_bytes.
Qed.

(** X14.  On an image buffer (non-empty, four bytes per pixel) the
    quantizer returns, for k > 0, a palette of exactly k entries; entry i
    has id i + 1 and count 0, its channels are still bytes after the five
    rounds of averaging and rounding, and its hex string is [#] followed by
    the six hex digits of the channels. *)
Theorem quantized_palette_well_formed :
  forall (G : Type) (random : G -> Q * G) data k gen,
    validDraws random ->
    (0 < length data)%nat -> Z.of_nat (length data) mod 4 = 0 ->
    Forall isByte data -> (0 < k)%nat ->
    exists palette,
      fst (getQuantizedPalette random data k gen) = Ok palette /\
      length palette = k /\
      forall i pc, palette !! i = Some pc ->
        pc_id pc = Z.of_nat i + 1 /\ pc_count pc = 0 /\
        byteColor (pc_rgb pc) /\
        pc_hex pc = String "#" (hexByte (c_r (pc_rgb pc))
                      (hexByte (c_g (pc_rgb pc))
                         (hexByte (c_b (pc_rgb pc)) EmptyString))) /\
        String.length (pc_hex pc) = 7%nat.
Proof.
  intros G random data k gen Hv Hne Hmod Hd Hk.
  rewrite getQuantizedPalette_draws. unfold quantizeFrom.
  set (c0 := (fun u => pixelAt data (pickIdx u data)) <$> draws random k gen).
  assert (length c0 = k) as Hlen0 by (unfold c0; by rewrite length_fmap, length_draws).
  destruct (refine_total iterations data c0) as (cs & Href & Hlen).
  { intros E. rewrite E in Hlen0. simpl in Hlen0. lia. }
  rewrite Href. simpl. exists (toPalette cs). split; [done|].
  assert (Forall byteColor cs) as Hcs.
  { eapply refine_bytes; [exact Hd| |exact Href].
    apply Forall_fmap, Forall_forall. intros u _. by apply pixelAt_byte. }
  unfold toPalette. rewrite length_imap. split; [lia|].
  intros i pc Hpc. rewrite list_lookup_imap in Hpc.
  destruct (cs !! i) as [c|] eqn:Hc; [|done]. injection Hpc as <-.
  cbn [pc_id pc_count pc_rgb pc_hex].
  pose proof (proj1 (Forall_lookup _ _) Hcs i c Hc) as (Hr & Hg & Hb).
  split_and!; try done.
  - by apply rgbToHex_digits.
  - by rewrite rgbToHex_digits.
Qed.

Lemma quantized_palette_well_formed_witness :
  validDraws cycleGen /\
  exists palette,
    fst (getQuantizedPalette cycleGen stripeImage 3 0%nat) = Ok palette /\
    length palette = 3%nat /\
    forall i pc, palette !! i = Some pc ->
      pc_id pc = Z.of_nat i + 1 /\ pc_count pc = 0 /\
      byteColor (pc_rgb pc) /\
      pc_hex pc = String "#" (hexByte (c_r (pc_rgb pc))
                    (hexByte (c_g (pc_rgb pc))
                       (hexByte (c_b (pc_rgb pc)) EmptyString))) /\
      String.length (pc_hex pc) = 7%nat.
Proof.
  assert (validDraws cycleGen) as Hv.
  { intros gen. unfold cycleGen, Qle, Qlt. simpl.
    pose proof (Nat.mod_upper_bound gen 4). lia. }
  split; [exact Hv|].
  apply (quantized_palette_well_formed nat cycleGen stripeImage 3 0%nat Hv);
    [simpl; lia|reflexivity| |lia].
  repeat constructor; unfold isByte; lia.
Defined.

(** ** A palette that already fits *)

Lemma colorDistance2_zero p c : colorDistance2 p c = 0 -> p = c.
Proof.
  unfold colorDistance2. rewrite !Z.pow_2_r. intros H.
  destruct p as [pr pg pb], c as [cr cg cb]. simpl in *.
  pose proof (Z.square_nonneg (pr - cr)). pose proof (Z.square_nonneg (pg - cg)).
  pose proof (Z.square_nonneg (pb - cb)).
  assert ((pr - cr) * (pr - cr) = 0) as Hr%Z.mul_eq_0 by lia.
  assert ((pg - cg) * (pg - cg) = 0) as Hg%Z.mul_eq_0 by lia.
  assert ((pb - cb) * (pb - cb) = 0) as Hb%Z.mul_eq_0 by lia.
  f_equal; lia.
Qed.

Lemma colorDistance2_nonneg p c : 0 <= colorDistance2 p c.
Proof.
  unfold colorDistance2. rewrite !Z.pow_2_r.
  pose proof (Z.square_nonneg (c_r p - c_r c)).
  pose proof (Z.square_nonneg (c_g p - c_g c)).
  pose proof (Z.square_nonneg (c_b p - c_b c)). lia.
Qed.

Lemma colorDistance2_refl p : colorDistance2 p p = 0.
Proof. unfold colorDistance2. rewrite !Z.sub_diag. done. Qed.

(** A pixel whose colour is a centroid goes to the first such centroid. *)
Lemma nearest_exact p cs :
  p ∈ cs ->
  cs !! nearest p cs = Some p /\
  forall i c, cs !! i = Some c -> (i < nearest p cs)%nat -> c <> p.
Proof.
  intros Hp.
  destruct (nearest_spec p cs) as (c & Hc & Hmin).
  { intros ->. by apply elem_of_nil in Hp. }
  apply list_elem_of_lookup in Hp as [i Hi].
  destruct (Hmin i p Hi) as [Hle _]. rewrite colorDistance2_refl in Hle.
  pose proof (colorDistance2_nonneg p c).
  assert (p = c) as <- by (apply colorDistance2_zero; lia).
  split; [done|]. intros i' c' Hc' Hlt ->.
  destruct (Hmin i' p Hc') as [_ Hstrict]. specialize (Hstrict Hlt). lia.
Qed.

Lemma sumZ_const (f : RGB -> Z) c l :
  Forall (fun q => q = c) l -> sumZ (f <$> l) = Z.of_nat (length l) * f c.
Proof.
  induction 1 as [|q l -> _ IH]; [done|].
  rewrite fmap_cons. unfold sumZ in *. cbn [foldr length]. rewrite IH. lia.
Qed.

Lemma roundDiv_exact n v : 0 < n -> roundDiv (n * v) n = v.
Proof. intros Hn. pose proof (roundDiv_spec (n * v) n Hn). nia. Qed.

Lemma meanColor_const c l : l <> [] -> Forall (fun q => q = c) l -> meanColor l = c.
Proof.
  intros Hne Hl.
  assert (0 < Z.of_nat (length l)) as Hn by (destruct l; [done|simpl; lia]).
  unfold meanColor. rewrite !(sumZ_const _ c l Hl), !roundDiv_exact by done.
  by destruct c.
Qed.

Lemma kmeansPass_fixed data cs :
  (forall i, i ∈ pixelOffsets data -> transparentAt data i = false ->
             pixelAt data i ∈ cs) ->
  kmeansPass data cs = Ok cs.
Proof.
  intros Hcover. destruct cs as [|c0 cs0] eqn:Hcs.
  { apply kmeansPass_transparent. intros i Hi.
    destruct (transparentAt data i) eqn:Ht; [done|].
    by apply Hcover, elem_of_nil in Hi. }
  rewrite <- Hcs in *.
  destruct (kmeansPass_total data cs) as [cs' Hpass]; [by rewrite Hcs|].
  rewrite Hpass. f_equal.
  destruct (kmeansPass_spec _ _ _ Hpass) as [Hlen Hj].
  apply list_eq. intros j. destruct (cs !! j) as [c|] eqn:Hc.
  - rewrite (Hj j c Hc). f_equal.
    destruct (assigned data cs j) as [|p l] eqn:Ha; [done|].
    rewrite <- Ha. apply meanColor_const; [by rewrite Ha|].
    apply Forall_forall. intros q (Hn & i & Hi & Ht & ->)%assigned_pixels.
    destruct (nearest_exact (pixelAt data i) cs (Hcover i Hi Ht)) as [Hq _].
    rewrite Hn, Hc in Hq. by injection Hq.
  - apply lookup_ge_None. rewrite Hlen. by apply lookup_ge_None.
Qed.

Lemma refine_fixed n data cs :
  (forall i, i ∈ pixelOffsets data -> transparentAt data i = false ->
             pixelAt data i ∈ cs) ->
  refine n data cs = Ok cs.
Proof.
  intros Hcover. induction n as [|n IH]; simpl; [done|].
  by rewrite kmeansPass_fixed.
Qed.

(** X15.  When every opaque pixel of the buffer has the colour of one of
    the centroids, a pass of the quantizer changes no centroid, so the five
    passes return the centroids they were given and the palette lists them
    in their order. *)
Theorem exact_centroids_are_stable :
  forall data centroids,
    (forall i, i ∈ pixelOffsets data -> transparentAt data i = false ->
               pixelAt data i ∈ centroids) ->
    kmeansPass data centroids = Ok centroids /\
    refine iterations data centroids = Ok centroids /\
    quantizeFrom data centroids = Ok (toPalette centroids) /\
    forall i, i ∈ pixelOffsets data -> transparentAt data i = false ->
      centroids !! nearest (pixelAt data i) centroids = Some (pixelAt data i).
Proof.
  intros data cs Hcover.
  split_and!; [by apply kmeansPass_fixed|by apply refine_fixed| |].
  - unfold quantizeFrom. by rewrite refine_fixed.
  - intros i Hi Ht. by apply nearest_exact, Hcover.
Qed.

Lemma exact_centroids_are_stable_witness :
  kmeansPass stripeImage [blue; red] = Ok [blue; red] /\
  refine iterations stripeImage [blue; red] = Ok [blue; red] /\
  quantizeFrom stripeImage [blue; red] = Ok (toPalette [blue; red]) /\
  forall i, i ∈ pixelOffsets stripeImage -> transparentAt stripeImage i = false ->
    [blue; red] !! nearest (pixelAt stripeImage i) [blue; red]
      = Some (pixelAt stripeImage i).
Proof.
  apply (exact_centroids_are_stable stripeImage [blue; red]).
  intros i Hi _. change (pixelOffsets stripeImage) with [0; 4; 8; 12] in Hi.
  repeat (apply elem_of_cons in Hi as [->|Hi]; [vm_compute; repeat constructor|]).
  by apply elem_of_nil in Hi.
Defined.

(** ** An image of one colour *)

Lemma labelPixels_at data palette width height p :
  Z.of_nat (length data) = 4 * (width * height) -> 0 <= p < width * height ->
  aget (labelPixels data palette width height) p =
  Some (if transparentAt data (4 * p) then -1
        else Z.of_nat (nearest (pixelAt data (4 * p)) (pc_rgb <$> palette))).
Proof.
  intros Hlen Hp. unfold labelPixels.
  rewrite (pixelOffsets_wf data width height Hlen).
  destruct (labelPixel_prefix data palette (Z.to_nat (width * height))
              (Z.to_nat (width * height)) ltac:(lia)) as [_ Hval].
  cbv zeta in Hval. rewrite Z2Nat.id in Hval by lia. by apply Hval.
Qed.

(** A grid with one label is one connected component. *)
Lemma uniform_grid_connected width height pixelLabels l :
  0 < width ->
  (forall p, inGrid width height p -> aget pixelLabels p = Some l) ->
  forall p, inGrid width height p -> connected width height pixelLabels 0 p.
Proof.
  intros Hw Hl.
  assert (forall n p, Z.to_nat p = n -> inGrid width height p ->
            connected width height pixelLabels 0 p) as Hind.
  { induction n as [n IH] using lt_wf_ind. intros p Hn Hp.
    destruct (decide (p = 0)) as [->|Hp0]; [apply rtc_refl|].
    destruct (grid_coords_range _ _ _ Hw Hp) as [Hx Hy].
    assert (p = p / width * width + Z.rem p width) as Heq.
    { unfold inGrid in Hp. rewrite Z.rem_mod_nonneg by lia.
      pose proof (Z.div_mod p width). lia. }
    set (x := Z.rem p width) in *. set (y := p / width) in *.
    destruct (decide (x = 0)) as [Hx0|Hx0].
    - assert (0 < y) by nia.
      assert (inGrid width height ((y - 1) * width + 0)) as Hq by (unfold inGrid; nia).
      eapply rtc_r; [apply (IH (Z.to_nat ((y - 1) * width + 0))); [nia|done|done]|].
      exists (0, 1). split; [unfold directions; repeat constructor|]. split.
      + unfold neighbour.
        destruct (cell_coords width 0 (y - 1)) as [-> ->]; [lia..|]. simpl.
        destruct (Z.leb_spec 0 (0 + 0)), (Z.ltb_spec (0 + 0) width),
          (Z.leb_spec 0 (y - 1 + 1)), (Z.ltb_spec (y - 1 + 1) height);
          simpl; try lia. f_equal. lia.
      + rewrite (Hl p Hp). symmetry. by apply Hl.
    - assert (inGrid width height (y * width + (x - 1))) as Hq by (unfold inGrid; nia).
      eapply rtc_r; [apply (IH (Z.to_nat (y * width + (x - 1)))); [nia|done|done]|].
      exists (1, 0). split; [unfold directions; repeat constructor|]. split.
      + unfold neighbour.
        destruct (cell_coords width (x - 1) y) as [-> ->]; [lia..|]. simpl.
        destruct (Z.leb_spec 0 (x - 1 + 1)), (Z.ltb_spec (x - 1 + 1) width),
          (Z.leb_spec 0 (y + 0)), (Z.ltb_spec (y + 0) height);
          simpl; try lia. f_equal. lia.
      + rewrite (Hl p Hp). symmetry. by apply Hl. }
  intros p Hp. by apply (Hind (Z.to_nat p)).
Qed.

Lemma filter_none {A} (P : A -> Prop) `{!forall x, Decision (P x)} (l : list A) :
  (forall x, x ∈ l -> ~ P x) -> filter P l = [].
Proof.
  induction l as [|a l IH]; intros Hno; [done|].
  rewrite filter_cons_False by (apply Hno; by left).
  apply IH. intros x Hx. apply Hno. by right.
Qed.

(** The scan of a grid with the single label 0: one region, the grid. *)
Lemma uniform_scan width height pixelLabels minArea palette pc0 :
  0 < width -> 0 < height ->
  (forall p, inGrid width height p -> aget pixelLabels p = Some 0) ->
  aget palette 0 = Some pc0 -> minArea <= width * height ->
  exists sc px,
    extractRegions width height pixelLabels minArea palette = Ok sc /\
    sc_regions sc = [regionOf width height 0 0 px pc0] /\
    head px = Some 0 /\ NoDup px /\ (forall p, p ∈ px <-> inGrid width height p).
Proof.
  intros Hw Hh Hlab Hpc0 Hmin.
  assert (inGrid width height 0) as Hg0 by (unfold inGrid; nia).
  pose proof (uniform_grid_connected width height pixelLabels 0 Hw Hlab) as Hconn.
  destruct (extractRegions_total width height pixelLabels minArea palette) as [sc Hsc].
  { intros p Hp. right. exists 0. split; [by apply Hlab|].
    apply aget_Some_range in Hpc0. lia. }
  exists sc.
  destruct (extractRegions_ind_inv
              (fun st => scanCover width height pixelLabels minArea st /\
                         scanColours width height pixelLabels palette st)
              width height pixelLabels minArea palette sc)
    as [Hinv [Hcov [_ Hcol]]]; [| |done|].
  { split; [|split; [done|apply Forall_nil_2]].
    intros p Hp. by apply vis_replicate in Hp. }
  { intros x y st st' Hx Hy Hst [H1 H2] Hstep. split.
    - by eapply scanCover_step.
    - by eapply scanColours_step. }
  rewrite !Z.max_r in Hinv by lia.
  destruct Hinv as [_ _ Hdone _ Hregs Hnd _ _ _].
  rewrite Forall_forall in Hregs.
  assert (forall e, e ∈ sc_regions sc ->
            head e.1 = Some 0 /\ NoDup e.1 /\
            forall p, p ∈ e.1 <-> inGrid width height p) as Hall.
  { intros e (s & Hhead & Hs & _ & Hnde & Hcomp & _ & _ & Hlow)%Hregs.
    assert (forall p, p ∈ e.1 <-> inGrid width height p) as Hmem.
    { intros p. rewrite Hcomp. split; [by apply connected_grid|].
      intros Hp. etrans; [|by apply Hconn].
      apply connected_sym; [done|]. by apply Hconn. }
    split_and!; [|done|done].
    pose proof (Hlow 0 (proj2 (Hmem 0) Hg0)). unfold inGrid in Hs.
    by replace s with 0 in Hhead by lia. }
  assert (0 ∈ regionPixels (sc_regions sc)) as H0.
  { destruct (Hdone 0) as [Hv|Hs]; [lia| |by rewrite (Hlab 0 Hg0) in Hs].
    destruct (Hcov 0 Hv) as [?|(l & Hndl & Hcomp & Hlt)]; [done|]. exfalso.
    assert (Z.to_nat (width * height) <= length l)%nat; [|lia].
    rewrite <- (length_seqZ 0 (width * height)).
    apply submseteq_length, NoDup_submseteq; [apply NoDup_seqZ|].
    intros p Hp%elem_of_seqZ. apply Hcomp, Hconn. unfold inGrid. lia. }
  rewrite Forall_forall in Hcol.
  destruct (sc_regions sc) as [|e [|e' rest]] eqn:Hr.
  - by apply elem_of_nil in H0.
  - exists e.1. destruct (Hall e ltac:(by left)) as (Hhead & Hnde & Hmem).
    split_and!; try done. f_equal.
    destruct (Hcol e ltac:(by left)) as (ci & pc & x & y & Hpc & Hci & _ & He2).
    pose proof (Hci 0 (proj2 (Hmem 0) Hg0)) as Hc0. rewrite (Hlab 0 Hg0) in Hc0.
    injection Hc0 as <-. rewrite Hpc0 in Hpc. injection Hpc as <-.
    destruct e as [px r]. simpl in *. by rewrite He2.
  - exfalso.
    destruct (Hall e ltac:(by left)) as (_ & _ & Hmem).
    destruct (Hall e' ltac:(right; by left)) as (_ & _ & Hmem').
    unfold regionPixels in Hnd. rewrite !fmap_cons in Hnd.
    change (mjoin (e.1 :: e'.1 :: rest.*1)) with (e.1 ++ e'.1 ++ mjoin rest.*1) in Hnd.
    apply NoDup_app in Hnd as (_ & Hdis & _).
    apply (Hdis 0); [by apply Hmem|]. apply elem_of_app. left. by apply Hmem'.
Qed.

(** X16.  An image whose pixels are all opaque and of one colour [c] and
    that has at least [minRegionArea] pixels gives, for every k > 0 and
    every random source, one region and one palette entry: the region
    holds every pixel of the image, starts at pixel 0 and has colour id 1
    and area [width * height]; the palette entry is [c] with id 1 and
    count 1. *)
Theorem uniform_image_one_region :
  forall (G : Type) (random : G -> Q * G) imageUrl data width height k gen c,
    validDraws random -> 0 < width -> 0 < height ->
    Z.of_nat (length data) = 4 * (width * height) ->
    (forall i, i ∈ pixelOffsets data ->
       transparentAt data i = false /\ pixelAt data i = c) ->
    (0 < k)%nat -> minRegionArea <= width * height ->
    exists px,
      head px = Some 0 /\ NoDup px /\
      (forall p, p ∈ px <-> inGrid width height p) /\
      processImage random imageUrl data width height k gen =
        Ok (mkProcessedArt width height
              [mkPaletteColor c 1 (rgbToHex (c_r c) (c_g c) (c_b c)) 1]
              [mkRegion (traceRegionBoundary px width height 0 0) 1
                        (calculateLabelPoint px width) (width * height)]
              imageUrl).
Proof.
  intros G random url data width height k gen c Hv Hw Hh Hlen Hunif Hk Hmin.
  unfold processImage. rewrite processWith_draws.
  set (c0 := (fun u => pixelAt data (pickIdx u data)) <$> draws random k gen).
  assert (length c0 = k) as Hlen0 by (unfold c0; by rewrite length_fmap, length_draws).
  assert (forall i ci, c0 !! i = Some ci -> ci = c) as Hc0.
  { intros i ci Hi. unfold c0 in Hi. rewrite list_lookup_fmap in Hi.
    destruct (draws random k gen !! i) as [u|] eqn:Hu; [|done].
    injection Hi as <-. apply Hunif.
    apply list_elem_of_lookup_2 in Hu. destruct (draws_valid _ _ _ _ Hv Hu).
    apply pickIdx_offset; [done|done|lia|].
    rewrite Hlen, Z.mul_comm. apply Z.mod_mul. lia. }
  destruct (c0 !! 0%nat) as [c'|] eqn:Hfirst;
    [|apply lookup_ge_None in Hfirst; lia].
  pose proof (Hc0 _ _ Hfirst) as ->.
  assert (c ∈ c0) as Hin by (by eapply list_elem_of_lookup_2).
  unfold quantizeFrom.
  rewrite refine_fixed by (intros i Hi _; by rewrite (proj2 (Hunif i Hi))).
  unfold processFrom. cbn [obind].
  set (palette := toPalette c0).
  set (pc0 := mkPaletteColor c 1 (rgbToHex (c_r c) (c_g c) (c_b c)) 0).
  assert (forall i pc, palette !! i = Some pc ->
            pc = mkPaletteColor c (Z.of_nat i + 1)
                   (rgbToHex (c_r c) (c_g c) (c_b c)) 0) as Hpal.
  { intros i pc Hpc. unfold palette, toPalette in Hpc.
    rewrite list_lookup_imap in Hpc.
    destruct (c0 !! i) as [ci|] eqn:Hi; [|done].
    rewrite (Hc0 _ _ Hi) in Hpc. by injection Hpc. }
  assert (palette !! 0%nat = Some pc0) as Hp0.
  { unfold palette, toPalette. rewrite list_lookup_imap, Hfirst. done. }
  assert (nearest c (pc_rgb <$> palette) = 0%nat) as Hnear.
  { destruct (nearest_exact c (pc_rgb <$> palette)) as [_ Hfirst'].
    { apply list_elem_of_fmap. exists pc0. split; [done|].
      by eapply list_elem_of_lookup_2. }
    destruct (nearest c (pc_rgb <$> palette)) as [|n] eqn:Hn; [done|].
    exfalso. apply (Hfirst' 0%nat c); [|lia|done].
    by rewrite list_lookup_fmap, Hp0. }
  destruct (uniform_scan width height (labelPixels data palette width height)
              minRegionArea palette pc0 Hw Hh)
    as (sc & px & Hsc & Hregs & Hhead & Hnd & Hmem); [| |done|].
  { intros p Hp. unfold inGrid in Hp. rewrite labelPixels_at by done.
    assert (4 * p ∈ pixelOffsets data) as Hoff.
    { rewrite (pixelOffsets_wf data width height Hlen).
      apply list_elem_of_fmap. exists p. split; [done|]. apply elem_of_seqZ. lia. }
    destruct (Hunif _ Hoff) as [-> ->]. by rewrite Hnear. }
  { done. }
  exists px. split_and!; try done.
  rewrite Hsc. cbn [obind]. f_equal.
  destruct (extractRegions_palette _ _ _ _ _ _ (uniqueIds_toPalette c0) Hsc)
    as (Hplen & Hcount & _).
  fold palette in Hplen, Hcount. rewrite Hregs in *.
  assert (Z.of_nat (length px) = width * height) as Harea.
  { rewrite <- (Z2Nat.id (width * height)) by lia. f_equal.
    rewrite <- (length_seqZ 0 (width * height)).
    apply Permutation_length, NoDup_Permutation; [done|apply NoDup_seqZ|].
    intros p. rewrite Hmem, elem_of_seqZ. unfold inGrid. lia. }
  cbn [fmap list_fmap regionOf snd]. unfold regionOf. cbn [snd pc_id pc0].
  rewrite Harea. f_equal.
  destruct (sc_palette sc) as [|q qs] eqn:Hq.
  { simpl in Hplen. apply lookup_lt_Some in Hp0. lia. }
  assert (forall i pc, palette !! i = Some pc ->
            (q :: qs) !! i = Some (mkPaletteColor c (Z.of_nat i + 1)
                                     (rgbToHex (c_r c) (c_g c) (c_b c))
                                     (if decide (i = 0%nat) then 1 else 0))) as Hq'.
  { intros i pc Hpc. rewrite (Hcount i pc Hpc). rewrite (Hpal i pc Hpc).
    cbn [pc_rgb pc_id pc_hex pc_count]. do 2 f_equal.
    unfold usageCount. cbn [fmap list_fmap snd].
    destruct (decide (i = 0%nat)) as [->|Hne].
    - by rewrite filter_cons_True.
    - rewrite filter_cons_False; [done|]. simpl. lia. }
  pose proof (Hq' 0%nat pc0 Hp0) as Hq0. simpl in Hq0. injection Hq0 as ->.
  rewrite filter_cons_True by (simpl; lia). f_equal.
  apply filter_none. intros x [i Hi]%list_elem_of_lookup.
  destruct (lookup_lt_is_Some_2 palette (S i)) as [pc Hpc].
  { rewrite <- Hplen. simpl. apply lookup_lt_Some in Hi. lia. }
  pose proof (Hq' (S i) pc Hpc) as Hx. simpl in Hx. rewrite Hi in Hx.
  injection Hx as ->. simpl. lia.
Qed.

Lemma uniform_image_one_region_witness :
  validDraws zeroGen /\
  exists px,
    head px = Some 0 /\ NoDup px /\
    (forall p, p ∈ px <-> inGrid 5 2 p) /\
    processImage zeroGen "img" plainBuffer 5 2 3 tt =
      Ok (mkProcessedArt 5 2
            [mkPaletteColor (mkRGB 7 8 9) 1 (rgbToHex 7 8 9) 1]
            [mkRegion (traceRegionBoundary px 5 2 0 0) 1
                      (calculateLabelPoint px 5) (5 * 2)]
            "img").
Proof.
  assert (validDraws zeroGen) as Hv by (intros []; by vm_compute).
  split; [exact Hv|].
  apply (uniform_image_one_region unit zeroGen "img" plainBuffer 5 2 3 tt
           (mkRGB 7 8 9) Hv); [lia|lia|reflexivity| |lia|unfold minRegionArea; lia].
  intros i Hi.
  change (pixelOffsets plainBuffer) with [0; 4; 8; 12; 16; 20; 24; 28; 32; 36] in Hi.
  repeat (apply elem_of_cons in Hi as [->|Hi]; [by vm_compute|]).
  by apply elem_of_nil in Hi.
Defined.

(** ** Painting *)

Lemma colorRegionsIndices_spec regions id i :
  i ∈ colorRegionsIndices regions id <->
  exists idx r, regions !! idx = Some r /\ reg_colorId r = id /\ i = Z.of_nat idx.
Proof.
  unfold colorRegionsIndices. rewrite list_elem_of_filter, elem_of_lookup_imap. split.
  - intros (Hne & idx & r & -> & Hr). exists idx, r.
    destruct (Z.eqb_spec (reg_colorId r) id); [done|lia].
  - intros (idx & r & Hr & <- & ->). split; [lia|]. exists idx, r.
    by rewrite Z.eqb_refl.
Qed.

Lemma isFilled_true filledRegions idx :
  isFilled filledRegions idx = true <-> filledRegions !! idx = Some true.
Proof.
  unfold isFilled. destruct (filledRegions !! idx) as [[]|]; split; congruence.
Qed.

(** The test made for one colour of the palette. *)
Lemma checkColor_test art filledRegions id :
  colourTest art filledRegions id = true <-> colourDone art filledRegions id.
Proof.
  unfold colourTest.
  rewrite andb_true_iff, forallb_forall, Z.ltb_lt. unfold colourDone. split.
  - intros [Hall Hlen]. split.
    + destruct (colorRegionsIndices (art_regions art) id) as [|i l] eqn:E;
        [simpl in Hlen; lia|].
      assert (i ∈ colorRegionsIndices (art_regions art) id) as Hi
        by (rewrite E; by left).
      apply colorRegionsIndices_spec in Hi as (idx & r & ? & ? & _). by exists idx, r.
    + intros idx r Hr Hid. apply isFilled_true, Hall, list_elem_of_In.
      apply colorRegionsIndices_spec. by exists idx, r.
  - intros [(idx & r & Hr & Hid) Hall]. split.
    + intros i (idx' & r' & Hr' & Hid' & ->)%list_elem_of_In%colorRegionsIndices_spec.
      apply isFilled_true. by eapply Hall.
    + assert (Z.of_nat idx ∈ colorRegionsIndices (art_regions art) id) as Hi
        by (apply colorRegionsIndices_spec; by exists idx, r).
      destruct (colorRegionsIndices (art_regions art) id);
        [by apply elem_of_nil in Hi|simpl; lia].
Qed.

Lemma checkColor_fold art filledRegions palette acc :
  fold_left (checkColor art filledRegions) palette acc =
  acc ++ (pc_id <$> filter (fun c => colourTest art filledRegions (pc_id c) = true)
                           palette).
Proof.
  revert acc. induction palette as [|color palette IH]; intros acc.
  { by rewrite app_nil_r. }
  cbn [fold_left]. rewrite IH.
  change (checkColor art filledRegions acc color)
    with (if colourTest art filledRegions (pc_id color)
          then acc ++ [pc_id color] else acc).
  destruct (colourTest art filledRegions (pc_id color)) eqn:Ht.
  - rewrite filter_cons_True by done. by rewrite <- app_assoc.
  - rewrite filter_cons_False by congruence. done.
Qed.

Lemma completed_member art filledRegions completedColors id :
  id ∈ completedColorsEffect (Some art) filledRegions completedColors <->
  (exists color, color ∈ art_palette art /\ pc_id color = id) /\
  colourDone art filledRegions id.
Proof.
  unfold completedColorsEffect. rewrite checkColor_fold. simpl.
  rewrite list_elem_of_fmap. split.
  - intros (c & -> & [Ht Hc]%list_elem_of_filter).
    split; [by exists c|by apply checkColor_test].
  - intros [(c & Hc & <-) Hdone]. exists c. split; [done|].
    apply list_elem_of_filter. split; [by apply checkColor_test|done].
Qed.

(** X17.  The effect marks a colour as completed exactly when it is the
    id of a palette entry, at least one region has that colour, and every
    region of that colour is filled; the completed colours come in palette
    order.  Without an artwork the previous value is kept. *)
Theorem completed_colours_spec :
  forall art filledRegions completedColors,
    (forall id,
       id ∈ completedColorsEffect (Some art) filledRegions completedColors <->
       (exists color, color ∈ art_palette art /\ pc_id color = id) /\
       (exists idx r, art_regions art !! idx = Some r /\ reg_colorId r = id) /\
       (forall idx r, art_regions art !! idx = Some r -> reg_colorId r = id ->
          filledRegions !! Z.of_nat idx = Some true)) /\
    completedColorsEffect (Some art) filledRegions completedColors
      `sublist_of` (pc_id <$> art_palette art) /\
    completedColorsEffect None filledRegions completedColors = completedColors.
Proof.
  intros art filledRegions completedColors. split_and!; [|
    |done].
  - intros id. rewrite completed_member. unfold colourDone. tauto.
  - unfold completedColorsEffect. rewrite checkColor_fold. simpl.
    apply fmap_sublist, sublist_filter.
Qed.

(** X18.  A click on an existing region with some colour selected never
    throws and leaves the region's colour selected.  It fills the clicked
    region when the selected colour was the region's, and changes no other
    entry of [filledRegions]; so a second click on the same region always
    fills it (region colours are never 0 in an artwork of the pipeline). *)
Theorem region_click_behaviour :
  forall art activeColorId filledRegions regionIndex region,
    aget (art_regions art) regionIndex = Some region ->
    activeColorId <> 0 ->
    exists ed,
      handleRegionClick (mkEditor (Some art) (Some activeColorId) filledRegions)
                        regionIndex = Ok ed /\
      ed_art ed = Some art /\
      ed_activeColorId ed = Some (reg_colorId region) /\
      (forall idx, isFilled (ed_filledRegions ed) idx = true <->
         isFilled filledRegions idx = true \/
         (idx = regionIndex /\ reg_colorId region = activeColorId)) /\
      (reg_colorId region <> 0 ->
       exists ed',
         handleRegionClick ed regionIndex = Ok ed' /\
         ed_art ed' = Some art /\
         ed_activeColorId ed' = Some (reg_colorId region) /\
         isFilled (ed_filledRegions ed') regionIndex = true).
Proof.
  intros art a filled i region Hr Ha. unfold handleRegionClick at 1. simpl.
  destruct (Z.eqb_spec a 0) as [|_]; [done|]. rewrite Hr.
  destruct (Z.eqb_spec (reg_colorId region) a) as [Heq|Hne].
  - eexists. split; [done|]. simpl. split_and!; [done|by rewrite Heq| |].
    + intros idx. rewrite !isFilled_true.
      destruct (decide (idx = i)) as [->|Hidx].
      * rewrite lookup_insert_eq. tauto.
      * rewrite lookup_insert_ne by done. tauto.
    + intros _. unfold handleRegionClick. simpl.
      destruct (Z.eqb_spec a 0) as [|_]; [done|]. rewrite Hr.
      rewrite (proj2 (Z.eqb_eq _ _) Heq). eexists. split; [done|]. simpl.
      split_and!; [done|by rewrite Heq|].
      apply isFilled_true. by rewrite lookup_insert_eq.
  - eexists. split; [done|]. simpl. split_and!; [done|done| |].
    + intros idx. tauto.
    + intros Hc. unfold handleRegionClick. simpl.
      destruct (Z.eqb_spec (reg_colorId region) 0) as [|_]; [done|]. rewrite Hr.
      rewrite Z.eqb_refl. eexists. split; [done|]. simpl. split_and!; [done|done|].
      apply isFilled_true. by rewrite lookup_insert_eq.
Qed.

Lemma region_click_behaviour_witness :
  exists ed,
    handleRegionClick (mkEditor (Some sparseArt) (Some 3) ∅) 0 = Ok ed /\
    ed_art ed = Some sparseArt /\
    ed_activeColorId ed = Some 1 /\
    (forall idx, isFilled (ed_filledRegions ed) idx = true <->
       isFilled ∅ idx = true \/ (idx = 0 /\ 1 = 3)) /\
    (1 <> 0 ->
     exists ed',
       handleRegionClick ed 0 = Ok ed' /\
       ed_art ed' = Some sparseArt /\
       ed_activeColorId ed' = Some 1 /\
       isFilled (ed_filledRegions ed') 0 = true).
Proof.
  destruct (aget (art_regions sparseArt) 0) as [region|] eqn:Hr; [|discriminate].
  assert (reg_colorId region = 1) as Hid by (vm_compute in Hr; by injection Hr as <-).
  rewrite <- Hid.
  apply (region_click_behaviour sparseArt 3 ∅ 0 region Hr). lia.
Defined.

(** ** Sequences of events *)

Lemma size_bounded (m : gmap Z bool) (n : nat) :
  (forall idx v, m !! idx = Some v -> 0 <= idx < Z.of_nat n) ->
  (size m <= n)%nat /\
  (size m = n -> forall idx, 0 <= idx < Z.of_nat n -> is_Some (m !! idx)).
Proof.
  intros Hkeys.
  set (S := list_to_set (seqZ 0 (Z.of_nat n)) : gset Z).
  assert (size S = n) as HS.
  { unfold S. rewrite size_list_to_set by apply NoDup_seqZ.
    rewrite length_seqZ. lia. }
  assert (dom m ⊆ S) as Hsub.
  { intros idx [v Hv]%elem_of_dom. apply elem_of_list_to_set, elem_of_seqZ.
    specialize (Hkeys idx v Hv). lia. }
  rewrite <- (size_dom m). split.
  - rewrite <- HS. by apply subseteq_size.
  - intros Hsize idx Hidx. apply elem_of_dom.
    assert (dom m = S) as -> by (apply set_subseteq_size_eq; [done|lia]).
    apply elem_of_list_to_set, elem_of_seqZ. lia.
Qed.

(** Every event keeps [editorInv]. *)
Lemma handle_inv art (evs : list Event) ev ed ed' :
  ev ∈ evs -> editorInv art evs ed -> handle ed ev = Ok ed' ->
  editorInv art evs ed'.
Proof.
  intros Hev [Hart Hkeys]. destruct ev as [id|i]; simpl.
  { intros [= <-]. done. }
  unfold handleRegionClick. rewrite Hart.
  destruct (ed_activeColorId ed) as [a|]; [|by intros [= <-]].
  destruct (a =? 0); [by intros [= <-]|].
  destruct (aget (art_regions art) i) as [region|] eqn:Hr; [|done].
  destruct (reg_colorId region =? a); intros [= <-]; [|done].
  split; [done|]. simpl. intros idx v. destruct (decide (idx = i)) as [->|Hne].
  - rewrite lookup_insert_eq. intros [= <-].
    apply aget_Some_range in Hr. done.
  - rewrite lookup_insert_ne by done. apply Hkeys.
Qed.

Lemma handle_mono ed ev ed' idx :
  handle ed ev = Ok ed' ->
  isFilled (ed_filledRegions ed) idx = true ->
  isFilled (ed_filledRegions ed') idx = true.
Proof.
  destruct ev as [id|i]; simpl; [by intros [= <-]|].
  unfold handleRegionClick.
  destruct (ed_art ed) as [art|]; [|by intros [= <-]].
  destruct (ed_activeColorId ed) as [a|]; [|by intros [= <-]].
  destruct (a =? 0); [by intros [= <-]|].
  destruct (aget (art_regions art) i) as [region|]; [|done].
  destruct (reg_colorId region =? a); intros [= <-]; simpl; [|done].
  rewrite !isFilled_true. intros Hf. destruct (decide (idx = i)) as [->|Hne].
  - by rewrite lookup_insert_eq.
  - by rewrite lookup_insert_ne.
Qed.

(** X19.  Over any sequence of colour selections and region clicks:
    a filled region stays filled; starting from an empty [filledRegions],
    every key of [filledRegions] is the index of an existing region that
    was clicked, with value [true], so the count shown as progress never
    exceeds the number of regions and reaches it only when every region is
    filled.  The sequence runs without a throw when every click is on an
    existing region. *)
Theorem painting_invariants :
  forall art evs,
    (forall ed ed' idx,
       foldM handle evs ed = Ok ed' ->
       isFilled (ed_filledRegions ed) idx = true ->
       isFilled (ed_filledRegions ed') idx = true) /\
    (forall activeColorId ed',
       foldM handle evs (mkEditor (Some art) activeColorId ∅) = Ok ed' ->
       ed_art ed' = Some art /\
       (forall idx v, ed_filledRegions ed' !! idx = Some v ->
          v = true /\ 0 <= idx < Z.of_nat (length (art_regions art)) /\
          ClickRegion idx ∈ evs) /\
       (filledCount ed' <= length (art_regions art))%nat /\
       (filledCount ed' = length (art_regions art) ->
        forall idx, 0 <= idx < Z.of_nat (length (art_regions art)) ->
          isFilled (ed_filledRegions ed') idx = true)) /\
    ((forall idx, ClickRegion idx ∈ evs ->
        0 <= idx < Z.of_nat (length (art_regions art))) ->
     forall activeColorId filledRegions,
       exists ed',
         foldM handle evs (mkEditor (Some art) activeColorId filledRegions) = Ok ed').
Proof.
  intros art evs. split_and!.
  - intros ed ed' idx Hrun.
    refine (foldM_inv handle
              (fun t => isFilled (ed_filledRegions ed) idx = true ->
                        isFilled (ed_filledRegions t) idx = true)
              evs ed ed' _ _ Hrun); [done|].
    intros ev t t' _ Ht Hstep Hf. eapply handle_mono; [done|]. by apply Ht.
  - intros a ed' Hrun.
    assert (editorInv art evs ed') as [Hart Hkeys].
    { refine (foldM_inv handle (editorInv art evs) evs _ ed' _ _ Hrun).
      - split; [done|]. simpl. intros idx v. by rewrite lookup_empty.
      - intros ev t t'. apply handle_inv. }
    destruct (size_bounded (ed_filledRegions ed') (length (art_regions art)))
      as [Hle Hfull].
    { intros idx v Hv. by destruct (Hkeys idx v Hv) as (_ & ? & _). }
    split_and!; try done.
    intros Hcount idx Hidx. destruct (Hfull Hcount idx Hidx) as [v Hv].
    apply isFilled_true. by destruct (Hkeys idx v Hv) as (-> & _).
  - intros Hvalid a filled.
    destruct (foldM_total handle (fun t => ed_art t = Some art) evs
                (mkEditor (Some art) a filled)) as (ed' & Hrun & _);
      [done| |by exists ed'].
    intros ev t Hev Hart. destruct ev as [id|i]; simpl; [by eexists|].
    unfold handleRegionClick. rewrite Hart.
    destruct (ed_activeColorId t) as [a'|]; [|by eexists].
    destruct (a' =? 0); [by eexists|].
    destruct (aget_in_range (art_regions art) i (Hvalid i Hev)) as [region ->].
    destruct (reg_colorId region =? a'); by eexists.
Qed.

Lemma painting_invariants_witness :
  exists ed',
    foldM handle [SelectColor 1; ClickRegion 0; ClickRegion 1]
          (mkEditor (Some sparseArt) None ∅) = Ok ed' /\
    ed_art ed' = Some sparseArt /\
    (forall idx v, ed_filledRegions ed' !! idx = Some v ->
       v = true /\ 0 <= idx < Z.of_nat (length (art_regions sparseArt)) /\
       ClickRegion idx ∈ [SelectColor 1; ClickRegion 0; ClickRegion 1]) /\
    (filledCount ed' <= length (art_regions sparseArt))%nat /\
    (filledCount ed' = length (art_regions sparseArt) ->
     forall idx, 0 <= idx < Z.of_nat (length (art_regions sparseArt)) ->
       isFilled (ed_filledRegions ed') idx = true).
Proof.
  eexists. split; [reflexivity|].
  apply (proj1 (proj2 (painting_invariants sparseArt
                         [SelectColor 1; ClickRegion 0; ClickRegion 1])) None).
  reflexivity.
Defined.

(** ** The editor on an artwork of the pipeline *)

Lemma usageCount_exists id rs :
  0 < usageCount id rs -> exists r, r ∈ rs /\ reg_colorId r = id.
Proof.
  unfold usageCount. intros Hpos.
  destruct (filter (fun r => reg_colorId r = id) rs) as [|r l] eqn:E;
    [simpl in Hpos; lia|].
  assert (r ∈ filter (fun r => reg_colorId r = id) rs) as Hr by (rewrite E; by left).
  apply list_elem_of_filter in Hr as [Hid Hr]. by exists r.
Qed.

(** How the palette and the regions of an artwork refer to each other. *)
Lemma processWith_linked {G} (random : G -> Q * G) minArea url data width height k
    gen art :
  processWith random minArea url data width height k gen = Ok art ->
  (forall r, r ∈ art_regions art ->
     exists p, p ∈ art_palette art /\ pc_id p = reg_colorId r) /\
  (forall p, p ∈ art_palette art ->
     1 <= pc_id p <= Z.of_nat k /\
     pc_count p = usageCount (pc_id p) (art_regions art) /\
     exists r, r ∈ art_regions art /\ reg_colorId r = pc_id p) /\
  NoDup (pc_id <$> art_palette art).
Proof.
  intros H. rewrite processWith_draws in H. unfold processFrom, quantizeFrom in H.
  apply obind_Ok in H as (palette & Hq & H).
  apply obind_Ok in Hq as (cs & Href & [= <-]).
  apply obind_Ok in H as (sc & Hex & [= <-]). simpl.
  assert (length cs = k) as Hk.
  { rewrite (refine_length _ _ _ _ Href), length_fmap. apply length_draws. }
  destruct (extractRegions_palette _ _ _ _ _ _ (uniqueIds_toPalette cs) Hex)
    as (Hlen & Hent & Hreg).
  set (rs := snd <$> sc_regions sc) in *.
  assert (forall i p, sc_palette sc !! i = Some p ->
            pc_id p = Z.of_nat i + 1 /\ (i < k)%nat /\
            pc_count p = usageCount (pc_id p) rs) as Hpal.
  { intros i p Hp.
    destruct (lookup_lt_is_Some_2 (toPalette cs) i) as [p0 Hp0].
    { rewrite <- Hlen. by eapply lookup_lt_Some. }
    rewrite (Hent i p0 Hp0) in Hp. injection Hp as <-. simpl.
    unfold toPalette in Hp0. rewrite list_lookup_imap in Hp0.
    destruct (cs !! i) as [c|] eqn:Hc; [|done]. injection Hp0 as <-. simpl.
    apply lookup_lt_Some in Hc. split_and!; [done|lia|lia]. }
  split_and!.
  - intros r (e & -> & He)%list_elem_of_fmap.
    destruct (Hreg e He) as (i & p0 & Hp0 & Hid).
    pose proof (Hent i p0 Hp0) as Hp.
    destruct (Hpal _ _ Hp) as (_ & _ & Hcnt). simpl in Hcnt.
    exists (mkPaletteColor (pc_rgb p0) (pc_id p0) (pc_hex p0)
              (pc_count p0 + usageCount (pc_id p0) rs)).
    split; [|exact (eq_sym Hid)].
    apply list_elem_of_filter. split; [|by eapply list_elem_of_lookup_2].
    simpl. rewrite Hcnt, <- Hid.
    apply usageCount_pos. unfold rs. apply list_elem_of_fmap. by exists e.
  - intros p [Hpos [i Hp]%list_elem_of_lookup]%list_elem_of_filter.
    destruct (Hpal i p Hp) as (Hid & Hi & Hcnt). split_and!; [lia|lia|done|].
    apply usageCount_exists. lia.
  - eapply sublist_NoDup; [|apply fmap_sublist, sublist_filter].
    apply NoDup_alt. intros i j id Hi Hj. rewrite list_lookup_fmap in Hi, Hj.
    destruct (sc_palette sc !! i) as [p|] eqn:Hp; [|done].
    destruct (sc_palette sc !! j) as [q|] eqn:Hq; [|done].
    simpl in *. injection Hi as <-. injection Hj as Hj.
    destruct (Hpal i p Hp) as (Hip & _). destruct (Hpal j q Hq) as (Hjq & _). lia.
Qed.

Lemma filter_all {A} (P : A -> Prop) `{!forall x, Decision (P x)} (l : list A) :
  (forall x, x ∈ l -> P x) -> filter P l = l.
Proof.
  induction l as [|a l IH]; intros Hall; [done|].
  rewrite filter_cons_True by (apply Hall; by left).
  f_equal. apply IH. intros x Hx. apply Hall. by right.
Qed.

(** X20.  On an artwork of the pipeline, no colour is completed while
    nothing is filled, and the completed colours are the whole palette
    exactly when every region is filled. *)
Theorem finished_painting :
  forall (G : Type) (random : G -> Q * G) imageUrl data width height k gen art,
    processImage random imageUrl data width height k gen = Ok art ->
    (forall completedColors,
       completedColorsEffect (Some art) ∅ completedColors = []) /\
    (forall filledRegions completedColors,
       (forall idx r, art_regions art !! idx = Some r ->
                      filledRegions !! Z.of_nat idx = Some true) <->
       completedColorsEffect (Some art) filledRegions completedColors
         = pc_id <$> art_palette art).
Proof.
  intros G random url data width height k gen art Hart.
  destruct (processWith_linked _ _ _ _ _ _ _ _ _ Hart) as (Hreg & Hpal & _).
  split.
  - intros prev. unfold completedColorsEffect. rewrite checkColor_fold. simpl.
    rewrite filter_none; [done|].
    intros c Hc Ht. apply checkColor_test in Ht as [_ Hall].
    destruct (Hpal c Hc) as (_ & _ & r & [idx Hr]%list_elem_of_lookup & Hid).
    specialize (Hall idx r Hr Hid). by rewrite lookup_empty in Hall.
  - intros filled prev. split.
    + intros Hfilled. unfold completedColorsEffect. rewrite checkColor_fold. simpl.
      f_equal. apply filter_all. intros c Hc. apply checkColor_test. split.
      * destruct (Hpal c Hc) as (_ & _ & r & [idx Hr]%list_elem_of_lookup & Hid).
        by exists idx, r.
      * intros idx r Hr _. by eapply Hfilled.
    + intros Hall idx r Hr.
      destruct (Hreg r) as (p & Hp & Hid); [by eapply list_elem_of_lookup_2|].
      assert (reg_colorId r ∈ completedColorsEffect (Some art) filled prev) as Hin.
      { rewrite Hall. apply list_elem_of_fmap. by exists p. }
      apply completed_member in Hin as [_ [_ Hdone]]. by eapply Hdone.
Qed.

Lemma finished_painting_witness :
  exists art,
    processImage cycleGen "img" plainBuffer 5 2 3 0%nat = Ok art /\
    (forall completedColors,
       completedColorsEffect (Some art) ∅ completedColors = []) /\
    (forall filledRegions completedColors,
       (forall idx r, art_regions art !! idx = Some r ->
                      filledRegions !! Z.of_nat idx = Some true) <->
       completedColorsEffect (Some art) filledRegions completedColors
         = pc_id <$> art_palette art).
Proof.
  eexists. split; [vm_compute; reflexivity|].
  apply (finished_painting nat cycleGen "img" plainBuffer 5 2 3 0%nat).
  vm_compute; reflexivity.
Defined.

(** X21.  For every region of an artwork of the pipeline the canvas finds
    its paint: the palette holds exactly one entry with the region's
    colour id, its id lies in 1..k and its count is the number of regions
    of that colour. *)
Theorem region_paint_found :
  forall (G : Type) (random : G -> Q * G) imageUrl data width height k gen art,
    processImage random imageUrl data width height k gen = Ok art ->
    forall r, r ∈ art_regions art ->
      exists p,
        paintColor art r = Some p /\ p ∈ art_palette art /\
        pc_id p = reg_colorId r /\ 1 <= reg_colorId r <= Z.of_nat k /\
        pc_count p = usageCount (reg_colorId r) (art_regions art) /\
        0 < pc_count p /\
        (forall i j q q', art_palette art !! i = Some q ->
           art_palette art !! j = Some q' ->
           pc_id q = reg_colorId r -> pc_id q' = reg_colorId r -> i = j).
Proof.
  intros G random url data width height k gen art Hart r Hr.
  destruct (processWith_linked _ _ _ _ _ _ _ _ _ Hart) as (Hreg & Hpal & Hnd).
  destruct (Hreg r Hr) as (p0 & Hp0 & Hid0).
  unfold paintColor.
  destruct (find (fun p => pc_id p =? reg_colorId r) (art_palette art)) as [p|] eqn:Hf.
  - apply find_some in Hf as [Hp%list_elem_of_In Hid%Z.eqb_eq].
    destruct (Hpal p Hp) as (Hrange & Hcnt & _).
    exists p. rewrite <- Hid. split_and!; try done; try lia.
    + rewrite Hcnt, Hid. apply usageCount_pos. done.
    + intros i j q q' Hq Hq' Hi Hj.
      apply (proj1 (NoDup_alt _) Hnd i j (pc_id p)); rewrite list_lookup_fmap.
      * rewrite Hq. simpl. congruence.
      * rewrite Hq'. simpl. congruence.
  - exfalso. pose proof (find_none _ _ Hf p0 (proj1 (list_elem_of_In _ _) Hp0)) as Hno.
    simpl in Hno. apply Z.eqb_neq in Hno. done.
Qed.

Lemma region_paint_found_witness :
  exists art,
    processImage cycleGen "img" plainBuffer 5 2 3 0%nat = Ok art /\
    forall r, r ∈ art_regions art ->
      exists p,
        paintColor art r = Some p /\ p ∈ art_palette art /\
        pc_id p = reg_colorId r /\ 1 <= reg_colorId r <= Z.of_nat 3 /\
        pc_count p = usageCount (reg_colorId r) (art_regions art) /\
        0 < pc_count p /\
        (forall i j q q', art_palette art !! i = Some q ->
           art_palette art !! j = Some q' ->
           pc_id q = reg_colorId r -> pc_id q' = reg_colorId r -> i = j).
Proof.
  eexists. split; [vm_compute; reflexivity|].
  apply (region_paint_found nat cycleGen "img" plainBuffer 5 2 3 0%nat).
  vm_compute; reflexivity.
Defined.

(** ** The data-URL header *)

Lemma split_without sep s : mentions sep s = false -> split sep s = [s].
Proof.
  induction s as [|c s IH]; [done|]. simpl.
  destruct (Ascii.eqb c sep); [done|]. simpl. intros Hs. by rewrite IH.
Qed.

Lemma split_at sep h t :
  mentions sep h = false ->
  split sep (h ++ String sep t) = h :: split sep t.
Proof.
  induction h as [|c h IH]; simpl.
  { by rewrite Ascii.eqb_refl. }
  destruct (Ascii.eqb c sep); [done|]. simpl. intros Hh. by rewrite IH.
Qed.

Lemma split_pieces sep s piece :
  piece ∈ split sep s -> mentions sep piece = false.
Proof.
  revert piece. induction s as [|c s IH]; intros piece; simpl.
  { by intros ->%list_elem_of_singleton. }
  destruct (Ascii.eqb c sep) eqn:Hc.
  - intros [->|Hp]%elem_of_cons; [done|by apply IH].
  - destruct (split sep s) as [|p ps]; simpl.
    + intros ->%list_elem_of_singleton. simpl. by rewrite Hc.
    + intros [->|Hp]%elem_of_cons.
      * simpl. rewrite Hc. apply IH. by left.
      * apply IH. by right.
Qed.

Lemma cleanBase64_without s : mentions "," s = false -> cleanBase64 s = s.
Proof. intros Hs. unfold cleanBase64. by rewrite split_without. Qed.

(** X22.  The header of a data URL is stripped: for a header without a
    comma and a non-empty payload without a comma the result is the
    payload.  A string without a comma is returned as it is; a payload is
    cut at its first comma; when nothing follows the first comma, or a
    second comma follows it at once, the whole string is returned, header
    included.  Stripping twice is stripping once. *)
Theorem cleanBase64_spec :
  (forall s, mentions "," s = false -> cleanBase64 s = s) /\
  (forall header payload,
     mentions "," header = false -> mentions "," payload = false ->
     payload <> EmptyString ->
     cleanBase64 (header ++ String "," payload) = payload /\
     forall rest,
       cleanBase64 (header ++ String "," (payload ++ String "," rest)) = payload) /\
  (forall header,
     mentions "," header = false ->
     cleanBase64 (header ++ String "," EmptyString)
       = (header ++ String "," EmptyString)%string /\
     forall rest,
       cleanBase64 (header ++ String "," (String "," rest))
         = (header ++ String "," (String "," rest))%string) /\
  (forall s, cleanBase64 (cleanBase64 s) = cleanBase64 s).
Proof.
  split_and!.
  - apply cleanBase64_without.
  - intros header payload Hh Hp Hne. split.
    + unfold cleanBase64. rewrite split_at, split_without by done. simpl.
      by destruct payload.
    + intros rest. unfold cleanBase64. rewrite !split_at by done. simpl.
      by destruct payload.
  - intros header Hh. split.
    + unfold cleanBase64. by rewrite split_at.
    + intros rest. unfold cleanBase64. by rewrite split_at.
  - intros s.
    assert (cleanBase64 s = s \/ mentions "," (cleanBase64 s) = false) as [Hs|Hs].
    { unfold cleanBase64.
      destruct (split "," s !! 1%nat) as [[|c piece]|] eqn:Hp; [by left| |by left].
      right. apply (split_pieces _ s). by eapply list_elem_of_lookup_2. }
    + by rewrite !Hs.
    + by apply cleanBase64_without.
Qed.

Lemma cleanBase64_spec_witness :
  cleanBase64 "data:image/png;base64,iVBORw0KGgo=" = "iVBORw0KGgo="%string /\
  forall rest,
    cleanBase64 ("data:image/png;base64" ++ String "," ("iVBORw0KGgo=" ++ String "," rest))
      = "iVBORw0KGgo="%string.
Proof.
  apply (proj1 (proj2 cleanBase64_spec) "data:image/png;base64" "iVBORw0KGgo=");
    [reflexivity|reflexivity|discriminate].
Defined.

(** ** Regions against the pixels of the image *)

Lemma region_pixel_colour data palette width height minArea sc e p :
  Z.of_nat (length data) = 4 * (width * height) ->
  extractRegions width height (labelPixels data palette width height)
                 minArea palette = Ok sc ->
  e ∈ sc_regions sc -> p ∈ e.1 ->
  inGrid width height p /\
  transparentAt data (4 * p) = false /\
  exists pc,
    palette !! nearest (pixelAt data (4 * p)) (pc_rgb <$> palette) = Some pc /\
    reg_colorId e.2 = pc_id pc /\
    isNearest (pixelAt data (4 * p)) (pc_rgb <$> palette)
              (nearest (pixelAt data (4 * p)) (pc_rgb <$> palette)).
Proof.
  intros Hlen Hex He Hp.
  set (labels := labelPixels data palette width height) in *.
  destruct (extractRegions_ind_inv
              (scanColours width height labels palette)
              width height labels minArea palette sc) as [Hinv [_ Hcol]]; [| |done|].
  { split; [done|]. apply Forall_nil_2. }
  { intros x y st st'. apply scanColours_step. }
  destruct Hinv as [_ _ _ Hns Hregs _ Hrv _ _].
  rewrite Forall_forall in Hregs, Hcol.
  destruct (Hregs e He) as (s & _ & Hs & _ & _ & Hcomp & _).
  assert (inGrid width height p) as Hg.
  { eapply connected_grid; [exact Hs|]. by apply Hcomp. }
  destruct (Hcol e He) as (ci & pc & x & y & Hpc & Hci & _ & He2).
  pose proof (Hci p Hp) as Hlab.
  assert (aget labels p <> Some (-1)) as Hnot.
  { apply Hns, Hrv. unfold regionPixels. apply list_elem_of_join.
    exists e.1. split; [done|]. apply list_elem_of_fmap. by exists e. }
  unfold labels in Hlab, Hnot. rewrite labelPixels_at in Hlab, Hnot by done.
  destruct (transparentAt data (4 * p)); [done|].
  injection Hlab as <-. split_and!; [done|done|].
  exists pc. split_and!.
  - unfold aget in Hpc. destruct (Z.ltb_spec (Z.of_nat
      (nearest (pixelAt data (4 * p)) (pc_rgb <$> palette))) 0); [lia|].
    by rewrite Nat2Z.id in Hpc.
  - by rewrite He2.
  - apply nearest_spec. apply aget_Some_range in Hpc. destruct palette; [simpl in Hpc; lia|done].
Qed.


(** X23.  Labelling followed by extraction: every pixel of an extracted
    region lies in the image and is opaque, and the region's colour id is
    the id of the palette entry nearest to that pixel's colour (the first
    one at minimal distance). *)
Theorem region_pixels_match_colour :
  forall data palette width height minArea sc,
    Z.of_nat (length data) = 4 * (width * height) ->
    extractRegions width height (labelPixels data palette width height)
                   minArea palette = Ok sc ->
    forall e p, e ∈ sc_regions sc -> p ∈ e.1 ->
      inGrid width height p /\
      transparentAt data (4 * p) = false /\
      exists pc,
        palette !! nearest (pixelAt data (4 * p)) (pc_rgb <$> palette) = Some pc /\
        reg_colorId e.2 = pc_id pc /\
        isNearest (pixelAt data (4 * p)) (pc_rgb <$> palette)
                  (nearest (pixelAt data (4 * p)) (pc_rgb <$> palette)).
Proof.
  intros data palette width height minArea sc Hlen Hex e p He Hp.
  by eapply region_pixel_colour.
Qed.

Lemma region_pixels_match_colour_witness :
  exists sc,
    extractRegions 4 1 (labelPixels stripeImage (toPalette [red; blue]) 4 1)
                   1 (toPalette [red; blue]) = Ok sc /\
    forall e p, e ∈ sc_regions sc -> p ∈ e.1 ->
      inGrid 4 1 p /\
      transparentAt stripeImage (4 * p) = false /\
      exists pc,
        toPalette [red; blue]
          !! nearest (pixelAt stripeImage (4 * p)) (pc_rgb <$> toPalette [red; blue])
          = Some pc /\
        reg_colorId e.2 = pc_id pc /\
        isNearest (pixelAt stripeImage (4 * p)) (pc_rgb <$> toPalette [red; blue])
                  (nearest (pixelAt stripeImage (4 * p))
                           (pc_rgb <$> toPalette [red; blue])).
Proof.
  eexists. split; [vm_compute; reflexivity|].
  apply (region_pixels_match_colour stripeImage (toPalette [red; blue]) 4 1 1);
    [reflexivity|vm_compute; reflexivity].
Defined.

(** ** The path and the order of the pixels *)

Lemma fold_min_ext (f : Z -> Z) l l' a :
  (forall p, p ∈ l <-> p ∈ l') ->
  fold_left (fun m p => if f p <? m then f p else m) l a =
  fold_left (fun m p => if f p <? m then f p else m) l' a.
Proof.
  intros Hll.
  destruct (fold_min_spec f l a) as (H1 & H2 & H3).
  destruct (fold_min_spec f l' a) as (H1' & H2' & H3').
  cbv zeta in *.
  set (m := fold_left _ l a) in *. set (m' := fold_left _ l' a) in *.
  assert (m <= m').
  { destruct H3' as [->|(p & Hp & ->)]; [done|]. by apply H2, Hll. }
  assert (m' <= m).
  { destruct H3 as [->|(p & Hp & ->)]; [done|]. by apply H2', Hll. }
  lia.
Qed.

Lemma fold_max_ext (f : Z -> Z) l l' a :
  (forall p, p ∈ l <-> p ∈ l') ->
  fold_left (fun m p => if m <? f p then f p else m) l a =
  fold_left (fun m p => if m <? f p then f p else m) l' a.
Proof.
  intros Hll.
  destruct (fold_max_spec f l a) as (H1 & H2 & H3).
  destruct (fold_max_spec f l' a) as (H1' & H2' & H3').
  cbv zeta in *.
  set (m := fold_left _ l a) in *. set (m' := fold_left _ l' a) in *.
  assert (m <= m').
  { destruct H3 as [->|(p & Hp & ->)]; [done|]. by apply H2', Hll. }
  assert (m' <= m).
  { destruct H3' as [->|(p & Hp & ->)]; [done|]. by apply H2, Hll. }
  lia.
Qed.

(** X24.  The path depends on the pixels only as a set: two pixel lists
    with the same elements, in any order and with any repetitions, give
    the same path, whatever the start coordinates passed along. *)
Theorem path_ignores_pixel_order :
  forall pixels pixels' width height startX startY startX' startY',
    (forall p, p ∈ pixels <-> p ∈ pixels') ->
    boundaryEdges pixels width height = boundaryEdges pixels' width height /\
    traceRegionBoundary pixels width height startX startY =
    traceRegionBoundary pixels' width height startX' startY'.
Proof.
  intros pixels pixels' width height x y x' y' Hsame.
  assert (boundaryEdges pixels width height = boundaryEdges pixels' width height) as He.
  { unfold boundaryEdges.
    assert ((list_to_set pixels : gset Z) = list_to_set pixels') as ->.
    { apply set_eq. intros p. by rewrite !elem_of_list_to_set. }
    unfold boundingBox. rewrite !boundingBox_components.
    rewrite (fold_min_ext (fun p => Z.rem p width) pixels pixels') by done.
    rewrite (fold_max_ext (fun p => Z.rem p width) pixels pixels') by done.
    rewrite (fold_min_ext (fun p => p / width) pixels pixels') by done.
    rewrite (fold_max_ext (fun p => p / width) pixels pixels') by done.
    done. }
  split; [done|]. unfold traceRegionBoundary. by rewrite He.
Qed.

Lemma path_ignores_pixel_order_witness :
  boundaryEdges [0; 1; 3] 3 3 = boundaryEdges [3; 1; 0; 1] 3 3 /\
  traceRegionBoundary [0; 1; 3] 3 3 0 0 = traceRegionBoundary [3; 1; 0; 1] 3 3 1 1.
Proof.
  apply (path_ignores_pixel_order [0; 1; 3] [3; 1; 0; 1] 3 3 0 0 1 1).
  intros p. rewrite !elem_of_cons, !elem_of_nil. tauto.
Defined.

(** ** The colours of the palette *)

(** An entry that survives the filter: its position among the centroids,
    and a pixel that is strictly nearer to it than to every centroid
    before it. *)
Lemma kept_entry data cs width height minArea sc p :
  Z.of_nat (length data) = 4 * (width * height) ->
  extractRegions width height (labelPixels data (toPalette cs) width height)
                 minArea (toPalette cs) = Ok sc ->
  p ∈ filter (fun p => 0 < pc_count p) (sc_palette sc) ->
  exists ip x,
    cs !! ip = Some (pc_rgb p) /\ pc_id p = Z.of_nat ip + 1 /\
    pc_hex p = rgbToHex (c_r (pc_rgb p)) (c_g (pc_rgb p)) (c_b (pc_rgb p)) /\
    forall i c, cs !! i = Some c -> (i < ip)%nat ->
      colorDistance2 x (pc_rgb p) < colorDistance2 x c.
Proof.
  intros Hlen Hex [Hpos [ip Hp]%list_elem_of_lookup]%list_elem_of_filter.
  destruct (extractRegions_palette _ _ _ _ _ _ (uniqueIds_toPalette cs) Hex)
    as (Hplen & Hent & _).
  destruct (lookup_lt_is_Some_2 (toPalette cs) ip) as [p0 Hp0].
  { rewrite <- Hplen. by eapply lookup_lt_Some. }
  rewrite (Hent ip p0 Hp0) in Hp. injection Hp as <-.
  unfold toPalette in Hp0. rewrite list_lookup_imap in Hp0.
  destruct (cs !! ip) as [c|] eqn:Hc; [|done]. injection Hp0 as <-.
  cbn [pc_rgb pc_id pc_hex pc_count] in *.
  destruct (usageCount_exists (Z.of_nat ip + 1) (snd <$> sc_regions sc))
    as (r & (e & -> & He)%list_elem_of_fmap & Hid); [lia|].
  destruct (extractRegions_inv _ _ _ _ _ _ Hex) as [_ _ _ _ Hregs _ _ _ _].
  rewrite Forall_forall in Hregs.
  destruct (Hregs e He) as (s & Hhead & _).
  assert (s ∈ e.1) as Hs by (destruct e.1; [done|injection Hhead as ->; by left]).
  destruct (region_pixel_colour _ _ _ _ _ _ _ _ Hlen Hex He Hs)
    as (_ & _ & pc & Hpc & Hcol & c' & Hc' & Hmin).
  set (x := pixelAt data (4 * s)) in *.
  set (n := nearest x (pc_rgb <$> toPalette cs)) in *.
  unfold toPalette in Hpc. rewrite list_lookup_imap in Hpc.
  destruct (cs !! n) as [cn|] eqn:Hcn; [|done]. injection Hpc as <-.
  simpl in Hcol. assert (n = ip) as Hn by lia. rewrite Hn in *.
  assert (forall i, (pc_rgb <$> toPalette cs) !! i = cs !! i) as Hrgb.
  { intros i. unfold toPalette. rewrite list_lookup_fmap, list_lookup_imap.
    by destruct (cs !! i). }
  rewrite Hrgb, Hc in Hc'. injection Hc' as <-.
  exists ip, x. split_and!; try done.
  intros i ci Hi Hlt. apply (Hmin i ci); [by rewrite Hrgb|done].
Qed.

(** X25.  No two entries of the artwork's palette have the same colour:
    an entry that labels a pixel is strictly nearer to it than every
    earlier centroid, so a centroid that repeats an earlier colour labels
    nothing and is filtered out.  On a byte buffer the hex strings of the
    entries are pairwise different as well. *)
Theorem palette_colours_distinct :
  forall (G : Type) (random : G -> Q * G) imageUrl data width height k gen art,
    Z.of_nat (length data) = 4 * (width * height) ->
    processImage random imageUrl data width height k gen = Ok art ->
    (forall i j p q, art_palette art !! i = Some p -> art_palette art !! j = Some q ->
       pc_rgb p = pc_rgb q -> i = j) /\
    (Forall isByte data ->
     forall i j p q, art_palette art !! i = Some p -> art_palette art !! j = Some q ->
       pc_hex p = pc_hex q -> i = j).
Proof.
  intros G random url data width height k gen art Hlen Hart.
  destruct (processWith_linked _ _ _ _ _ _ _ _ _ Hart) as (_ & _ & Hnd).
  unfold processImage in Hart. rewrite processWith_draws in Hart.
  unfold processFrom, quantizeFrom in Hart.
  apply obind_Ok in Hart as (palette & Hq & Hart).
  apply obind_Ok in Hq as (cs & Href & [= <-]).
  apply obind_Ok in Hart as (sc & Hex & [= <-]). cbn [art_palette] in *.
  assert (forall i j p q,
            filter (fun p => 0 < pc_count p) (sc_palette sc) !! i = Some p ->
            filter (fun p => 0 < pc_count p) (sc_palette sc) !! j = Some q ->
            pc_rgb p = pc_rgb q -> i = j) as Hrgb.
  { intros i j p q Hp Hq Heq.
    destruct (kept_entry _ _ _ _ _ _ p Hlen Hex) as (ip & x & Hip & Hidp & _ & Hminp);
      [by eapply list_elem_of_lookup_2|].
    destruct (kept_entry _ _ _ _ _ _ q Hlen Hex) as (iq & y & Hiq & Hidq & _ & Hminq);
      [by eapply list_elem_of_lookup_2|].
    assert (ip = iq) as Hpq.
    { destruct (Nat.lt_trichotomy ip iq) as [Hlt|[?|Hlt]]; [|done|].
      - specialize (Hminq ip _ Hip Hlt). rewrite Heq in Hminq. lia.
      - specialize (Hminp iq _ Hiq Hlt). rewrite Heq in Hminp. lia. }
    apply (proj1 (NoDup_alt _) Hnd i j (pc_id p)); rewrite list_lookup_fmap.
    - by rewrite Hp.
    - rewrite Hq. simpl. f_equal. lia. }
  split; [exact Hrgb|].
  intros Hd i j p q Hp Hq Hhex.
  assert (Forall byteColor cs) as Hcs.
  { eapply refine_bytes; [exact Hd| |exact Href].
    apply Forall_fmap, Forall_forall. intros u _. by apply pixelAt_byte. }
  destruct (kept_entry _ _ _ _ _ _ p Hlen Hex) as (ip & x & Hip & _ & Hhp & _);
    [by eapply list_elem_of_lookup_2|].
  destruct (kept_entry _ _ _ _ _ _ q Hlen Hex) as (iq & y & Hiq & _ & Hhq & _);
    [by eapply list_elem_of_lookup_2|].
  pose proof (proj1 (Forall_lookup _ _) Hcs _ _ Hip) as (? & ? & ?).
  pose proof (proj1 (Forall_lookup _ _) Hcs _ _ Hiq) as (? & ? & ?).
  rewrite Hhp, Hhq in Hhex. apply rgbToHex_inj in Hhex as (? & ? & ?); [|done..].
  apply (Hrgb i j p q Hp Hq).
  destruct (pc_rgb p), (pc_rgb q). simpl in *. by subst.
Qed.

Lemma palette_colours_distinct_witness :
  exists art,
    processImage cycleGen "img" plainBuffer 5 2 3 0%nat = Ok art /\
    (forall i j p q, art_palette art !! i = Some p -> art_palette art !! j = Some q ->
       pc_rgb p = pc_rgb q -> i = j) /\
    (Forall isByte plainBuffer ->
     forall i j p q, art_palette art !! i = Some p -> art_palette art !! j = Some q ->
       pc_hex p = pc_hex q -> i = j).
Proof.
  eexists. split; [vm_compute; reflexivity|].
  apply (palette_colours_distinct nat cycleGen "img" plainBuffer 5 2 3 0%nat);
    [reflexivity|vm_compute; reflexivity].
Defined.

(** ** The label of a rectangle *)

Lemma fold_sum_sumZ (f : Z -> Z) l a :
  fold_left (fun s p => s + f p) l a = a + sumZ (f <$> l).
Proof.
  revert a. induction l as [|p l IH]; intros a; [unfold sumZ; simpl; lia|].
  cbn [fold_left]. rewrite IH, fmap_cons. unfold sumZ. cbn [foldr]. lia.
Qed.

Lemma sumZ_app l1 l2 : sumZ (l1 ++ l2) = sumZ l1 + sumZ l2.
Proof. unfold sumZ. induction l1 as [|a l1 IH]; simpl; lia. Qed.

Lemma sumZ_perm l1 l2 : l1 ≡ₚ l2 -> sumZ l1 = sumZ l2.
Proof. unfold sumZ. induction 1; simpl; lia. Qed.

Lemma sumZ_bind {A} (f : Z -> Z) (g : A -> list Z) l :
  sumZ (f <$> (l ≫= g)) = sumZ ((fun a => sumZ (f <$> g a)) <$> l).
Proof.
  induction l as [|a l IH]; [done|].
  rewrite bind_cons, fmap_app, sumZ_app, IH. done.
Qed.

Lemma sumZ_seqZ a n : 0 <= n -> 2 * sumZ (seqZ a n) = n * (2 * a + n - 1).
Proof.
  intros Hn. rewrite <- (Z2Nat.id n) by done.
  induction (Z.to_nat n) as [|k IH]; [done|].
  rewrite seqZ_S, sumZ_app. unfold sumZ in *. simpl. lia.
Qed.

Lemma sumZ_const_list {A} (c : Z) (l : list A) :
  sumZ ((fun _ => c) <$> l) = Z.of_nat (length l) * c.
Proof.
  induction l as [|a l IH]; [done|].
  rewrite fmap_cons. unfold sumZ in *. cbn [foldr length]. rewrite IH. lia.
Qed.

Lemma sumZ_scale {A} (c : Z) (f : A -> Z) (l : list A) :
  sumZ ((fun a => c * f a) <$> l) = c * sumZ (f <$> l).
Proof.
  induction l as [|a l IH]; [unfold sumZ; simpl; lia|].
  rewrite !fmap_cons. unfold sumZ in *. cbn [foldr]. rewrite IH. lia.
Qed.

Lemma mean_centre s n a w :
  0 < n -> 2 * s = n * (2 * a + w - 1) ->
  (inject_Z s / inject_Z n + (1 # 2) == inject_Z a + inject_Z w / 2)%Q.
Proof.
  intros Hn Hs. destruct n as [|np|np]; try lia.
  unfold Qeq, Qdiv, Qinv, Qmult, Qplus, inject_Z. simpl.
  rewrite ?Pos2Z.inj_mul. nia.
Qed.

(** X26.  The label of a rectangular block of pixels, whatever their order,
    is the centre of the block. *)
Theorem rectangle_label_centre :
  forall width x0 y0 w h pixels,
    0 <= x0 -> 0 <= y0 -> 0 < w -> 0 < h -> x0 + w <= width ->
    NoDup pixels ->
    (forall p, p ∈ pixels <->
       exists x y, x0 <= x < x0 + w /\ y0 <= y < y0 + h /\ p = y * width + x) ->
    ((calculateLabelPoint pixels width).1 == inject_Z x0 + inject_Z w / 2)%Q /\
    ((calculateLabelPoint pixels width).2 == inject_Z y0 + inject_Z h / 2)%Q.
Proof.
  intros width x0 y0 w h pixels Hx0 Hy0 Hw Hh Hfit Hnd Hrect.
  set (row := fun y => (fun x => y * width + x) <$> seqZ x0 w).
  set (block := seqZ y0 h ≫= row).
  assert (forall p, p ∈ block <->
            exists x y, x0 <= x < x0 + w /\ y0 <= y < y0 + h /\ p = y * width + x)
    as Hblock.
  { intros p. unfold block, row. rewrite list_elem_of_bind. split.
    - intros (y & (x & -> & Hx%elem_of_seqZ)%list_elem_of_fmap & Hy%elem_of_seqZ).
      exists x, y. lia.
    - intros (x & y & Hx & Hy & ->). exists y. split; [|apply elem_of_seqZ; lia].
      apply list_elem_of_fmap. exists x. split; [done|]. apply elem_of_seqZ. lia. }
  assert (NoDup block) as Hndb.
  { unfold block. apply NoDup_bind; [| |apply NoDup_seqZ].
    - intros y1 y2 p Hy1%elem_of_seqZ Hy2%elem_of_seqZ
        (x1 & -> & Hx1%elem_of_seqZ)%list_elem_of_fmap
        (x2 & Heq & Hx2%elem_of_seqZ)%list_elem_of_fmap. nia.
    - intros y _. unfold row. apply NoDup_fmap_2; [|apply NoDup_seqZ].
      intros x1 x2 Heq. lia. }
  assert (pixels ≡ₚ block) as Hperm.
  { apply NoDup_Permutation; [done|done|]. intros p. by rewrite Hrect, Hblock. }
  assert (Z.of_nat (length pixels) = w * h) as Hlen.
  { rewrite Hperm. unfold block. rewrite length_bind.
    rewrite (sum_list_with_ext_in _ (fun _ => Z.to_nat w)).
    - rewrite sum_list_with_const, length_seqZ. nia.
    - intros y _. unfold row. rewrite length_fmap, length_seqZ. done. }
  assert (2 * sumZ ((fun p => Z.rem p width) <$> pixels)
          = w * h * (2 * x0 + w - 1)) as Hsx.
  { rewrite (sumZ_perm _ _ (fmap_Permutation _ _ _ Hperm)).
    unfold block. rewrite sumZ_bind.
    rewrite (list_fmap_ext _ (fun _ => sumZ (seqZ x0 w)) (seqZ y0 h)).
    - rewrite sumZ_const_list, length_seqZ.
      pose proof (sumZ_seqZ x0 w ltac:(lia)). nia.
    - intros i y Hy%list_elem_of_lookup_2%elem_of_seqZ. unfold row.
      rewrite <- list_fmap_compose. f_equal.
      rewrite <- (list_fmap_id (seqZ x0 w)) at 2.
      apply list_fmap_ext. intros j x Hx%list_elem_of_lookup_2%elem_of_seqZ. simpl.
      by destruct (cell_coords width x y) as [-> _]; [lia..|]. }
  assert (2 * sumZ ((fun p => p / width) <$> pixels)
          = w * h * (2 * y0 + h - 1)) as Hsy.
  { rewrite (sumZ_perm _ _ (fmap_Permutation _ _ _ Hperm)).
    unfold block. rewrite sumZ_bind.
    rewrite (list_fmap_ext _ (fun y => w * y) (seqZ y0 h)).
    - rewrite (sumZ_scale w (fun y => y)), list_fmap_id.
      pose proof (sumZ_seqZ y0 h ltac:(lia)). nia.
    - intros i y Hy%list_elem_of_lookup_2%elem_of_seqZ. unfold row.
      rewrite <- list_fmap_compose.
      rewrite (list_fmap_ext _ (fun _ => y) (seqZ x0 w)).
      + rewrite sumZ_const_list, length_seqZ. lia.
      + intros j x Hx%list_elem_of_lookup_2%elem_of_seqZ. simpl.
        by destruct (cell_coords width x y) as [_ ->]; [lia..|]. }
  unfold calculateLabelPoint. cbv zeta. simpl fst. simpl snd.
  rewrite !fold_sum_sumZ, !Z.add_0_l, Hlen.
  split; apply mean_centre; lia.
Qed.

Lemma rectangle_label_centre_witness :
  ((calculateLabelPoint [5; 1; 2; 4]%Z 3%Z).1 == inject_Z 1 + inject_Z 2 / 2)%Q /\
  ((calculateLabelPoint [5; 1; 2; 4]%Z 3%Z).2 == inject_Z 0 + inject_Z 2 / 2)%Q.
Proof.
  apply (rectangle_label_centre 3 1 0 2 2 [5; 1; 2; 4]); try lia.
  - repeat (apply NoDup_cons; split;
            [rewrite ?elem_of_cons, elem_of_nil; lia|]). apply NoDup_nil_2.
  - intros p. rewrite !elem_of_cons, elem_of_nil. split.
    + intros [->|[->|[->|[->|[]]]]];
        [exists 2, 1|exists 1, 0|exists 2, 0|exists 1, 1]; lia.
    + intros (x & y & Hx & Hy & ->).
      assert (x = 1 \/ x = 2) as [-> | ->] by lia;
        assert (y = 0 \/ y = 1) as [-> | ->] by lia; simpl; tauto.
Defined.

(** ** Neighbouring regions *)

(** X27.  Two different regions that touch, that is, hold two pixels that
    are 4-neighbours of each other, never have the same colour id. *)
Theorem touching_regions_differ :
  forall width height pixelLabels minArea palette sc i j ei ej p q d,
    uniqueIds palette ->
    extractRegions width height pixelLabels minArea palette = Ok sc ->
    sc_regions sc !! i = Some ei -> sc_regions sc !! j = Some ej -> i <> j ->
    p ∈ ei.1 -> q ∈ ej.1 ->
    d ∈ directions -> neighbour width height p d = Some q ->
    reg_colorId ei.2 <> reg_colorId ej.2.
Proof.
  intros width height pixelLabels minArea palette sc i j ei ej p q d
    Huniq Hex Hi Hj Hij Hp Hq Hd Hnb Hsame.
  destruct (extractRegions_ind_inv
              (scanColours width height pixelLabels palette)
              width height pixelLabels minArea palette sc) as [Hinv [_ Hcol]]; [| |done|].
  { split; [done|]. apply Forall_nil_2. }
  { intros x y st st'. apply scanColours_step. }
  destruct Hinv as [_ _ _ _ Hregs Hnd _ _ _].
  rewrite Forall_forall in Hregs, Hcol.
  pose proof (list_elem_of_lookup_2 _ _ _ Hi) as Hei.
  pose proof (list_elem_of_lookup_2 _ _ _ Hj) as Hej.
  destruct (Hcol ei Hei) as (ci & pci & xi & yi & Hpci & Hli & _ & Hri).
  destruct (Hcol ej Hej) as (cj & pcj & xj & yj & Hpcj & Hlj & _ & Hrj).
  rewrite Hri, Hrj in Hsame. simpl in Hsame.
  assert (ci = cj) as ->.
  { pose proof (aget_Some_range _ _ _ Hpci). pose proof (aget_Some_range _ _ _ Hpcj).
    unfold aget in Hpci, Hpcj.
    destruct (Z.ltb_spec ci 0); [lia|]. destruct (Z.ltb_spec cj 0); [lia|].
    pose proof (Huniq _ _ _ _ Hpci Hpcj Hsame). lia. }
  destruct (Hregs ei Hei) as (s & _ & _ & _ & _ & Hcomp & _).
  assert (q ∈ ei.1) as Hq'.
  { apply Hcomp. eapply rtc_r; [by apply Hcomp|].
    exists d. split; [done|]. split; [done|]. by rewrite (Hli p Hp), (Hlj q Hq). }
  apply (join_disjoint (fst <$> sc_regions sc) i j ei.1 ej.1 q); try done.
  - by rewrite list_lookup_fmap, Hi.
  - by rewrite list_lookup_fmap, Hj.
Qed.

Lemma touching_regions_differ_witness :
  exists ei ej,
    sc_regions sampleScan !! 0%nat = Some ei /\
    sc_regions sampleScan !! 1%nat = Some ej /\
    reg_colorId ei.2 <> reg_colorId ej.2.
Proof.
  destruct (sc_regions sampleScan !! 0%nat) as [ei|] eqn:Hi; [|discriminate].
  destruct (sc_regions sampleScan !! 1%nat) as [ej|] eqn:Hj; [|discriminate].
  exists ei, ej. split; [done|]. split; [done|].
  apply (touching_regions_differ 3 3 sampleLabels 3 samplePalette sampleScan
           0%nat 1%nat ei ej 1 2 (1, 0)).
  - apply uniqueIds_toPalette.
  - vm_compute; reflexivity.
  - done.
  - done.
  - lia.
  - vm_compute in Hi. injection Hi as <-. simpl. rewrite !elem_of_cons. tauto.
  - vm_compute in Hj. injection Hj as <-. simpl. rewrite !elem_of_cons. tauto.
  - unfold directions. rewrite !elem_of_cons. tauto.
  - reflexivity.
Defined.
